(** * Sketchly: the synthetic stroke-data generator of [training/train_model.py]

    A shallow embedding of the data-generation core of the training script
    (geometry helpers, shape generators, augmentation pipeline, rasterizer and
    dataset builder) together with the properties of its specification.

    Numeric model.  Python's [float] is modelled by exact rational arithmetic
    ([Q]): [+], [-], [*] are the field operations, [/] raises
    [ZeroDivisionError] on a zero divisor exactly as in Python (a division by
    a literal such as [/ 2] is written with the field's division), [int()] is
    truncation towards zero and [round()] rounds to nearest with ties to even.
    Rounding error and overflow are outside this model; a numpy division by
    zero, which yields [nan] or [inf] without raising, is the outcome
    [NotFinite].  The
    functions of [math] and [numpy] that have no rational counterpart
    ([sqrt], [sin], [cos], [atan2], [exp], the constant [pi]) are the fields of
    an interface, [Libm]; the two global pseudorandom generators ([random] and
    [numpy.random]) are the fields of a second interface, [RandomSource], and
    their states are threaded explicitly through every stochastic function. *)

From Stdlib Require Import ZArith QArith Qround Qabs Qminmax Lqa Lia List Bool.
From Stdlib Require String.
Import ListNotations.

Set Implicit Arguments.

(* ================================================================== *)
(** * Exceptions and the two monads of the model *)
(* ================================================================== *)

(** The Python exceptions the modelled code can raise.  [NotFinite] is not
    an exception of Python: it stands for a numpy operation whose result is
    [nan] or [inf] (a division by zero, which numpy does not raise on); the
    values of the model are rationals, so such a result ends the computation
    like an exception does. *)
Inductive exn : Type :=
| IndexError
| ValueError
| ZeroDivisionError
| KeyError
| NotFinite.

(** The outcome of a computation that does not touch the random generators. *)
Inductive result (A : Type) : Type :=
| Ok (a : A)
| Raise (e : exn).

Arguments Ok {A} a.
Arguments Raise {A} e.

Definition bindR {A B : Type} (m : result A) (k : A -> result B) : result B :=
  match m with
  | Ok a => k a
  | Raise e => Raise e
  end.

Declare Scope result_scope.
Delimit Scope result_scope with res.
Notation "x <- m ;; k" := (bindR m (fun x => k))
  (at level 61, m at next level, right associativity) : result_scope.
Notation "' pat <- m ;; k" := (bindR m (fun x => match x with pat => k end))
  (at level 61, pat pattern, m at next level, right associativity) : result_scope.

(** [for x in l: acc = f(acc, x)] *)
Fixpoint foldR {A B : Type} (f : A -> B -> result A) (l : list B) (a : A)
  : result A :=
  match l with
  | [] => Ok a
  | x :: l' => bindR (f a x) (foldR f l')
  end.

(** [[f(x) for x in l]], or a loop that appends [f(x)] for each [x] *)
Fixpoint mapR {A B : Type} (f : A -> result B) (l : list A) : result (list B) :=
  match l with
  | [] => Ok []
  | x :: l' => bindR (f x) (fun y => bindR (mapR f l') (fun ys => Ok (y :: ys)))
  end.

(* ================================================================== *)
(** * Numbers *)
(* ================================================================== *)

Open Scope Q_scope.

Definition point : Type := (Q * Q)%type.
Definition polyline : Type := list point.

Definition Qltb (x y : Q) : bool := negb (Qle_bool y x).

(** [x / y] on floats. *)
Definition float_div (x y : Q) : result Q :=
  if Qeq_bool y 0 then Raise ZeroDivisionError else Ok (x / y).

(** [a / b] on two ints (true division). *)
Definition int_truediv (a b : Z) : result Q :=
  if (b =? 0)%Z then Raise ZeroDivisionError else Ok (inject_Z a / inject_Z b).

(** [int(x)]: truncation towards zero. *)
Definition to_int (x : Q) : Z :=
  if Qltb x 0 then Qceiling x else Qfloor x.

(** [round(x)]: nearest integer, ties to the even one. *)
Definition py_round (x : Q) : Z :=
  let f := Qfloor x in
  let r := x - inject_Z f in
  if Qltb r (1 # 2) then f
  else if Qltb (1 # 2) r then (f + 1)%Z
  else if Z.even f then f else (f + 1)%Z.

(** [max(x0, x1, ...)] and [min(x0, x1, ...)]: the first extremal item. *)
Definition py_max_from (x : Q) (l : list Q) : Q :=
  fold_left (fun m y => if Qltb m y then y else m) l x.

Definition py_min_from (x : Q) (l : list Q) : Q :=
  fold_left (fun m y => if Qltb y m then y else m) l x.

(** [max(l)] and [min(l)] on a list: [ValueError] when it is empty. *)
Definition py_max (l : list Q) : result Q :=
  match l with
  | [] => Raise ValueError
  | x :: l' => Ok (py_max_from x l')
  end.

Definition py_min (l : list Q) : result Q :=
  match l with
  | [] => Raise ValueError
  | x :: l' => Ok (py_min_from x l')
  end.

(** [sum(l)] *)
Definition py_sum (l : list Q) : Q := fold_left Qplus l 0.

(** [range(a, b)] and [range(n)] *)
Definition range2 (a b : Z) : list Z :=
  map (fun i => (a + Z.of_nat i)%Z) (seq 0 (Z.to_nat (b - a))).

Definition range (n : Z) : list Z := range2 0 n.

(** [len(l)] *)
Definition len {A : Type} (l : list A) : Z := Z.of_nat (length l).

(** [l[:k]]: a negative [k] counts from the end. *)
Definition slice_to {A : Type} (l : list A) (k : Z) : list A :=
  if (k <? 0)%Z then firstn (Z.to_nat (len l + k)) l
  else firstn (Z.to_nat k) l.

(** [l[i]] for a list: a negative index counts from the end. *)
Definition getitem {A : Type} (l : list A) (i : Z) : result A :=
  let j := if (i <? 0)%Z then (len l + i)%Z else i in
  if (j <? 0)%Z then Raise IndexError
  else match nth_error l (Z.to_nat j) with
       | Some a => Ok a
       | None => Raise IndexError
       end.

(** [[x] * k] *)
Definition replicate {A : Type} (k : Z) (x : A) : list A :=
  repeat x (Z.to_nat k).

(** The functions of [math] and [numpy] that are not rational. *)
Record Libm : Type := {
  sqrt : Q -> Q;
  sin : Q -> Q;
  cos : Q -> Q;
  atan2 : Q -> Q -> Q;
  exp : Q -> Q;
  pi : Q;
  sqrt_nonneg : forall x, 0 <= sqrt x;
  exp_pos : forall x, 0 < exp x
}.

Section Geometry.

Variable L : Libm.

(** [math.sqrt(x)]: a [ValueError] (math domain error) below zero. *)
Definition math_sqrt (x : Q) : result Q :=
  if Qltb x 0 then Raise ValueError else Ok (sqrt L x).

(* ================================================================== *)
(** * Geometry helpers *)
(* ================================================================== *)

Definition lerp_points (p1 p2 : point) (n : Z) : result polyline :=
  mapR (fun i =>
          (t <- int_truediv i (Z.max (n - 1) 1) ;;
           Ok (fst p1 + t * (fst p2 - fst p1),
               snd p1 + t * (snd p2 - snd p1)))%res)
       (range n).

(** The pairs [(vertices[i], vertices[i + 1])]. *)
Fixpoint edges_of (vertices : polyline) : list (point * point) :=
  match vertices with
  | a :: (b :: _) as rest => (a, b) :: edges_of rest
  | _ => []
  end.

Definition edge_length (e : point * point) : result Q :=
  let '(a, b) := e in
  math_sqrt ((fst b - fst a) * (fst b - fst a)
             + (snd b - snd a) * (snd b - snd a)).

Definition path_length (points : polyline) : result Q :=
  (ls <- mapR edge_length (edges_of points) ;; Ok (py_sum ls))%res.

(** The body of the loop over the edges: the points of one edge, appended. *)
Definition extend_edge (total_points : Z) (total_len : Q) (points : polyline)
    (item : point * point * Q) : result polyline :=
  (let '((a, b), elen) := item in
   q <- float_div (inject_Z total_points * elen) total_len ;;
   let n := Z.max 2 (py_round q) in
   seg <- lerp_points a b n ;;
   Ok (points ++ seg))%res.

Definition interpolate_along_edges (vertices : polyline) (total_points : Z)
  : result polyline :=
  (let edges := edges_of vertices in
   edge_lengths <- mapR edge_length edges ;;
   let total_len := py_sum edge_lengths in
   if Qeq_bool total_len 0 then
     v0 <- getitem vertices 0 ;;
     Ok (replicate total_points v0)
   else
     points <- foldR (extend_edge total_points total_len)
                     (combine edges edge_lengths) [] ;;
     Ok (slice_to points total_points))%res.

End Geometry.

(* ================================================================== *)
(** * Rasterization *)
(* ================================================================== *)

(** A grayscale image: [img[py][px]], row-major. *)
Definition grid : Type := list (list Q).

(** [np.zeros((size, size))] *)
Definition np_zeros (size : Z) : result grid :=
  if (size <? 0)%Z then Raise ValueError
  else Ok (repeat (repeat 0 (Z.to_nat size)) (Z.to_nat size)).

Fixpoint set_nth {A : Type} (l : list A) (i : nat) (v : A) : list A :=
  match l, i with
  | [], _ => []
  | _ :: l', O => v :: l'
  | x :: l', S i' => x :: set_nth l' i' v
  end.

(** An index into an axis of [n] items, as numpy resolves it: [-n <= i < n]. *)
Definition np_index (n i : Z) : result nat :=
  let j := if (i <? 0)%Z then (i + n)%Z else i in
  if ((0 <=? j) && (j <? n))%Z%bool then Ok (Z.to_nat j) else Raise IndexError.

(** [img[py, px] = v] *)
Definition np_setitem (img : grid) (py px : Z) (v : Q) : result grid :=
  (r <- np_index (len img) py ;;
   match nth_error img r with
   | None => Raise IndexError
   | Some row =>
       c <- np_index (len row) px ;;
       Ok (set_nth img r (set_nth row c v))
   end)%res.

Definition epsilon : Q := 1 # 100000000.

Definition normalize_points (points : polyline) (size : Z) : result polyline :=
  (let xs := map fst points in
   let ys := map snd points in
   min_x <- py_min xs ;;
   max_x <- py_max xs ;;
   min_y <- py_min ys ;;
   max_y <- py_max ys ;;
   let w := max_x - min_x in
   let h := max_y - min_y in
   if Qeq_bool w 0 && Qeq_bool h 0 then
     Ok [(inject_Z size / 2, inject_Z size / 2)]
   else
     let padding := inject_Z size * (1 # 10) in
     s <- float_div (inject_Z size - 2 * padding) (py_max_from w [h; epsilon]) ;;
     let offset_x := (inject_Z size - w * s) / 2 in
     let offset_y := (inject_Z size - h * s) / 2 in
     Ok (map (fun '(x, y) => ((x - min_x) * s + offset_x,
                              (y - min_y) * s + offset_y)) points))%res.

(** The extent of a polyline: the least and greatest item of a coordinate
    list (0 for the empty list, where [min] and [max] raise), and the width
    and height of the axis-aligned bounding box. *)
Definition min_of (l : list Q) : Q :=
  match l with
  | [] => 0
  | x :: l' => py_min_from x l'
  end.

Definition max_of (l : list Q) : Q :=
  match l with
  | [] => 0
  | x :: l' => py_max_from x l'
  end.

Definition bbox_w (points : polyline) : Q :=
  max_of (map fst points) - min_of (map fst points).

Definition bbox_h (points : polyline) : Q :=
  max_of (map snd points) - min_of (map snd points).

Section Rasterizer.

Variable L : Libm.

(** The body of the two innermost loops: one pixel of the stamp. *)
Definition stamp_pixel (size : Z) (stroke_width cx cy : Q) (wx : Z)
    (img : grid) (wy : Z) : result grid :=
  (dist <- math_sqrt L (inject_Z (wx * wx + wy * wy)) ;;
   if Qle_bool dist stroke_width then
     let px := py_round (cx + inject_Z wx) in
     let py := py_round (cy + inject_Z wy) in
     if ((0 <=? px) && (px <? size) && (0 <=? py) && (py <? size))%Z%bool
     then np_setitem img py px 1
     else Ok img
   else Ok img)%res.

(** The disc drawn at one step of a segment. *)
Definition stamp (size : Z) (stroke_width cx cy : Q) (img : grid)
  : result grid :=
  let lo := to_int (- stroke_width - 1) in
  let hi := to_int (stroke_width + 2) in
  foldR (fun img wx =>
           foldR (stamp_pixel size stroke_width cx cy wx) (range2 lo hi) img)
        (range2 lo hi) img.

(** The body of the outer loop: the segment from [norm[i - 1]] to [norm[i]]. *)
Definition draw_segment (size : Z) (stroke_width : Q) (norm : polyline)
    (img : grid) (i : Z) : result grid :=
  ('(x1, y1) <- getitem norm (i - 1) ;;
   '(x2, y2) <- getitem norm i ;;
   let dx := x2 - x1 in
   let dy := y2 - y1 in
   d <- math_sqrt L (dx * dx + dy * dy) ;;
   let steps := Z.max (to_int (d * 2)) 1 in
   foldR (fun img s =>
            t <- int_truediv s steps ;;
            let cx := x1 + t * dx in
            let cy := y1 + t * dy in
            stamp size stroke_width cx cy img)
         (range (steps + 1)) img)%res.

Definition rasterize (points : polyline) (size : Z) (stroke_width : Q)
  : result grid :=
  (img <- np_zeros size ;;
   norm <- normalize_points points size ;;
   foldR (draw_segment size stroke_width norm) (range2 1 (len norm)) img)%res.

End Rasterizer.

(* ================================================================== *)
(** * An instance of [Libm] that computes *)
(* ================================================================== *)

(** Square root to six decimals (rounded down), truncated Taylor
    polynomials for the others: enough to run the model on concrete inputs. *)
Lemma square_nonneg (a : Q) : 0 <= a * a.
Proof.
  destruct (Qlt_le_dec a 0) as [H|H].
  - setoid_replace (a * a) with ((- a) * (- a)) by ring.
    apply Qmult_le_0_compat; lra.
  - now apply Qmult_le_0_compat.
Qed.

Definition approx_sqrt (x : Q) : Q :=
  Z.sqrt (Qfloor (x * 1000000000000)) # 1000000.

Definition approx_sin (x : Q) : Q :=
  Qred (x - x * x * x / 6 + x * x * x * x * x / 120).

Definition approx_cos (x : Q) : Q :=
  Qred (1 - x * x / 2 + x * x * x * x / 24).

Definition approx_exp (x : Q) : Q :=
  Qred (1 + x + x * x / 2 + x * x * x / 6 + x * x * x * x / 24).

Definition approx_pi : Q := 355 # 113.

Definition approx_atan2 (y x : Q) : Q :=
  if Qltb 0 x then Qred (y / (x + Qabs y))
  else if Qltb y 0 then Qred (- approx_pi / 2) else Qred (approx_pi / 2).

Lemma approx_sqrt_nonneg (x : Q) : 0 <= approx_sqrt x.
Proof.
  unfold approx_sqrt, Qle; cbn [Qnum Qden].
  pose proof (Z.sqrt_nonneg (Qfloor (x * 1000000000000))). lia.
Qed.

Lemma approx_exp_pos (x : Q) : 0 < approx_exp x.
Proof.
  unfold approx_exp. rewrite Qred_correct.
  assert (E : 1 + x + x * x / 2 + x * x * x / 6 + x * x * x * x / 24
              == ((x * x + 2 * x) * (x * x + 2 * x)
                  + 8 * ((x + (3 # 2)) * (x + (3 # 2))) + 6) * (1 # 24))
    by field.
  rewrite E. clear E.
  pose proof (square_nonneg (x * x + 2 * x)) as H1.
  pose proof (square_nonneg (x + (3 # 2))) as H2.
  set (a := (x * x + 2 * x) * (x * x + 2 * x)) in *.
  set (b := (x + (3 # 2)) * (x + (3 # 2))) in *.
  lra.
Qed.

Definition approx_libm : Libm :=
  {| sqrt := approx_sqrt; sin := approx_sin; cos := approx_cos;
     atan2 := approx_atan2; exp := approx_exp; pi := approx_pi;
     sqrt_nonneg := approx_sqrt_nonneg; exp_pos := approx_exp_pos |}.

(* ================================================================== *)
(** * The random generators and the monad of stochastic code *)
(* ================================================================== *)

(** The two global generators the script draws from: Python's [random]
    module ([random.random], [random.gauss], and the integer draw behind
    [random.randint]) and numpy's ([np.random.randn]).  Each has a state of
    its own; a draw returns a value and the next state. *)
Record RandomSource : Type := {
  py_state : Type;
  np_state : Type;
  random : py_state -> Q * py_state;
  randbelow : Z -> py_state -> Z * py_state;
  gauss : Q -> Q -> py_state -> Q * py_state;
  randn : Z -> np_state -> list Q * np_state;
  random_range : forall s, 0 <= fst (random s) < 1;
  randbelow_range :
    forall n s, (0 < n)%Z -> (0 <= fst (randbelow n s) < n)%Z;
  randn_length : forall n s, length (fst (randn n s)) = Z.to_nat n
}.

(** The state a stochastic function reads and updates. *)
Record world (R : RandomSource) : Type := World {
  py_rng : py_state R;
  np_rng : np_state R
}.

Definition Py (R : RandomSource) (A : Type) : Type :=
  world R -> result (A * world R).

Definition retP {R : RandomSource} {A : Type} (a : A) : Py R A :=
  fun w => Ok (a, w).

Definition bindP {R : RandomSource} {A B : Type} (m : Py R A)
    (k : A -> Py R B) : Py R B :=
  fun w => match m w with
           | Ok (a, w') => k a w'
           | Raise e => Raise e
           end.

(** A computation that draws nothing. *)
Definition lift {R : RandomSource} {A : Type} (r : result A) : Py R A :=
  fun w => match r with
           | Ok a => Ok (a, w)
           | Raise e => Raise e
           end.

Declare Scope py_scope.
Delimit Scope py_scope with py.
Notation "x <- m ;; k" := (bindP m (fun x => k))
  (at level 61, m at next level, right associativity) : py_scope.
Notation "' pat <- m ;; k" := (bindP m (fun x => match x with pat => k end))
  (at level 61, pat pattern, m at next level, right associativity) : py_scope.

Fixpoint foldP {R : RandomSource} {A B : Type} (f : A -> B -> Py R A)
    (l : list B) (a : A) : Py R A :=
  match l with
  | [] => retP a
  | x :: l' => bindP (f a x) (foldP f l')
  end.

Fixpoint mapP {R : RandomSource} {A B : Type} (f : A -> Py R B)
    (l : list A) : Py R (list B) :=
  match l with
  | [] => retP []
  | x :: l' => bindP (f x) (fun y => bindP (mapP f l') (fun ys => retP (y :: ys)))
  end.

(** [enumerate(l)] *)
Definition enumerate {A : Type} (l : list A) : list (Z * A) :=
  combine (range (len l)) l.

Section Random.

Variable R : RandomSource.

(** [random.random()] *)
Definition random_random : Py R Q :=
  fun w => let (u, s) := random R (py_rng w) in
           Ok (u, World R s (np_rng w)).

(** [random.uniform(a, b)], which is [a + (b - a) * random()]. *)
Definition random_uniform (a b : Q) : Py R Q :=
  (u <- random_random ;; retP (a + (b - a) * u))%py.

(** [random.randint(a, b)]: [a] plus a draw below [b - a + 1]; an empty
    range is a [ValueError]. *)
Definition random_randint (a b : Z) : Py R Z :=
  fun w => if (b <? a)%Z then Raise ValueError
           else let (k, s) := randbelow R (b - a + 1) (py_rng w) in
                Ok ((a + k)%Z, World R s (np_rng w)).

(** [random.gauss(mu, sigma)] *)
Definition random_gauss (mu sigma : Q) : Py R Q :=
  fun w => let (g, s) := gauss R mu sigma (py_rng w) in
           Ok (g, World R s (np_rng w)).

(** [np.random.randn(n)] *)
Definition np_random_randn (n : Z) : Py R (list Q) :=
  fun w => let (v, s) := randn R n (np_rng w) in
           Ok (v, World R (py_rng w) s).

End Random.

Arguments random_random R : clear implicits.
Arguments random_uniform R a b : clear implicits.
Arguments random_randint R a b : clear implicits.
Arguments random_gauss R mu sigma : clear implicits.
Arguments np_random_randn R n : clear implicits.

(* ================================================================== *)
(** * The numpy array functions of [elastic_deform] *)
(* ================================================================== *)

(** [np.linspace(start, stop, num)] *)
Definition np_linspace (start stop : Q) (num : Z) : list Q :=
  if (num =? 1)%Z then [start]
  else map (fun i => start + inject_Z i * ((stop - start) / inject_Z (num - 1)))
           (range num).

(** The sum of two sequences, the shorter one padded with zeros. *)
Fixpoint add_padded (a b : list Q) : list Q :=
  match a, b with
  | [], _ => b
  | _, [] => a
  | x :: a', y :: b' => (x + y) :: add_padded a' b'
  end.

(** The full discrete convolution of two sequences. *)
Fixpoint conv_full (a v : list Q) : list Q :=
  match a with
  | [] => []
  | [x] => map (Qmult x) v
  | x :: a' => add_padded (map (Qmult x) v) (0 :: conv_full a' v)
  end.

(** [np.convolve(a, v, mode="same")]: the centre of the full convolution,
    as long as the longer argument; an empty argument is a [ValueError]. *)
Definition np_convolve_same (a v : list Q) : result (list Q) :=
  match a, v with
  | [], _ | _, [] => Raise ValueError
  | _, _ =>
      let '(a1, a2) := if (len a <? len v)%Z then (v, a) else (a, v) in
      let skip := (len a2 - 1 - len a2 / 2)%Z in
      Ok (firstn (length a1) (skipn (Z.to_nat skip) (conv_full a1 a2)))
  end.

(** [a / d] on a numpy array and a scalar: no exception, but [nan] or
    [inf] entries when [d] is zero. *)
Definition np_divide (a : list Q) (d : Q) : result (list Q) :=
  if Qeq_bool d 0 then Raise NotFinite else Ok (map (fun v => v / d) a).

(** [sorted(l)] *)
Fixpoint insert_sorted (x : Q) (l : list Q) : list Q :=
  match l with
  | [] => [x]
  | y :: l' => if Qltb x y then x :: l else y :: insert_sorted x l'
  end.

Definition py_sorted (l : list Q) : list Q :=
  fold_left (fun acc x => insert_sorted x acc) l [].

(** [d[key]] on a dict written as its items: [KeyError] on a missing key. *)
Fixpoint dict_get {A : Type} (d : list (String.string * A))
    (key : String.string) : result A :=
  match d with
  | [] => Raise KeyError
  | (k, v) :: d' => if String.eqb k key then Ok v else dict_get d' key
  end.

(* ================================================================== *)
(** * Configuration *)
(* ================================================================== *)

Definition CANVAS_SIZE : Z := 48.
Definition NUM_CLASSES : Z := 10.
Definition SAMPLES_PER_CLASS : Z := 4000.
Definition STROKE_WIDTH : Q := 1.5.

Import String.StringSyntax.
Delimit Scope string_scope with string.
Open Scope string_scope.

Definition SHAPE_NAMES : list String.string :=
  ["circle"; "square"; "rectangle"; "triangle"; "arrow-left"; "arrow-right";
   "arrow-up"; "arrow-down"; "diamond"; "line"].

Definition CLOSED_SHAPES : list String.string :=
  ["circle"; "square"; "rectangle"; "triangle"; "diamond"].

Definition ROTATION_RANGES : list (String.string * (Q * Q)) :=
  [("circle", (-180, 180));
   ("square", (-15, 15));
   ("rectangle", (-15, 15));
   ("triangle", (-30, 30));
   ("arrow-left", (-10, 10));
   ("arrow-right", (-10, 10));
   ("arrow-up", (-10, 10));
   ("arrow-down", (-10, 10));
   ("diamond", (-15, 15));
   ("line", (-180, 180))].

(** [name in CLOSED_SHAPES] *)
Definition set_mem (s : list String.string) (name : String.string) : bool :=
  existsb (String.eqb name) s.

Close Scope string_scope.

Section Pipeline.

Variable L : Libm.
Variable R : RandomSource.

(* ================================================================== *)
(** * Hand-drawing simulation *)
(* ================================================================== *)

Definition add_hand_wobble (points : polyline) (intensity : Q)
  : Py R polyline :=
  (let n := len points in
   if (n <? 2)%Z then retP points
   else
     freq1 <- random_uniform R 0.05 0.15 ;;
     freq2 <- random_uniform R 0.2 0.4 ;;
     phase1 <- random_uniform R 0 (2 * pi L) ;;
     phase2 <- random_uniform R 0 (2 * pi L) ;;
     mapP (fun '(i, (x, y)) =>
             t <- lift (int_truediv i (Z.max (n - 1) 1)) ;;
             '(dx, dy) <- lift
               (if (i =? 0)%Z then
                  (p1 <- getitem points 1 ;;
                   p0 <- getitem points 0 ;;
                   Ok (fst p1 - fst p0, snd p1 - snd p0))%res
                else if (i =? n - 1)%Z then
                  (p1 <- getitem points (-1) ;;
                   p0 <- getitem points (-2) ;;
                   Ok (fst p1 - fst p0, snd p1 - snd p0))%res
                else
                  (p1 <- getitem points (i + 1) ;;
                   p0 <- getitem points (i - 1) ;;
                   Ok (fst p1 - fst p0, snd p1 - snd p0))%res) ;;
             d <- lift (math_sqrt L (dx * dx + dy * dy)) ;;
             let mag := d + epsilon in
             nx <- lift (float_div (- dy) mag) ;;
             ny <- lift (float_div dx mag) ;;
             g <- random_gauss R 0 (intensity * 0.3) ;;
             let wobble :=
               sin L (t * inject_Z n * freq1 + phase1) * intensity * 0.6
               + sin L (t * inject_Z n * freq2 + phase2) * intensity * 0.3
               + g in
             retP (x + nx * wobble, y + ny * wobble))
          (enumerate points))%py.

Definition simulate_incomplete_shape (points : polyline) (is_closed : bool)
  : Py R polyline :=
  (if negb is_closed then retP points
   else
     u <- random_random R ;;
     if Qltb 0.4 u then retP points
     else
       ratio <- random_uniform R 0.80 0.95 ;;
       retP (slice_to points
               (Z.max 3 (to_int (inject_Z (len points) * ratio)))))%py.

(** The turning angle at [points[i]]. *)
Definition curvature_at (points : polyline) (i : Z) : result Q :=
  ('(ax, ay) <- getitem points (i - 1) ;;
   '(bx, b_y) <- getitem points i ;;
   '(cx, cy) <- getitem points (i + 1) ;;
   let v1x := bx - ax in
   let v1y := b_y - ay in
   let v2x := cx - bx in
   let v2y := cy - b_y in
   let cross := Qabs (v1x * v2y - v1y * v2x) in
   let dot := v1x * v2x + v1y * v2y in
   Ok (atan2 L cross (dot + epsilon)))%res.

Definition simulate_stroke_speed (points : polyline) : Py R polyline :=
  (if (len points <? 5)%Z then retP points
   else
     inner <- lift (mapR (curvature_at points) (range2 1 (len points - 1))) ;;
     let curvatures := [0] ++ inner ++ [0] in
     p0 <- lift (getitem points 0) ;;
     result <- foldP (fun result i =>
                        c <- lift (getitem curvatures i) ;;
                        let keep_prob := 0.3 + 0.7 * py_min_from (c / 0.5) [1] in
                        u <- random_random R ;;
                        if Qltb u keep_prob then
                          p <- lift (getitem points i) ;;
                          retP (result ++ [p])
                        else retP result)
                     (range2 1 (len points)) [p0] ;;
     if (len result <? 3)%Z then retP points else retP result)%py.

Definition elastic_deform (points : polyline) (alpha sigma : Q)
  : Py R polyline :=
  (if (len points <? 2)%Z then retP points
   else
     let n := len points in
     rx <- np_random_randn R n ;;
     let dx_field := map (fun v => v * alpha) rx in
     ry <- np_random_randn R n ;;
     let dy_field := map (fun v => v * alpha) ry in
     let kernel_size := Z.max 3 (Z.lor (to_int (sigma * 2)) 1) in
     let kernel := map (fun v => exp L (- 0.5 * (v * v)))
                       (np_linspace (-2) 2 kernel_size) in
     kernel <- lift (np_divide kernel (py_sum kernel)) ;;
     dx_field <- lift (np_convolve_same dx_field kernel) ;;
     dy_field <- lift (np_convolve_same dy_field kernel) ;;
     mapP (fun '(i, (x, y)) =>
             ddx <- lift (getitem dx_field i) ;;
             ddy <- lift (getitem dy_field i) ;;
             retP (x + ddx, y + ddy))
          (enumerate points))%py.

(* ================================================================== *)
(** * Shape generators *)
(* ================================================================== *)

Definition generate_circle : Py R polyline :=
  (let cx := 50 in
   let cy := 50 in
   u <- random_random R ;;
   let base_r := 25 + u * 15 in
   eccentricity <- random_uniform R 0.85 1.15 ;;
   num_points <- random_randint R 50 80 ;;
   start_angle <- random_uniform R 0 (2 * pi L) ;;
   mapP (fun i =>
           q <- lift (int_truediv i num_points) ;;
           let theta := start_angle + q * 2 * pi L in
           j <- random_uniform R (-0.08) 0.08 ;;
           let r := base_r * (1 + j) in
           let rx := r * eccentricity in
           ry <- lift (float_div r eccentricity) ;;
           let x := cx + rx * cos L theta in
           let y := cy + ry * sin L theta in
           retP (x, y))
        (range (num_points + 1)))%py.

Definition generate_square : Py R polyline :=
  (u <- random_random R ;;
   let size := 40 + u * 25 in
   let cx := 50 in
   let cy := 50 in
   let half := size / 2 in
   skew <- random_uniform R (-0.08) 0.08 ;;
   side_var <- mapP (fun _ => random_uniform R 0.9 1.1) (range 4) ;;
   sv0 <- lift (getitem side_var 0) ;;
   sv1 <- lift (getitem side_var 1) ;;
   sv2 <- lift (getitem side_var 2) ;;
   sv3 <- lift (getitem side_var 3) ;;
   let corners :=
     [(cx - half * sv0, cy - half * sv1);
      (cx + half * sv0, cy - half * sv1 + skew * size);
      (cx + half * sv2 + skew * size, cy + half * sv3);
      (cx - half * sv2, cy + half * sv3);
      (cx - half * sv0, cy - half * sv1)] in
   num_points <- random_randint R 40 70 ;;
   lift (interpolate_along_edges L corners num_points))%py.

(** The reassignment of the rectangle's orientation flip:
    [[(y - 50 + 50, x - 50 + 50) for x, y in corners]]. *)
Definition flip_corners (corners : polyline) : polyline :=
  map (fun '(x, y) => (y - 50 + 50, x - 50 + 50)) corners.

Definition generate_rectangle : Py R polyline :=
  (u <- random_random R ;;
   let w := 50 + u * 30 in
   aspect <- random_uniform R 1.4 2.8 ;;
   h <- lift (float_div w aspect) ;;
   let cx := 50 in
   let cy := 50 in
   skew <- random_uniform R (-0.06) 0.06 ;;
   let corners :=
     [(cx - w / 2, cy - h / 2);
      (cx + w / 2, cy - h / 2 + skew * h);
      (cx + w / 2 + skew * w, cy + h / 2);
      (cx - w / 2, cy + h / 2);
      (cx - w / 2, cy - h / 2)] in
   v <- random_random R ;;
   let corners := if Qltb v 0.5 then flip_corners corners else corners in
   num_points <- random_randint R 40 70 ;;
   lift (interpolate_along_edges L corners num_points))%py.

Definition generate_triangle : Py R polyline :=
  (let cx := 50 in
   let cy := 50 in
   u <- random_random R ;;
   let base_r := 25 + u * 15 in
   draws <- mapP (fun _ => random_uniform R 0 (2 * pi L)) (range 3) ;;
   let angles := py_sorted draws in
   vertices <- mapP (fun a =>
                       f <- random_uniform R 0.8 1.2 ;;
                       let r := base_r * f in
                       retP (cx + r * cos L a, cy + r * sin L a))
                    angles ;;
   v0 <- lift (getitem vertices 0) ;;
   let vertices := vertices ++ [v0] in
   num_points <- random_randint R 35 60 ;;
   lift (interpolate_along_edges L vertices num_points))%py.

Definition _generate_arrow (direction : String.string) : Py R polyline :=
  (u <- random_random R ;;
   let length := 45 + u * 25 in
   let cx := 50 in
   let cy := 50 in
   v <- random_random R ;;
   let head_size := 14 + v * 10 in
   j <- random_uniform R (-0.15) 0.15 ;;
   let head_angle := pi L / 6 + j in
   shaft_points <- random_randint R 20 40 ;;
   curvature <- random_uniform R (-3) 3 ;;
   let '(start, tip, shaft_dir) :=
     if String.eqb direction "right"%string then
       ((cx - length / 2, cy), (cx + length / 2, cy), (1, 0))
     else if String.eqb direction "left"%string then
       ((cx + length / 2, cy), (cx - length / 2, cy), (-1, 0))
     else if String.eqb direction "up"%string then
       ((cx, cy + length / 2), (cx, cy - length / 2), (0, -1))
     else
       ((cx, cy - length / 2), (cx, cy + length / 2), (0, 1)) in
   points <- mapP (fun i =>
                     t <- lift (int_truediv i (shaft_points - 1)) ;;
                     let x := fst start + t * (fst tip - fst start) in
                     let y := snd start + t * (snd tip - snd start) in
                     let perp_x := - snd shaft_dir in
                     let perp_y := fst shaft_dir in
                     let curve_offset := curvature * sin L (t * pi L) in
                     retP (x + perp_x * curve_offset, y + perp_y * curve_offset))
                  (range shaft_points) ;;
   let '(tx, ty) := tip in
   let '(dx, dy) := shaft_dir in
   let angle := atan2 L dy dx in
   let wing1 := (tx - head_size * cos L (angle - head_angle),
                 ty - head_size * sin L (angle - head_angle)) in
   let wing2 := (tx - head_size * cos L (angle + head_angle),
                 ty - head_size * sin L (angle + head_angle)) in
   retP (points ++ [wing1] ++ [tip] ++ [wing2]))%py.

Definition generate_arrow_left : Py R polyline := _generate_arrow "left"%string.
Definition generate_arrow_right : Py R polyline := _generate_arrow "right"%string.
Definition generate_arrow_up : Py R polyline := _generate_arrow "up"%string.
Definition generate_arrow_down : Py R polyline := _generate_arrow "down"%string.

Definition generate_diamond : Py R polyline :=
  (u <- random_random R ;;
   let size := 40 + u * 25 in
   let cx := 50 in
   let cy := 50 in
   h_stretch <- random_uniform R 1.1 1.5 ;;
   w_stretch <- random_uniform R 0.7 1.0 ;;
   axis_var <- mapP (fun _ => random_uniform R 0.93 1.07) (range 4) ;;
   av0 <- lift (getitem axis_var 0) ;;
   av1 <- lift (getitem axis_var 1) ;;
   av2 <- lift (getitem axis_var 2) ;;
   av3 <- lift (getitem axis_var 3) ;;
   let corners :=
     [(cx, cy - size / 2 * h_stretch * av0);
      (cx + size / 2 * w_stretch * av1, cy);
      (cx, cy + size / 2 * h_stretch * av2);
      (cx - size / 2 * w_stretch * av3, cy);
      (cx, cy - size / 2 * h_stretch * av0)] in
   num_points <- random_randint R 35 60 ;;
   lift (interpolate_along_edges L corners num_points))%py.

Definition generate_line : Py R polyline :=
  (u <- random_random R ;;
   let length := 45 + u * 35 in
   let cx := 50 in
   let cy := 50 in
   angle <- random_uniform R 0 (pi L) ;;
   let x1 := cx - (length / 2) * cos L angle in
   let y1 := cy - (length / 2) * sin L angle in
   let x2 := cx + (length / 2) * cos L angle in
   let y2 := cy + (length / 2) * sin L angle in
   num_points <- random_randint R 20 40 ;;
   curvature <- random_uniform R (-2) 2 ;;
   mapP (fun i =>
           t <- lift (int_truediv i (num_points - 1)) ;;
           let x := x1 + t * (x2 - x1) in
           let y := y1 + t * (y2 - y1) in
           perp_x <- lift (float_div (- (y2 - y1)) (length + epsilon)) ;;
           perp_y <- lift (float_div (x2 - x1) (length + epsilon)) ;;
           let offset := curvature * sin L (t * pi L) in
           retP (x + perp_x * offset, y + perp_y * offset))
        (range num_points))%py.

Definition GENERATORS : list (String.string * Py R polyline) :=
  [("circle"%string, generate_circle);
   ("square"%string, generate_square);
   ("rectangle"%string, generate_rectangle);
   ("triangle"%string, generate_triangle);
   ("arrow-left"%string, generate_arrow_left);
   ("arrow-right"%string, generate_arrow_right);
   ("arrow-up"%string, generate_arrow_up);
   ("arrow-down"%string, generate_arrow_down);
   ("diamond"%string, generate_diamond);
   ("line"%string, generate_line)].

(* ================================================================== *)
(** * Augmentation *)
(* ================================================================== *)

(** [sum(p[k] for p in points) / len(points)] *)
Definition mean (l : list Q) : result Q :=
  if (len l =? 0)%Z then Raise ZeroDivisionError
  else Ok (py_sum l / inject_Z (len l)).

Definition rotate (points : polyline) (angle : Q) : result polyline :=
  (cx <- mean (map fst points) ;;
   cy <- mean (map snd points) ;;
   let cos_a := cos L angle in
   let sin_a := sin L angle in
   Ok (map (fun '(x, y) =>
              (cx + (x - cx) * cos_a - (y - cy) * sin_a,
               cy + (x - cx) * sin_a + (y - cy) * cos_a))
           points))%res.

Definition scale (points : polyline) (factor : Q) : result polyline :=
  (cx <- mean (map fst points) ;;
   cy <- mean (map snd points) ;;
   Ok (map (fun '(x, y) => (cx + (x - cx) * factor, cy + (y - cy) * factor))
           points))%res.

Definition translate (points : polyline) (dx dy : Q) : polyline :=
  map (fun '(x, y) => (x + dx, y + dy)) points.

Definition add_noise (points : polyline) (std : Q) : Py R polyline :=
  mapP (fun '(x, y) =>
          (gx <- random_gauss R 0 std ;;
           gy <- random_gauss R 0 std ;;
           retP (x + gx, y + gy))%py)
       points.

(** [math.radians(d)] *)
Definition radians (d : Q) : Q := d * (pi L / 180).

Definition augment (points : polyline) (shape_name : String.string)
  : Py R polyline :=
  (let is_closed := set_mem CLOSED_SHAPES shape_name in
   '(rot_min, rot_max) <- lift (dict_get ROTATION_RANGES shape_name) ;;
   (* 1. Hand wobble *)
   intensity <- random_uniform R 0.5 2.5 ;;
   points <- add_hand_wobble points intensity ;;
   (* 2. Incomplete shape *)
   points <- simulate_incomplete_shape points is_closed ;;
   (* 3. Stroke speed variation *)
   u <- random_random R ;;
   points <- (if Qltb u 0.5 then simulate_stroke_speed points
              else retP points) ;;
   (* 4. Elastic deformation *)
   v <- random_random R ;;
   points <- (if Qltb v 0.6 then
                alpha <- random_uniform R 2.0 6.0 ;;
                elastic_deform points alpha 3.0
              else retP points) ;;
   (* 5. Rotation *)
   angle_deg <- random_uniform R rot_min rot_max ;;
   points <- lift (rotate points (radians angle_deg)) ;;
   (* 6. Scale *)
   scale_factor <- random_uniform R 0.6 1.8 ;;
   points <- lift (scale points scale_factor) ;;
   (* 7. Translation *)
   tx <- random_uniform R (-8) 8 ;;
   ty <- random_uniform R (-8) 8 ;;
   let points := translate points tx ty in
   (* 8. Gaussian noise on each point *)
   noise_std <- random_uniform R 0.3 1.5 ;;
   add_noise points noise_std)%py.

(* ================================================================== *)
(** * Dataset generation *)
(* ================================================================== *)

(** One pass of the inner loop: a sample of [shape_name], labelled. *)
Definition generate_sample (canvas_size : Z) (gen_fn : Py R polyline)
    (shape_name : String.string) (class_idx : Z)
    (acc : list grid * list Z) : Py R (list grid * list Z) :=
  (let '(images, labels) := acc in
   points <- gen_fn ;;
   points <- augment points shape_name ;;
   img <- lift (rasterize L points canvas_size STROKE_WIDTH) ;;
   retP (images ++ [img], labels ++ [class_idx]))%py.

(** [generate_dataset] for a configuration (the progress messages it prints
    are left out). *)
Definition generate_dataset_with (samples_per_class canvas_size : Z)
  : Py R (list grid * list Z) :=
  foldP (fun acc '(class_idx, shape_name) =>
           (gen_fn <- lift (dict_get GENERATORS shape_name) ;;
            foldP (fun acc _ =>
                     generate_sample canvas_size gen_fn shape_name class_idx acc)
                  (range samples_per_class) acc)%py)
        (enumerate SHAPE_NAMES) ([], []).

Definition generate_dataset : Py R (list grid * list Z) :=
  generate_dataset_with SAMPLES_PER_CLASS CANVAS_SIZE.

End Pipeline.

Arguments add_hand_wobble : clear implicits.
Arguments simulate_incomplete_shape : clear implicits.
Arguments simulate_stroke_speed : clear implicits.
Arguments elastic_deform : clear implicits.
Arguments generate_circle : clear implicits.
Arguments generate_square : clear implicits.
Arguments generate_rectangle : clear implicits.
Arguments generate_triangle : clear implicits.
Arguments _generate_arrow : clear implicits.
Arguments generate_arrow_left : clear implicits.
Arguments generate_arrow_right : clear implicits.
Arguments generate_arrow_up : clear implicits.
Arguments generate_arrow_down : clear implicits.
Arguments generate_diamond : clear implicits.
Arguments generate_line : clear implicits.
Arguments GENERATORS : clear implicits.
Arguments add_noise : clear implicits.
Arguments augment : clear implicits.
Arguments generate_sample : clear implicits.
Arguments generate_dataset_with : clear implicits.
Arguments generate_dataset : clear implicits.

(* ================================================================== *)
(** * TF.js export: the topology *)
(* ================================================================== *)

(** The values [json.dump] writes. *)
#[local] Unset Elimination Schemes.
Inductive json : Type :=
| JNull
| JBool (b : bool)
| JInt (n : Z)
| JFloat (x : Q)
| JStr (s : String.string)
| JList (l : list json)
| JDict (d : list (String.string * json)).
#[local] Set Elimination Schemes.

(** The Keras layer classes the export tests for, each with the attributes it
    reads; [OtherLayer] is a class none of them is a base of. *)
Inductive layer_class : Type :=
| InputLayer
| Conv2D (filters : Z) (kernel_size strides : list Z)
    (padding data_format : String.string) (dilation_rate : list Z)
    (use_bias : bool)
| BatchNormalization
| Activation (activation : String.string)
| MaxPooling2D (pool_size : list Z) (padding : String.string)
    (strides : list Z) (data_format : String.string)
| GlobalAveragePooling2D (data_format : String.string)
| Dropout (rate : Q)
| Dense (units : Z) (activation : String.string) (use_bias : bool)
| OtherLayer (class_name : String.string).

Record Layer : Type := {
  layer_name : String.string;
  layer_kind : layer_class
}.

Open Scope string_scope.

(** [layer.__class__.__name__] *)
Definition class_name (k : layer_class) : String.string :=
  match k with
  | InputLayer => "InputLayer"
  | Conv2D _ _ _ _ _ _ _ => "Conv2D"
  | BatchNormalization => "BatchNormalization"
  | Activation _ => "Activation"
  | MaxPooling2D _ _ _ _ => "MaxPooling2D"
  | GlobalAveragePooling2D _ => "GlobalAveragePooling2D"
  | Dropout _ => "Dropout"
  | Dense _ _ _ => "Dense"
  | OtherLayer name => name
  end.

(** [d[key] = v] on a dict written as its items: a key that is present keeps
    its place. *)
Fixpoint dict_set {A : Type} (d : list (String.string * A))
    (key : String.string) (v : A) : list (String.string * A) :=
  match d with
  | [] => [(key, v)]
  | (k, v') :: d' =>
      if String.eqb k key then (k, v) :: d' else (k, v') :: dict_set d' key v
  end.

(** [list(t)] for a tuple of ints. *)
Definition int_list (t : list Z) : json := JList (map JInt t).

(** The body of the loop over [model.layers] past the [continue], for a layer
    that is not an [InputLayer]: the entry [cfg] (whose ["config"] is the
    dict [lc] the body fills) and the flag [is_first_real_layer]. *)
Definition export_real_layer (is_first_real_layer : bool) (layer : Layer)
  : json * bool :=
  let lc := [] in
  let lc := dict_set lc "name" (JStr (layer_name layer)) in
  let lc := dict_set lc "trainable" (JBool true) in
  let lc := dict_set lc "dtype" (JStr "float32") in
  let lc :=
    match layer_kind layer with
    | Conv2D filters kernel_size strides padding data_format dilation_rate
             use_bias =>
        let lc := dict_set lc "filters" (JInt filters) in
        let lc := dict_set lc "kernel_size" (int_list kernel_size) in
        let lc := dict_set lc "strides" (int_list strides) in
        let lc := dict_set lc "padding" (JStr padding) in
        let lc := dict_set lc "data_format" (JStr data_format) in
        let lc := dict_set lc "dilation_rate" (int_list dilation_rate) in
        let lc := dict_set lc "activation" (JStr "linear") in
        dict_set lc "use_bias" (JBool use_bias)
    | _ => lc
    end in
  let '(lc, is_first_real_layer) :=
    if is_first_real_layer then
      (dict_set lc "batch_input_shape"
         (JList [JNull; JInt CANVAS_SIZE; JInt CANVAS_SIZE; JInt 1]), false)
    else
      (match layer_kind layer with
       | BatchNormalization =>
           let lc := dict_set lc "axis" (JList [JInt 3]) in
           let lc := dict_set lc "momentum" (JFloat 0.99) in
           let lc := dict_set lc "epsilon" (JFloat 0.001) in
           let lc := dict_set lc "center" (JBool true) in
           dict_set lc "scale" (JBool true)
       | Activation activation => dict_set lc "activation" (JStr activation)
       | MaxPooling2D pool_size padding strides data_format =>
           let lc := dict_set lc "pool_size" (int_list pool_size) in
           let lc := dict_set lc "padding" (JStr padding) in
           let lc := dict_set lc "strides" (int_list strides) in
           dict_set lc "data_format" (JStr data_format)
       | GlobalAveragePooling2D data_format =>
           dict_set lc "data_format" (JStr data_format)
       | Dropout rate => dict_set lc "rate" (JFloat rate)
       | Dense units activation use_bias =>
           let lc := dict_set lc "units" (JInt units) in
           let lc := dict_set lc "activation" (JStr activation) in
           dict_set lc "use_bias" (JBool use_bias)
       | _ => lc
       end, is_first_real_layer) in
  (JDict [("class_name", JStr (class_name (layer_kind layer)));
          ("config", JDict lc)],
   is_first_real_layer).

(** One pass of the loop over [model.layers]. *)
Definition export_layer (st : list json * bool) (layer : Layer)
  : list json * bool :=
  let '(layers_config, is_first_real_layer) := st in
  match layer_kind layer with
  | InputLayer => (layers_config, is_first_real_layer)
  | _ =>
      let '(cfg, is_first_real_layer) :=
        export_real_layer is_first_real_layer layer in
      ((layers_config ++ [cfg])%list, is_first_real_layer)
  end.

(** [layers_config] at the end of the loop, for [model.layers = layers]. *)
Definition layers_config (layers : list Layer) : list json :=
  fst (fold_left export_layer layers ([], true)).

Definition topology (layers : list Layer) : json :=
  JDict [("class_name", JStr "Sequential");
         ("config", JDict [("name", JStr "sequential");
                           ("layers", JList (layers_config layers))]);
         ("keras_version", JStr "2.15.0");
         ("backend", JStr "tensorflow")].

Close Scope string_scope.

(* ================================================================== *)
(** * An instance of [RandomSource] that computes *)
(* ================================================================== *)

(** A linear congruential generator for each of the two states; draws are
    read off the state in thousandths. *)
Definition lcg_next (s : Z) : Z := ((s * 1103515245 + 12345) mod 2147483648)%Z.

Definition lcg_random (s : Z) : Q * Z :=
  let s' := lcg_next s in ((s' / 65536) mod 1000 # 1000, s').

Definition lcg_randbelow (n s : Z) : Z * Z :=
  let s' := lcg_next s in (((s' / 65536) mod n)%Z, s').

Definition lcg_gauss (mu sigma : Q) (s : Z) : Q * Z :=
  let (u, s1) := lcg_random s in
  let (v, s2) := lcg_random s1 in
  (Qred (mu + sigma * (u + v - 1) * 2), s2).

Fixpoint lcg_randn_nat (n : nat) (s : Z) : list Q * Z :=
  match n with
  | O => ([], s)
  | S n' => let (g, s1) := lcg_gauss 0 1 s in
            let (gs, s2) := lcg_randn_nat n' s1 in
            (g :: gs, s2)
  end.

Definition lcg_randn (n s : Z) : list Q * Z := lcg_randn_nat (Z.to_nat n) s.

Lemma lcg_random_range (s : Z) : 0 <= fst (lcg_random s) < 1.
Proof.
  unfold lcg_random; cbn [fst].
  pose proof (Z.mod_pos_bound (lcg_next s / 65536) 1000 eq_refl) as H.
  unfold Qle, Qlt; cbn [Qnum Qden]. lia.
Qed.

Lemma lcg_randbelow_range (n s : Z) :
  (0 < n)%Z -> (0 <= fst (lcg_randbelow n s) < n)%Z.
Proof. intros H. unfold lcg_randbelow; cbn [fst]. now apply Z.mod_pos_bound. Qed.

Lemma lcg_randn_length (n s : Z) : length (fst (lcg_randn n s)) = Z.to_nat n.
Proof.
  unfold lcg_randn. generalize (Z.to_nat n) as k. intros k. revert s.
  induction k as [|k IH]; intros s; [reflexivity|].
  cbn [lcg_randn_nat].
  destruct (lcg_gauss 0 1 s) as [g s1]. specialize (IH s1).
  destruct (lcg_randn_nat k s1) as [gs s2]. cbn [fst length] in *. now f_equal.
Qed.

Definition lcg_source : RandomSource :=
  {| py_state := Z; np_state := Z;
     random := lcg_random; randbelow := lcg_randbelow; gauss := lcg_gauss;
     randn := lcg_randn;
     random_range := lcg_random_range;
     randbelow_range := lcg_randbelow_range;
     randn_length := lcg_randn_length |}.

Definition seeded (a b : Z) : world lcg_source := World lcg_source a b.

(** A run of the model: the segment from (0, 0) to (1, 0) on a 4 pixel
    canvas is normalized to (0.4, 2)-(3.6, 2) and stamped with discs of radius
    1.5, which cover rows 1 to 3; the stamp pixels left of column 0 and right
    of column 3 are dropped. *)
Example rasterize_segment_4 :
  rasterize approx_libm [(0, 0); (1, 0)] 4 STROKE_WIDTH
  = Ok [[0; 0; 0; 0]; [1; 1; 1; 1]; [1; 1; 1; 1]; [1; 1; 1; 1]].
Proof. vm_compute. reflexivity. Qed.

(* ================================================================== *)
(** * Vocabulary of the properties, and sample inputs *)
(* ================================================================== *)

(** A [size] by [size] image whose pixels are all 0.0 or 1.0. *)
Definition binary_grid (size : Z) (img : grid) : Prop :=
  len img = size /\
  Forall (fun row => len row = size /\ Forall (fun v => v = 0 \/ v = 1) row) img.

(** The scale factor and the affine map [normalize_points] applies. *)
Definition norm_scale (points : polyline) (size : Z) : Q :=
  (inject_Z size - 2 * (inject_Z size * (1 # 10)))
  / py_max_from (bbox_w points) [bbox_h points; epsilon].

Definition norm_map (points : polyline) (size : Z) (p : point) : point :=
  ((fst p - min_of (map fst points)) * norm_scale points size
   + (inject_Z size - bbox_w points * norm_scale points size) / 2,
   (snd p - min_of (map snd points)) * norm_scale points size
   + (inject_Z size - bbox_h points * norm_scale points size) / 2).

(** [n] copies of class 0, then [n] copies of class 1, and so on up to
    class [k - 1]. *)
Definition class_major_labels (k n : Z) : list Z :=
  flat_map (fun c => replicate n c) (range k).

(** Two points with equal coordinates. *)
Definition same_point (p q : point) : Prop :=
  fst p == fst q /\ snd p == snd q.

(** [ensures m P]: from every state of the generators, [m] returns (it
    raises nothing) a value that satisfies [P]. *)
Definition ensures {R : RandomSource} {A : Type} (m : Py R A)
    (P : A -> Prop) : Prop :=
  forall w, exists a w', m w = Ok (a, w') /\ P a.

(** A [line] sample without curvature: points spaced along a straight
    segment through the centre of the logical space. *)
Definition straight_line : polyline :=
  [(10, 50); (30, 50); (50, 50); (70, 50); (90, 50)].

(** Five copies of one point. *)
Definition five_dots : polyline := repeat (20, 30) 5.

(** Two points [1e-9] apart. *)
Definition tiny_box : polyline := [(0, 0); (1 # 1000000000, 0)].

(** Four vertices on a line, one unit apart: three edges of equal length. *)
Definition collinear4 : polyline := [(0, 0); (1, 0); (2, 0); (3, 0)].

(** The corners of a rectangle 60 wide and 30 high, without skew. *)
Definition upright_rectangle : polyline :=
  [(20, 35); (80, 35); (80, 65); (20, 65); (20, 35)].

(** The point of the segment from [p1] to [p2] at parameter [t]. *)
Definition along (p1 p2 : point) (t : Q) : point :=
  (fst p1 + t * (fst p2 - fst p1), snd p1 + t * (snd p2 - snd p1)).

(** [q] is [p] scaled by [a] and shifted by [(sx, sy)], point by point. *)
Definition similar (a sx sy : Q) (p q : polyline) : Prop :=
  Forall2 (fun u v => fst v == a * fst u + sx /\ snd v == a * snd u + sy) p q.

(** The pixel [img[py][px]] of an image, for indices inside it. *)
Definition pixel (img : grid) (py px : Z) : option Q :=
  if ((py <? 0) || (px <? 0))%Z%bool then None
  else match nth_error img (Z.to_nat py) with
       | Some row => nth_error row (Z.to_nat px)
       | None => None
       end.

(** The pixels of a stamp, of a segment and of a stroke, wherever they fall.
    [stamp_hits]: the disc drawn around [(cx, cy)] has a pixel in row [r],
    column [c]: an offset [(wx, wy)] of the scanned square, no further than
    [stroke_width] from the centre, that rounds there. *)
Definition stamp_hits (L : Libm) (stroke_width cx cy : Q) (r c : Z) : Prop :=
  exists wx wy,
    (to_int (- stroke_width - 1) <= wx < to_int (stroke_width + 2))%Z
    /\ (to_int (- stroke_width - 1) <= wy < to_int (stroke_width + 2))%Z
    /\ sqrt L (inject_Z (wx * wx + wy * wy)) <= stroke_width
    /\ py_round (cx + inject_Z wx) = c
    /\ py_round (cy + inject_Z wy) = r.

(** [segment_hits]: one of the [steps + 1] stamps along the segment from
    [p1] to [p2] has a pixel there. *)
Definition segment_hits (L : Libm) (stroke_width : Q) (p1 p2 : point)
    (r c : Z) : Prop :=
  let dx := fst p2 - fst p1 in
  let dy := snd p2 - snd p1 in
  let steps := Z.max (to_int (sqrt L (dx * dx + dy * dy) * 2)) 1 in
  exists s, (0 <= s <= steps)%Z
    /\ stamp_hits L stroke_width
         (fst p1 + inject_Z s / inject_Z steps * dx)
         (snd p1 + inject_Z s / inject_Z steps * dy) r c.

(** [stamped]: one of the segments of the normalized polyline has. *)
Definition stamped (L : Libm) (stroke_width : Q) (norm : polyline)
    (r c : Z) : Prop :=
  exists i p1 p2, (1 <= i < len norm)%Z
    /\ nth_error norm (Z.to_nat (i - 1)) = Some p1
    /\ nth_error norm (Z.to_nat i) = Some p2
    /\ segment_hits L stroke_width p1 p2 r c.

(** [subseq l l']: [l] is [l'] with some items left out, in order. *)
Inductive subseq {A : Type} : list A -> list A -> Prop :=
| subseq_nil : subseq [] []
| subseq_keep (x : A) (l l' : list A) : subseq l l' -> subseq (x :: l) (x :: l')
| subseq_skip (x : A) (l l' : list A) : subseq l l' -> subseq l (x :: l').

(** [raises m e]: from every state of the generators, [m] raises [e]. *)
Definition raises {R : RandomSource} {A : Type} (m : Py R A) (e : exn) : Prop :=
  forall w, m w = Raise e.






(** The mean of the points of a polyline. *)
Definition centroid (points : polyline) : point :=
  (py_sum (map fst points) / inject_Z (len points),
   py_sum (map snd points) / inject_Z (len points)).

Open Scope string_scope.

(** [isinstance(layer, keras.layers.InputLayer)], and the same for
    [Conv2D]. *)
Definition is_input (layer : Layer) : bool :=
  match layer_kind layer with InputLayer => true | _ => false end.

Definition is_conv (layer : Layer) : bool :=
  match layer_kind layer with Conv2D _ _ _ _ _ _ _ => true | _ => false end.

(** [cfg["config"]] and [cfg[key]] of an entry, and the keys of a dict. *)
Definition config_of (cfg : json) : list (String.string * json) :=
  match cfg with
  | JDict d => match dict_get d "config" with
               | Ok (JDict lc) => lc
               | _ => []
               end
  | _ => []
  end.

Definition entry_get (cfg : json) (key : String.string) : result json :=
  match cfg with
  | JDict d => dict_get d key
  | _ => Raise KeyError
  end.

Definition keys {A : Type} (d : list (String.string * A)) : list String.string :=
  map fst d.

(** The input shape the export writes. *)
Definition input_shape : json :=
  JList [JNull; JInt CANVAS_SIZE; JInt CANVAS_SIZE; JInt 1].

(** The entries the loop appends from [layers], entered with the flag
    [first]. *)
Fixpoint exported (first : bool) (layers : list Layer) : list json :=
  match layers with
  | [] => []
  | l :: ls =>
      if is_input l then exported first ls
      else fst (export_real_layer first l)
           :: exported (snd (export_real_layer first l)) ls
  end.

(** A model of two layers that starts with a [Dense] layer. *)
Definition dense_first : list Layer :=
  [ {| layer_name := "hidden"; layer_kind := Dense 64 "relu" true |};
    {| layer_name := "output"; layer_kind := Dense 10 "softmax" true |} ].

Close Scope string_scope.

(* ================================================================== *)
(** * General lemmas: the monad, ranges, indexing, comparisons *)
(* ================================================================== *)

(** [lra] does not read a division: halving is written as a product. *)
Ltac halve := unfold Qdiv in *; change (/ 2) with (1 # 2) in *.

Lemma Qltb_lt (x y : Q) : Qltb x y = true <-> x < y.
Proof.
  unfold Qltb. rewrite negb_true_iff, <- not_true_iff_false, Qle_bool_iff.
  split; [apply Qnot_le_lt | apply Qlt_not_le].
Qed.

Lemma Qltb_ge (x y : Q) : Qltb x y = false <-> y <= x.
Proof.
  unfold Qltb. rewrite negb_false_iff. apply Qle_bool_iff.
Qed.

Lemma Qeq_bool_false (x y : Q) : ~ x == y -> Qeq_bool x y = false.
Proof.
  intros H. destruct (Qeq_bool x y) eqn:E; [|reflexivity].
  apply Qeq_bool_iff in E. contradiction.
Qed.

Lemma float_div_ok (x y : Q) : ~ y == 0 -> float_div x y = Ok (x / y).
Proof. intros H. unfold float_div. now rewrite Qeq_bool_false. Qed.

Lemma int_truediv_ok (a b : Z) :
  b <> 0%Z -> int_truediv a b = Ok (inject_Z a / inject_Z b).
Proof.
  intros H. unfold int_truediv. destruct (Z.eqb_spec b 0); [contradiction|reflexivity].
Qed.

Lemma in_range2 (a b i : Z) : In i (range2 a b) <-> (a <= i < b)%Z.
Proof.
  unfold range2. rewrite in_map_iff. split.
  - intros (k & <- & Hk). apply in_seq in Hk. lia.
  - intros H. exists (Z.to_nat (i - a)). split; [lia|]. apply in_seq. lia.
Qed.

Lemma in_range (n i : Z) : In i (range n) <-> (0 <= i < n)%Z.
Proof. apply in_range2. Qed.

Lemma length_range2 (a b : Z) : length (range2 a b) = Z.to_nat (b - a).
Proof. unfold range2. now rewrite length_map, length_seq. Qed.

Lemma length_range (n : Z) : length (range n) = Z.to_nat n.
Proof. unfold range. rewrite length_range2. f_equal. lia. Qed.

Lemma getitem_ok {A : Type} (l : list A) (i : Z) :
  (0 <= i < len l)%Z -> exists a, getitem l i = Ok a /\ In a l.
Proof.
  unfold getitem, len. intros H.
  assert (E0 : (i <? 0)%Z = false) by (apply Z.ltb_ge; lia).
  cbv zeta. rewrite !E0.
  destruct (nth_error l (Z.to_nat i)) eqn:E.
  - exists a. split; [reflexivity|]. eapply nth_error_In; eauto.
  - apply nth_error_None in E. lia.
Qed.

(** A loop keeps an invariant, and returns, when every iteration does. *)
Lemma foldR_inv {A B : Type} (P : A -> Prop) (f : A -> B -> result A)
    (l : list B) :
  (forall a x, In x l -> P a -> exists a', f a x = Ok a' /\ P a') ->
  forall a, P a -> exists a', foldR f l a = Ok a' /\ P a'.
Proof.
  induction l as [|x l IH]; intros Hf a Ha; simpl.
  - eauto.
  - destruct (Hf a x (or_introl eq_refl) Ha) as (a1 & -> & Ha1). simpl.
    apply IH; [|exact Ha1]. intros a2 y Hy. apply Hf. now right.
Qed.

(** A comprehension returns a list as long as its input when every item
    evaluates, and each result is related to its item. *)
Lemma mapR_inv {A B : Type} (R : A -> B -> Prop) (f : A -> result B)
    (l : list A) :
  (forall x, In x l -> exists y, f x = Ok y /\ R x y) ->
  exists ys, mapR f l = Ok ys /\ Forall2 R l ys.
Proof.
  induction l as [|x l IH]; intros Hf; simpl.
  - eauto.
  - destruct (Hf x (or_introl eq_refl)) as (y & -> & Hy). simpl.
    destruct IH as (ys & -> & Hys); [intros z Hz; apply Hf; now right|].
    simpl. eauto.
Qed.

Lemma mapR_length {A B : Type} (f : A -> result B) (l : list A) (ys : list B) :
  mapR f l = Ok ys -> length ys = length l.
Proof.
  revert ys. induction l as [|x l IH]; simpl; intros ys H.
  - now inversion H.
  - destruct (f x); simpl in H; [|discriminate].
    destruct (mapR f l); simpl in H; [|discriminate].
    inversion H; subst. simpl. f_equal. now apply IH.
Qed.

Lemma sum_squares_nonneg (x y : Q) : 0 <= x * x + y * y.
Proof. nra. Qed.

Lemma math_sqrt_ok (L : Libm) (x : Q) :
  0 <= x -> math_sqrt L x = Ok (sqrt L x).
Proof.
  intros H. unfold math_sqrt. now rewrite (proj2 (Qltb_ge x 0) H).
Qed.

(* ================================================================== *)
(** * The rasterizer writes inside the canvas *)
(* ================================================================== *)

Lemma length_set_nth {A : Type} (l : list A) (i : nat) (v : A) :
  length (set_nth l i v) = length l.
Proof.
  revert i; induction l as [|x l IH]; intros [|i]; simpl; auto.
Qed.

Lemma Forall_set_nth {A : Type} (P : A -> Prop) (l : list A) (i : nat) (v : A) :
  Forall P l -> P v -> Forall P (set_nth l i v).
Proof.
  intros Hl Hv. revert i. induction Hl; intros [|i]; simpl; auto.
Qed.

Lemma np_index_ok (n i : Z) :
  (0 <= i < n)%Z -> np_index n i = Ok (Z.to_nat i).
Proof.
  intros H. unfold np_index.
  destruct (Z.ltb_spec i 0); [lia|].
  destruct (Z.leb_spec 0 i); [|lia].
  destruct (Z.ltb_spec i n); [|lia]. reflexivity.
Qed.

Lemma np_zeros_binary (size : Z) :
  (0 <= size)%Z -> np_zeros size = Ok (repeat (repeat 0 (Z.to_nat size)) (Z.to_nat size))
  /\ binary_grid size (repeat (repeat 0 (Z.to_nat size)) (Z.to_nat size)).
Proof.
  intros H. unfold np_zeros. destruct (Z.ltb_spec size 0); [lia|].
  split; [reflexivity|]. split.
  - unfold len. rewrite repeat_length. lia.
  - apply Forall_forall. intros row Hrow. apply repeat_spec in Hrow. subst row.
    split.
    + unfold len. rewrite repeat_length. lia.
    + apply Forall_forall. intros v Hv. apply repeat_spec in Hv. now left.
Qed.

Lemma np_setitem_binary (size : Z) (img : grid) (py px : Z) :
  binary_grid size img -> (0 <= px < size)%Z -> (0 <= py < size)%Z ->
  exists img', np_setitem img py px 1 = Ok img' /\ binary_grid size img'.
Proof.
  intros [Hlen Hrows] Hpx Hpy. unfold np_setitem.
  rewrite np_index_ok by lia. simpl.
  destruct (nth_error img (Z.to_nat py)) as [row|] eqn:E.
  - pose proof (nth_error_In _ _ E) as Hin.
    rewrite Forall_forall in Hrows. destruct (Hrows row Hin) as [Hr Hv].
    rewrite np_index_ok by lia. simpl. eexists. split; [reflexivity|].
    split.
    + unfold len in *. now rewrite length_set_nth.
    + apply Forall_set_nth; [now apply Forall_forall|]. split.
      * unfold len in *. now rewrite length_set_nth.
      * apply Forall_set_nth; auto.
  - apply nth_error_None in E. unfold len in Hlen. lia.
Qed.

Section RasterizerSafety.

Variable L : Libm.

Lemma stamp_pixel_binary (size : Z) (sw cx cy : Q) (wx wy : Z) (img : grid) :
  binary_grid size img ->
  exists img', stamp_pixel L size sw cx cy wx img wy = Ok img'
               /\ binary_grid size img'.
Proof.
  intros Himg. unfold stamp_pixel.
  rewrite math_sqrt_ok.
  2:{ unfold Qle; simpl. nia. }
  simpl. destruct (Qle_bool _ sw); [|eauto].
  destruct (Z.leb_spec 0 (py_round (cx + inject_Z wx))); simpl; [|eauto].
  destruct (Z.ltb_spec (py_round (cx + inject_Z wx)) size); simpl; [|eauto].
  destruct (Z.leb_spec 0 (py_round (cy + inject_Z wy))); simpl; [|eauto].
  destruct (Z.ltb_spec (py_round (cy + inject_Z wy)) size); simpl; [|eauto].
  apply np_setitem_binary; auto; lia.
Qed.

Lemma stamp_binary (size : Z) (sw cx cy : Q) (img : grid) :
  binary_grid size img ->
  exists img', stamp L size sw cx cy img = Ok img' /\ binary_grid size img'.
Proof.
  intros Himg. unfold stamp.
  apply foldR_inv with (P := binary_grid size); [|exact Himg].
  intros img1 wx _ H1.
  apply foldR_inv with (P := binary_grid size); [|exact H1].
  intros img2 wy _ H2. now apply stamp_pixel_binary.
Qed.

Lemma draw_segment_binary (size : Z) (sw : Q) (norm : polyline) (img : grid)
    (i : Z) :
  (1 <= i < len norm)%Z -> binary_grid size img ->
  exists img', draw_segment L size sw norm img i = Ok img'
               /\ binary_grid size img'.
Proof.
  intros Hi Himg. unfold draw_segment.
  destruct (@getitem_ok _ norm (i - 1)) as ([x1 y1] & -> & _); [lia|].
  destruct (@getitem_ok _ norm i) as ([x2 y2] & -> & _); [lia|].
  simpl. rewrite math_sqrt_ok by apply sum_squares_nonneg. simpl.
  apply foldR_inv with (P := binary_grid size); [|exact Himg].
  intros img1 s _ H1. rewrite int_truediv_ok by lia. simpl.
  now apply stamp_binary.
Qed.

End RasterizerSafety.

(* ================================================================== *)
(** * Normalization *)
(* ================================================================== *)

Lemma py_max_from_spec (l : list Q) : forall x,
  In (py_max_from x l) (x :: l) /\ x <= py_max_from x l
  /\ Forall (fun y => y <= py_max_from x l) l.
Proof.
  unfold py_max_from.
  induction l as [|y l IH]; intros x; simpl.
  - repeat split; [now left | apply Qle_refl | constructor].
  - destruct (IH (if Qltb x y then y else x)) as (Hin & Hle & Hall).
    assert (Hxy : x <= (if Qltb x y then y else x)
                  /\ y <= (if Qltb x y then y else x)).
    { destruct (Qltb x y) eqn:E.
      - apply Qltb_lt in E. split; [now apply Qlt_le_weak | apply Qle_refl].
      - apply Qltb_ge in E. split; [apply Qle_refl | exact E]. }
    destruct Hxy as [Hx Hy]. repeat split.
    + destruct Hin as [Hin|Hin]; [|now right; right].
      rewrite <- Hin. destruct (Qltb x y); [right; now left | now left].
    + eapply Qle_trans; eauto.
    + constructor; [eapply Qle_trans; eauto | exact Hall].
Qed.

Lemma py_min_from_spec (l : list Q) : forall x,
  In (py_min_from x l) (x :: l) /\ py_min_from x l <= x
  /\ Forall (fun y => py_min_from x l <= y) l.
Proof.
  unfold py_min_from.
  induction l as [|y l IH]; intros x; simpl.
  - repeat split; [now left | apply Qle_refl | constructor].
  - destruct (IH (if Qltb y x then y else x)) as (Hin & Hle & Hall).
    assert (Hxy : (if Qltb y x then y else x) <= x
                  /\ (if Qltb y x then y else x) <= y).
    { destruct (Qltb y x) eqn:E.
      - apply Qltb_lt in E. split; [now apply Qlt_le_weak | apply Qle_refl].
      - apply Qltb_ge in E. split; [apply Qle_refl | exact E]. }
    destruct Hxy as [Hx Hy]. repeat split.
    + destruct Hin as [Hin|Hin]; [|now right; right].
      rewrite <- Hin. destruct (Qltb y x); [right; now left | now left].
    + eapply Qle_trans; eauto.
    + constructor; [eapply Qle_trans; eauto | exact Hall].
Qed.

Lemma max_of_spec (l : list Q) :
  l <> [] -> In (max_of l) l /\ Forall (fun y => y <= max_of l) l.
Proof.
  destruct l as [|x l]; [congruence|]. intros _. simpl.
  destruct (py_max_from_spec l x) as (H1 & H2 & H3). split; auto.
Qed.

Lemma min_of_spec (l : list Q) :
  l <> [] -> In (min_of l) l /\ Forall (fun y => min_of l <= y) l.
Proof.
  destruct l as [|x l]; [congruence|]. intros _. simpl.
  destruct (py_min_from_spec l x) as (H1 & H2 & H3). split; auto.
Qed.

Lemma py_max_ok (l : list Q) : l <> [] -> py_max l = Ok (max_of l).
Proof. destruct l; [congruence|reflexivity]. Qed.

Lemma py_min_ok (l : list Q) : l <> [] -> py_min l = Ok (min_of l).
Proof. destruct l; [congruence|reflexivity]. Qed.

Lemma min_of_le_max_of (l : list Q) : l <> [] -> min_of l <= max_of l.
Proof.
  intros H. destruct (max_of_spec H) as [Hin _].
  destruct (min_of_spec H) as [_ Hall].
  rewrite Forall_forall in Hall. now apply Hall.
Qed.

(** A monotone map commutes with [max] and [min]. *)
Lemma max_of_map_mono (g : Q -> Q) (l : list Q) :
  (forall x y, x <= y -> g x <= g y) -> l <> [] ->
  max_of (map g l) == g (max_of l).
Proof.
  intros Hg Hl.
  assert (Hl' : map g l <> []) by (destruct l; [congruence | discriminate]).
  destruct (max_of_spec Hl) as [Hin Hall].
  destruct (max_of_spec Hl') as [Hin' Hall'].
  rewrite Forall_forall in Hall, Hall'.
  apply Qle_antisym.
  - apply in_map_iff in Hin'. destruct Hin' as (x0 & <- & Hx0).
    apply Hg, Hall, Hx0.
  - apply Hall'. now apply in_map.
Qed.

Lemma min_of_map_mono (g : Q -> Q) (l : list Q) :
  (forall x y, x <= y -> g x <= g y) -> l <> [] ->
  min_of (map g l) == g (min_of l).
Proof.
  intros Hg Hl.
  assert (Hl' : map g l <> []) by (destruct l; [congruence | discriminate]).
  destruct (min_of_spec Hl) as [Hin Hall].
  destruct (min_of_spec Hl') as [Hin' Hall'].
  rewrite Forall_forall in Hall, Hall'.
  apply Qle_antisym.
  - apply Hall'. now apply in_map.
  - apply in_map_iff in Hin'. destruct Hin' as (x0 & <- & Hx0).
    apply Hg, Hall, Hx0.
Qed.

Lemma norm_divisor_pos (w h : Q) : epsilon <= py_max_from w [h; epsilon].
Proof.
  destruct (py_max_from_spec [h; epsilon] w) as (_ & _ & Hall).
  inversion Hall as [|? ? _ Hall']; subst. now inversion Hall'.
Qed.

(** [normalize_points] never raises on a non-empty polyline, and what it
    returns. *)
Lemma normalize_points_eq (points : polyline) (size : Z) :
  points <> [] ->
  normalize_points points size =
  if Qeq_bool (bbox_w points) 0 && Qeq_bool (bbox_h points) 0
  then Ok [(inject_Z size / 2, inject_Z size / 2)]
  else Ok (map (norm_map points size) points).
Proof.
  intros Hne.
  assert (Hx : map fst points <> []) by (destruct points; [congruence|discriminate]).
  assert (Hy : map snd points <> []) by (destruct points; [congruence|discriminate]).
  unfold normalize_points. cbv zeta.
  rewrite (py_min_ok Hx). cbn [bindR]. rewrite (py_max_ok Hx). cbn [bindR].
  rewrite (py_min_ok Hy). cbn [bindR]. rewrite (py_max_ok Hy). cbn [bindR].
  fold (bbox_w points) (bbox_h points).
  destruct (_ && _); [reflexivity|].
  rewrite float_div_ok.
  2:{ intros E. pose proof (norm_divisor_pos (bbox_w points) (bbox_h points)) as H.
      rewrite E in H. unfold epsilon in H. revert H. apply Qlt_not_le. reflexivity. }
  cbn [bindR]. apply f_equal. apply map_ext. intros [x y]. reflexivity.
Qed.

Lemma normalize_points_length_eq (points : polyline) (size : Z) :
  points <> [] ->
  exists out, normalize_points points size = Ok out /\
    (~ (bbox_w points == 0 /\ bbox_h points == 0) -> out = map (norm_map points size) points) /\
    (bbox_w points == 0 /\ bbox_h points == 0 ->
     out = [(inject_Z size / 2, inject_Z size / 2)]).
Proof.
  intros Hne. rewrite (normalize_points_eq size Hne).
  destruct (Qeq_bool (bbox_w points) 0) eqn:Ew;
    [destruct (Qeq_bool (bbox_h points) 0) eqn:Eh|]; simpl;
    eexists; (split; [reflexivity|]); split; intros H; try reflexivity.
  - exfalso. apply H. split; now apply Qeq_bool_iff.
  - destruct H as [_ H]. apply Qeq_bool_iff in H. congruence.
  - destruct H as [H _]. apply Qeq_bool_iff in H. congruence.
Qed.

(** A polyline whose bounding box is a single point is drawn as nothing:
    the normalized polyline has one point, hence no segment. *)
Lemma rasterize_degenerate (L : Libm) (points : polyline) (size : Z) (sw : Q) :
  points <> [] -> bbox_w points == 0 /\ bbox_h points == 0 -> (0 <= size)%Z ->
  rasterize L points size sw
  = Ok (repeat (repeat 0 (Z.to_nat size)) (Z.to_nat size)).
Proof.
  intros Hne Hdeg Hsize. unfold rasterize.
  rewrite (proj1 (np_zeros_binary Hsize)). cbn [bindR].
  destruct (normalize_points_length_eq size Hne) as (out & -> & _ & Hout).
  rewrite (Hout Hdeg). reflexivity.
Qed.

Lemma scaled_coord_bounds (S s m w d : Q) :
  0 <= S -> 0 < m -> s * m == S - 2 * (S * (1 # 10)) ->
  0 <= w <= m -> 0 <= d <= w ->
  0 <= s /\ S * (1 # 10) <= d * s + (S - w * s) / 2 <= S * (9 # 10).
Proof.
  intros HS Hm Hs [Hw0 Hwm] [Hd0 Hdw].
  assert (Hs0 : 0 <= s).
  { destruct (Qlt_le_dec s 0) as [Hneg|]; [|assumption].
    exfalso. assert (s * m < 0) by nra. lra. }
  split; [exact Hs0|].
  assert (H1 : 0 <= d * s) by (apply Qmult_le_0_compat; assumption).
  assert (H2 : d * s <= w * s) by (apply Qmult_le_compat_r; assumption).
  assert (H3 : w * s <= m * s) by (apply Qmult_le_compat_r; assumption).
  rewrite (Qmult_comm s m) in Hs.
  halve. split; lra.
Qed.

Lemma norm_scale_mult (points : polyline) (size : Z) :
  norm_scale points size * py_max_from (bbox_w points) [bbox_h points; epsilon]
  == inject_Z size - 2 * (inject_Z size * (1 # 10)).
Proof.
  unfold norm_scale. field.
  intros E. pose proof (norm_divisor_pos (bbox_w points) (bbox_h points)) as H.
  rewrite E in H. revert H. apply Qlt_not_le. reflexivity.
Qed.

Lemma Qmax_scale (w h s : Q) : 0 <= s -> Qmax (w * s) (h * s) == Qmax w h * s.
Proof.
  intros Hs. destruct (Qlt_le_dec w h) as [H|H].
  - rewrite (Q.max_r w h) by now apply Qlt_le_weak.
    apply Q.max_r. apply Qmult_le_compat_r; [now apply Qlt_le_weak|assumption].
  - rewrite (Q.max_l w h) by assumption.
    apply Q.max_l. now apply Qmult_le_compat_r.
Qed.

Lemma bbox_nonneg (points : polyline) :
  points <> [] -> 0 <= bbox_w points /\ 0 <= bbox_h points.
Proof.
  intros Hne.
  assert (Hx : map fst points <> []) by (destruct points; [congruence|discriminate]).
  assert (Hy : map snd points <> []) by (destruct points; [congruence|discriminate]).
  pose proof (min_of_le_max_of Hx). pose proof (min_of_le_max_of Hy).
  unfold bbox_w, bbox_h. split; lra.
Qed.

(** The bounding box of the normalized polyline is the input's, scaled. *)
Lemma bbox_norm_map (points : polyline) (size : Z) :
  points <> [] -> (0 <= size)%Z ->
  bbox_w (map (norm_map points size) points)
    == bbox_w points * norm_scale points size /\
  bbox_h (map (norm_map points size) points)
    == bbox_h points * norm_scale points size /\
  0 <= norm_scale points size.
Proof.
  intros Hne Hsize.
  assert (Hx : map fst points <> []) by (destruct points; [congruence|discriminate]).
  assert (Hy : map snd points <> []) by (destruct points; [congruence|discriminate]).
  destruct (bbox_nonneg Hne) as [Hw Hh].
  pose proof (norm_divisor_pos (bbox_w points) (bbox_h points)) as Hm.
  destruct (py_max_from_spec [bbox_h points; epsilon] (bbox_w points))
    as (_ & Hwm & _).
  assert (Hs : 0 <= norm_scale points size).
  { eapply (@scaled_coord_bounds (inject_Z size) _ _ (bbox_w points) 0).
    - change 0 with (inject_Z 0). rewrite <- Zle_Qle. exact Hsize.
    - eapply Qlt_le_trans; [|exact Hm]. reflexivity.
    - apply norm_scale_mult.
    - split; assumption.
    - split; [apply Qle_refl | assumption]. }
  set (s := norm_scale points size) in *.
  set (gx := fun x => (x - min_of (map fst points)) * s
                      + (inject_Z size - bbox_w points * s) / 2).
  set (gy := fun y => (y - min_of (map snd points)) * s
                      + (inject_Z size - bbox_h points * s) / 2).
  assert (Ex : map fst (map (norm_map points size) points) = map gx (map fst points))
    by (rewrite !map_map; apply map_ext; intros [x y]; reflexivity).
  assert (Ey : map snd (map (norm_map points size) points) = map gy (map snd points))
    by (rewrite !map_map; apply map_ext; intros [x y]; reflexivity).
  assert (Hgx : forall x y, x <= y -> gx x <= gx y)
    by (intros x y Hxy; unfold gx; halve; nra).
  assert (Hgy : forall x y, x <= y -> gy x <= gy y)
    by (intros x y Hxy; unfold gy; halve; nra).
  unfold bbox_w at 1, bbox_h at 1. rewrite Ex, Ey.
  rewrite (max_of_map_mono gx Hgx Hx), (min_of_map_mono gx Hgx Hx).
  rewrite (max_of_map_mono gy Hgy Hy), (min_of_map_mono gy Hgy Hy).
  unfold gx, gy, bbox_w, bbox_h.
  split; [field | split; [field | exact Hs]].
Qed.

(* ================================================================== *)
(** * Properties of the rasterizer *)
(* ================================================================== *)

(** [rasterize] returns on every non-empty polyline and canvas size that is
    not negative: no write falls outside the image. *)
Lemma rasterize_ok (L : Libm) (points : polyline) (size : Z)
    (stroke_width : Q) :
  points <> [] -> (0 <= size)%Z ->
  exists img, rasterize L points size stroke_width = Ok img
              /\ binary_grid size img.
Proof.
  intros Hne Hsize. unfold rasterize.
  destruct (np_zeros_binary Hsize) as [-> Hz]. cbn [bindR].
  destruct (normalize_points_length_eq size Hne) as (norm & -> & _). cbn [bindR].
  apply foldR_inv with (P := binary_grid size); [|exact Hz].
  intros img i Hi Himg. apply in_range2 in Hi.
  now apply draw_segment_binary.
Qed.

(** C10.  [normalize_points] keeps the number of points exactly when the
    bounding box is not a single point; when it is (zero width and zero
    height) the result is the one-element list holding the canvas centre,
    whatever the length of the input, and rasterizing such an input draws no
    segment: the loop over [range(1, len(norm))] is empty and the image stays
    all zero. *)
Theorem normalize_points_length (L : Libm) (points : polyline) (size : Z)
    (stroke_width : Q) :
  points <> [] ->
  exists out, normalize_points points size = Ok out /\
    (~ (bbox_w points == 0 /\ bbox_h points == 0) ->
     length out = length points) /\
    (bbox_w points == 0 /\ bbox_h points == 0 ->
     out = [(inject_Z size / 2, inject_Z size / 2)]
     /\ range2 1 (len out) = []
     /\ ((0 <= size)%Z ->
         rasterize L points size stroke_width
         = Ok (repeat (repeat 0 (Z.to_nat size)) (Z.to_nat size)))).
Proof.
  intros Hne.
  destruct (normalize_points_length_eq size Hne) as (out & E & Hnd & Hd).
  exists out. split; [exact E|]. split.
  - intros H. rewrite (Hnd H). apply length_map.
  - intros H. rewrite (Hd H). repeat split.
    intros Hsize. now apply rasterize_degenerate.
Qed.

Lemma normalize_points_length_witness :
  five_dots <> [] /\
  exists out, normalize_points five_dots 48 = Ok out /\
    (~ (bbox_w five_dots == 0 /\ bbox_h five_dots == 0) ->
     length out = length five_dots) /\
    (bbox_w five_dots == 0 /\ bbox_h five_dots == 0 ->
     out = [(inject_Z 48 / 2, inject_Z 48 / 2)]
     /\ range2 1 (len out) = []
     /\ ((0 <= 48)%Z ->
         rasterize approx_libm five_dots 48 (3 # 2)
         = Ok (repeat (repeat 0 (Z.to_nat 48)) (Z.to_nat 48)))).
Proof.
  assert (H1 : five_dots <> []) by discriminate.
  exact (conj H1 (@normalize_points_length approx_libm five_dots 48 (3 # 2) H1)).
Defined.

(** C7 (the code departs from the claim).  Three identical points on a 48
    pixel canvas: [normalize_points] maps them to the single centre point,
    [rasterize] then has no segment to walk, and the image it returns has no
    nonzero pixel at all, where the specification expects a dot at the
    centre. *)
Theorem rasterize_identical_points_blank (L : Libm) :
  exists img,
    rasterize L [(5, 5); (5, 5); (5, 5)] 48 STROKE_WIDTH = Ok img
    /\ length img = 48%nat
    /\ Forall (fun row => length row = 48%nat /\ Forall (fun v => v = 0) row) img.
Proof.
  eexists. split; [|split].
  - apply rasterize_degenerate; [discriminate | split; reflexivity | lia].
  - apply repeat_length.
  - apply Forall_forall. intros row Hrow. apply repeat_spec in Hrow. subst row.
    split; [apply repeat_length|].
    apply Forall_forall. intros v Hv. now apply repeat_spec in Hv.
Qed.

(** C5, as the code has it.  For a non-empty polyline and a canvas size that
    is not negative, [normalize_points] returns; a bounding box reduced to a
    point gives the single centre point; otherwise every output point lies in
    [[0, size] x [0, size]] and the larger side of the output's bounding box
    is [size - 2 * padding] times [max(w, h) / max(w, h, 1e-8)]: it equals
    [size - 2 * padding] when the input's larger side is at least [1e-8]
    (below that the scale is capped by the epsilon in the divisor). *)
Theorem normalize_points_bounds (points : polyline) (size : Z) :
  points <> [] -> (0 <= size)%Z ->
  exists out, normalize_points points size = Ok out /\
    (bbox_w points == 0 /\ bbox_h points == 0 ->
     out = [(inject_Z size / 2, inject_Z size / 2)]) /\
    (~ (bbox_w points == 0 /\ bbox_h points == 0) ->
     Forall (fun p => 0 <= fst p <= inject_Z size
                      /\ 0 <= snd p <= inject_Z size) out
     /\ Qmax (bbox_w out) (bbox_h out)
        == (inject_Z size - 2 * (inject_Z size * (1 # 10)))
           * (Qmax (bbox_w points) (bbox_h points)
              / py_max_from (bbox_w points) [bbox_h points; epsilon])
     /\ (epsilon <= Qmax (bbox_w points) (bbox_h points) ->
         Qmax (bbox_w out) (bbox_h out)
         == inject_Z size - 2 * (inject_Z size * (1 # 10)))).
Proof.
  intros Hne Hsize.
  destruct (normalize_points_length_eq size Hne) as (out & E & Hnd & Hd).
  exists out. split; [exact E|]. split; [exact Hd|].
  intros Hnz. rewrite (Hnd Hnz). clear E Hnd Hd out.
  assert (Hx : map fst points <> []) by (destruct points; [congruence|discriminate]).
  assert (Hy : map snd points <> []) by (destruct points; [congruence|discriminate]).
  destruct (bbox_nonneg Hne) as [Hw Hh].
  destruct (bbox_norm_map Hne Hsize) as (Ew & Eh & Hs).
  pose proof (norm_divisor_pos (bbox_w points) (bbox_h points)) as Hm.
  destruct (py_max_from_spec [bbox_h points; epsilon] (bbox_w points))
    as (Hin & Hwm & Hall).
  assert (Hhm : bbox_h points <= py_max_from (bbox_w points) [bbox_h points; epsilon])
    by (inversion Hall; assumption).
  assert (Hmpos : 0 < py_max_from (bbox_w points) [bbox_h points; epsilon])
    by (eapply Qlt_le_trans; [|exact Hm]; reflexivity).
  assert (HS : 0 <= inject_Z size)
    by (change 0 with (inject_Z 0); rewrite <- Zle_Qle; exact Hsize).
  pose proof (norm_scale_mult points size) as Hsm.
  assert (Emax : Qmax (bbox_w (map (norm_map points size) points))
                      (bbox_h (map (norm_map points size) points))
                 == Qmax (bbox_w points) (bbox_h points) * norm_scale points size).
  { rewrite Ew, Eh. now apply Qmax_scale. }
  split; [|split].
  - apply Forall_forall. intros q Hq. apply in_map_iff in Hq.
    destruct Hq as ([x y] & <- & Hp). unfold norm_map; cbn [fst snd].
    destruct (min_of_spec Hx) as [_ Hminx]. destruct (max_of_spec Hx) as [_ Hmaxx].
    destruct (min_of_spec Hy) as [_ Hminy]. destruct (max_of_spec Hy) as [_ Hmaxy].
    rewrite Forall_forall in Hminx, Hmaxx, Hminy, Hmaxy.
    assert (Hix : In x (map fst points)) by (apply (in_map fst) in Hp; exact Hp).
    assert (Hiy : In y (map snd points)) by (apply (in_map snd) in Hp; exact Hp).
    pose proof (Hminx _ Hix). pose proof (Hmaxx _ Hix).
    pose proof (Hminy _ Hiy). pose proof (Hmaxy _ Hiy).
    destruct (@scaled_coord_bounds (inject_Z size) (norm_scale points size)
                (py_max_from (bbox_w points) [bbox_h points; epsilon])
                (bbox_w points) (x - min_of (map fst points)))
      as (_ & Hlx & Hux); try assumption; try (split; assumption).
    { unfold bbox_w. split; lra. }
    destruct (@scaled_coord_bounds (inject_Z size) (norm_scale points size)
                (py_max_from (bbox_w points) [bbox_h points; epsilon])
                (bbox_h points) (y - min_of (map snd points)))
      as (_ & Hly & Huy); try assumption; try (split; assumption).
    { unfold bbox_h. split; lra. }
    repeat split; lra.
  - rewrite Emax. unfold norm_scale. field.
    intros E0. rewrite E0 in Hmpos. revert Hmpos. apply Qlt_irrefl.
  - intros Heps. rewrite Emax.
    assert (Em : py_max_from (bbox_w points) [bbox_h points; epsilon]
                 == Qmax (bbox_w points) (bbox_h points)).
    { apply Qle_antisym.
      - destruct Hin as [<-|[<-|[<-|[]]]];
          [apply Q.le_max_l | apply Q.le_max_r | exact Heps].
      - apply Q.max_lub; assumption. }
    rewrite <- Em. rewrite Qmult_comm. exact Hsm.
Qed.

(** C5 fails as stated: the bounding box of [tiny_box] is 1e-9 wide, not
    degenerate, yet the normalized polyline on a 48 pixel canvas is 3.84 wide
    and not [48 - 2 * 4.8 = 38.4]. *)
Lemma normalize_points_tiny_box :
  tiny_box <> [] /\
  ~ (bbox_w tiny_box == 0 /\ bbox_h tiny_box == 0) /\
  exists out, normalize_points tiny_box 48 = Ok out /\
    Qmax (bbox_w out) (bbox_h out) == 384 # 100 /\
    ~ Qmax (bbox_w out) (bbox_h out)
      == inject_Z 48 - 2 * (inject_Z 48 * (1 # 10)).
Proof.
  split; [discriminate|]. split.
  - intros [H _]. vm_compute in H. discriminate.
  - eexists. split; [vm_compute; reflexivity|]. split.
    + vm_compute. reflexivity.
    + intros H. vm_compute in H. discriminate.
Qed.

Lemma normalize_points_bounds_witness :
  straight_line <> [] /\ (0 <= 4)%Z /\
  exists out, normalize_points straight_line 4 = Ok out /\
    (bbox_w straight_line == 0 /\ bbox_h straight_line == 0 ->
     out = [(inject_Z 4 / 2, inject_Z 4 / 2)]) /\
    (~ (bbox_w straight_line == 0 /\ bbox_h straight_line == 0) ->
     Forall (fun p => 0 <= fst p <= inject_Z 4
                      /\ 0 <= snd p <= inject_Z 4) out
     /\ Qmax (bbox_w out) (bbox_h out)
        == (inject_Z 4 - 2 * (inject_Z 4 * (1 # 10)))
           * (Qmax (bbox_w straight_line) (bbox_h straight_line)
              / py_max_from (bbox_w straight_line) [bbox_h straight_line; epsilon])
     /\ (epsilon <= Qmax (bbox_w straight_line) (bbox_h straight_line) ->
         Qmax (bbox_w out) (bbox_h out)
         == inject_Z 4 - 2 * (inject_Z 4 * (1 # 10)))).
Proof.
  assert (H1 : straight_line <> []) by discriminate.
  assert (H2 : (0 <= 4)%Z) by lia.
  exact (conj H1 (conj H2 (@normalize_points_bounds straight_line 4 H1 H2))).
Defined.

(* ================================================================== *)
(** * Reasoning about stochastic code *)
(* ================================================================== *)

Section Ensures.

Context {R : RandomSource}.

Lemma ensures_ret {A : Type} (a : A) (P : A -> Prop) :
  P a -> ensures (R := R) (retP a) P.
Proof. intros H w. exists a, w. split; [reflexivity | exact H]. Qed.

Lemma ensures_bind {A B : Type} (m : Py R A) (k : A -> Py R B)
    (P : A -> Prop) (Q : B -> Prop) :
  ensures m P -> (forall a, P a -> ensures (k a) Q) -> ensures (bindP m k) Q.
Proof.
  intros Hm Hk w. destruct (Hm w) as (a & w1 & E & Ha).
  destruct (Hk a Ha w1) as (b & w2 & E' & Hb).
  exists b, w2. unfold bindP. rewrite E. split; assumption.
Qed.

Lemma ensures_weaken {A : Type} (m : Py R A) (P Q : A -> Prop) :
  ensures m P -> (forall a, P a -> Q a) -> ensures m Q.
Proof.
  intros Hm HPQ w. destruct (Hm w) as (a & w' & E & Ha).
  exists a, w'. split; [exact E | apply HPQ, Ha].
Qed.

Lemma ensures_lift {A : Type} (r : result A) (P : A -> Prop) :
  (exists a, r = Ok a /\ P a) -> ensures (R := R) (lift r) P.
Proof.
  intros (a & -> & Ha) w. exists a, w. split; [reflexivity | exact Ha].
Qed.

Lemma ensures_random :
  ensures (random_random R) (fun u => 0 <= u < 1).
Proof.
  intros w. unfold random_random.
  pose proof (random_range R (py_rng w)) as H.
  destruct (random R (py_rng w)) as [u s]. eexists _, _. split; [reflexivity|exact H].
Qed.

Lemma ensures_uniform (a b : Q) :
  a <= b -> ensures (random_uniform R a b) (fun v => a <= v <= b).
Proof.
  intros Hab. unfold random_uniform.
  eapply ensures_bind; [apply ensures_random|].
  intros u [Hu0 Hu1]. apply ensures_ret.
  assert (0 <= (b - a) * u) by (apply Qmult_le_0_compat; lra).
  assert ((b - a) * u <= (b - a) * 1)
    by (rewrite !(Qmult_comm (b - a)); apply Qmult_le_compat_r; lra).
  split; lra.
Qed.

Lemma ensures_uniform_any (a b : Q) :
  ensures (random_uniform R a b) (fun _ => True).
Proof.
  unfold random_uniform.
  eapply ensures_bind; [apply ensures_random|].
  intros u _. now apply ensures_ret.
Qed.

Lemma ensures_randint (a b : Z) :
  (a <= b)%Z -> ensures (random_randint R a b) (fun k => (a <= k <= b)%Z).
Proof.
  intros Hab w. unfold random_randint.
  destruct (Z.ltb_spec b a); [lia|].
  pose proof (@randbelow_range R (b - a + 1) (py_rng w)) as H1.
  destruct (randbelow R (b - a + 1) (py_rng w)) as [k s]. cbn [fst] in H1.
  eexists _, _. split; [reflexivity|]. lia.
Qed.

Lemma ensures_gauss (mu sigma : Q) :
  ensures (random_gauss R mu sigma) (fun _ => True).
Proof.
  intros w. unfold random_gauss.
  destruct (gauss R mu sigma (py_rng w)) as [g s]. eexists _, _. split; [reflexivity|exact I].
Qed.

Lemma ensures_randn (n : Z) :
  ensures (np_random_randn R n) (fun v => length v = Z.to_nat n).
Proof.
  intros w. unfold np_random_randn.
  pose proof (randn_length R n (np_rng w)) as H.
  destruct (randn R n (np_rng w)) as [v s]. eexists _, _. split; [reflexivity|exact H].
Qed.

(** A comprehension over draws: every item evaluates, and the results are
    related to the items one by one. *)
Lemma ensures_mapP {A B : Type} (Q : A -> B -> Prop) (f : A -> Py R B)
    (l : list A) :
  (forall x, In x l -> ensures (f x) (Q x)) ->
  ensures (mapP f l) (Forall2 Q l).
Proof.
  induction l as [|x l IH]; intros Hf; cbn [mapP].
  - apply ensures_ret. constructor.
  - eapply ensures_bind; [apply Hf; now left|]. intros y Hy.
    eapply ensures_bind; [apply IH; intros z Hz; apply Hf; now right|].
    intros ys Hys. apply ensures_ret. now constructor.
Qed.

(** A loop over draws keeps an invariant. *)
Lemma ensures_foldP {A B : Type} (P : A -> Prop) (f : A -> B -> Py R A)
    (l : list B) :
  (forall a x, In x l -> P a -> ensures (f a x) P) ->
  forall a, P a -> ensures (foldP f l a) P.
Proof.
  induction l as [|x l IH]; intros Hf a Ha; cbn [foldP].
  - now apply ensures_ret.
  - eapply ensures_bind; [apply Hf; [now left | exact Ha]|].
    intros a1 Ha1. apply IH; [|exact Ha1].
    intros a2 y Hy. apply Hf. now right.
Qed.

End Ensures.

(** One statement of a [do]-block: the draw or call [lem] speaks for, then
    the rest under its postcondition. *)
Tactic Notation "step" uconstr(lem) :=
  eapply ensures_bind; [eapply lem | cbv beta].
Ltac step_any := first
  [ step ensures_random | step ensures_uniform_any | step ensures_gauss ].

(** [lia] after the names [point] and [polyline] are unfolded, so that a
    length is one term however the list's type is written. *)
Ltac plia := unfold polyline, point in *; lia.

Lemma len_nonneg {A : Type} (l : list A) : (0 <= len l)%Z.
Proof. unfold len. lia. Qed.

Lemma getitem_ok_signed {A : Type} (l : list A) (i : Z) :
  (- len l <= i < len l)%Z -> exists a, getitem l i = Ok a /\ In a l.
Proof.
  intros H. destruct (Z.ltb_spec i 0) as [Hneg|Hpos].
  - unfold getitem. cbv zeta.
    replace (i <? 0)%Z with true by (symmetry; apply Z.ltb_lt; lia).
    replace (len l + i <? 0)%Z with false by (symmetry; apply Z.ltb_ge; lia).
    destruct (nth_error l (Z.to_nat (len l + i))) eqn:E.
    + exists a. split; [reflexivity|]. eapply nth_error_In; eauto.
    + apply nth_error_None in E. unfold len in *. lia.
  - apply getitem_ok. lia.
Qed.

Lemma Forall2_length_eq {A B : Type} (Q : A -> B -> Prop) (l : list A)
    (l' : list B) : Forall2 Q l l' -> length l' = length l.
Proof. intros H. symmetry. eapply Forall2_length; eauto. Qed.

Lemma length_enumerate {A : Type} (l : list A) :
  length (enumerate l) = length l.
Proof.
  unfold enumerate. rewrite length_combine, length_range. unfold len. lia.
Qed.

Lemma in_enumerate {A : Type} (l : list A) (i : Z) (x : A) :
  In (i, x) (enumerate l) -> (0 <= i < len l)%Z /\ In x l.
Proof.
  unfold enumerate. intros H. split.
  - apply in_combine_l in H. now apply in_range in H.
  - now apply in_combine_r in H.
Qed.

(* ================================================================== *)
(** * The geometry helpers return *)
(* ================================================================== *)

Lemma lerp_points_ok (p1 p2 : point) (n : Z) :
  exists pts, lerp_points p1 p2 n = Ok pts /\ length pts = Z.to_nat n.
Proof.
  unfold lerp_points.
  destruct (@mapR_inv _ _ (fun _ _ => True)
              (fun i => (t <- int_truediv i (Z.max (n - 1) 1) ;;
                         Ok (fst p1 + t * (fst p2 - fst p1),
                             snd p1 + t * (snd p2 - snd p1)))%res)
              (range n)) as (pts & E & H).
  - intros i _. rewrite int_truediv_ok by lia. cbn [bindR]. eauto.
  - exists pts. split; [exact E|].
    etransitivity; [exact (Forall2_length_eq H) | apply length_range].
Qed.

Lemma edge_lengths_ok (L : Libm) (edges : list (point * point)) :
  exists ls, mapR (edge_length L) edges = Ok ls /\ length ls = length edges.
Proof.
  destruct (@mapR_inv _ _ (fun _ _ => True) (edge_length L) edges)
    as (ls & E & H).
  - intros [a b] _. unfold edge_length.
    rewrite math_sqrt_ok by apply sum_squares_nonneg. eauto.
  - exists ls. split; [exact E | exact (Forall2_length_eq H)].
Qed.

Lemma extend_edges_ok (n : Z) (total_len : Q) (l : list (point * point * Q)) :
  ~ total_len == 0 ->
  forall acc, exists pts,
    foldR (extend_edge n total_len) l acc = Ok pts
    /\ (length acc + 2 * length l <= length pts)%nat.
Proof.
  intros Hlen. induction l as [|[[a b] elen] l IH]; intros acc; cbn [foldR].
  - exists acc. split; [reflexivity | simpl; lia].
  - unfold extend_edge at 1. rewrite float_div_ok by exact Hlen. cbn [bindR].
    destruct (lerp_points_ok a b
                (Z.max 2 (py_round (inject_Z n * elen / total_len))))
      as (seg & -> & Hseg).
    cbn [bindR]. destruct (IH (acc ++ seg)) as (pts & -> & Hpts).
    exists pts. split; [reflexivity|].
    rewrite length_app in Hpts. cbn [length]. lia.
Qed.

(** [interpolate_along_edges] returns on every non-empty vertex list; it
    gives at most [total_points] points, and at least two per edge unless
    the cut to [total_points] leaves fewer. *)
Lemma interpolate_along_edges_ok (L : Libm) (vertices : polyline) (n : Z) :
  vertices <> [] -> (0 <= n)%Z ->
  exists pts, interpolate_along_edges L vertices n = Ok pts
    /\ (Z.min n (2 * len (edges_of vertices)) <= len pts <= n)%Z.
Proof.
  intros Hne Hn. unfold interpolate_along_edges. cbv zeta.
  destruct (edge_lengths_ok L (edges_of vertices)) as (ls & -> & Hls).
  cbn [bindR]. destruct (Qeq_bool (py_sum ls) 0) eqn:E.
  - destruct vertices as [|v0 vs]; [congruence|].
    exists (replicate n v0). split; [reflexivity|].
    unfold replicate, len. rewrite repeat_length. lia.
  - assert (Hnz : ~ py_sum ls == 0)
      by (intros H; apply Qeq_bool_iff in H; congruence).
    destruct (extend_edges_ok n (combine (edges_of vertices) ls) Hnz [])
      as (pts & -> & Hpts).
    cbn [bindR]. eexists. split; [reflexivity|].
    unfold slice_to. destruct (Z.ltb_spec n 0); [lia|].
    unfold len. rewrite length_firstn.
    rewrite length_combine, Hls, Nat.min_id in Hpts. cbn [length] in Hpts. lia.
Qed.

Lemma Qltb_comp (x x' y y' : Q) : x == x' -> y == y' -> Qltb x y = Qltb x' y'.
Proof.
  intros Hx Hy. destruct (Qltb x' y') eqn:E.
  - apply Qltb_lt. apply Qltb_lt in E. now rewrite Hx, Hy.
  - apply Qltb_ge. apply Qltb_ge in E. now rewrite Hx, Hy.
Qed.

Lemma py_round_comp (x y : Q) : x == y -> py_round x = py_round y.
Proof.
  intros H. unfold py_round. rewrite (Qfloor_comp x y H).
  assert (E : x - inject_Z (Qfloor y) == y - inject_Z (Qfloor y))
    by now rewrite H.
  rewrite (Qltb_comp E (Qeq_refl (1 # 2))), (Qltb_comp (Qeq_refl (1 # 2)) E).
  reflexivity.
Qed.

(** C3 (the code departs from the claim).  Each of the three equal edges of
    [collinear4] gets [round(40 / 3) = 13] points, so asking for 40 points
    returns 39: the cut [points[:total_points]] removes a surplus and
    cannot make up a shortfall. *)
Theorem interpolate_along_edges_shortfall (L : Libm) :
  ~ sqrt L 1 == 0 ->
  exists pts, interpolate_along_edges L collinear4 40 = Ok pts
              /\ length pts = 39%nat.
Proof.
  intros Hnz. pose proof (sqrt_nonneg L 1) as Hpos.
  set (e := sqrt L 1) in *.
  assert (He : 0 < e) by (apply Qle_lt_or_eq in Hpos; destruct Hpos as [H|H];
                          [exact H | symmetry in H; contradiction]).
  assert (E1 : mapR (edge_length L) (edges_of collinear4) = Ok [e; e; e])
    by reflexivity.
  unfold interpolate_along_edges. cbv zeta. rewrite E1. cbn [bindR].
  assert (Hsum : py_sum [e; e; e] == 3 * e) by (unfold py_sum; cbn [fold_left]; ring).
  assert (Hnz' : ~ py_sum [e; e; e] == 0) by (rewrite Hsum; lra).
  rewrite (Qeq_bool_false Hnz').
  assert (Hround : py_round (inject_Z 40 * e / py_sum [e; e; e]) = 13%Z).
  { rewrite (@py_round_comp _ (40 # 3)); [reflexivity|].
    rewrite Hsum. change (inject_Z 40) with 40. field. lra. }
  assert (Hedge : forall acc a b, exists seg,
             extend_edge 40 (py_sum [e; e; e]) acc (a, b, e) = Ok (acc ++ seg)
             /\ length seg = 13%nat).
  { intros acc a b. unfold extend_edge. rewrite float_div_ok by exact Hnz'.
    cbn [bindR]. rewrite Hround.
    destruct (lerp_points_ok a b (Z.max 2 13)) as (seg & -> & Hseg).
    exists seg. split; [reflexivity | exact Hseg]. }
  cbn [collinear4 edges_of combine foldR].
  destruct (Hedge [] (0, 0) (1, 0)) as (s1 & -> & H1). cbn [bindR].
  destruct (Hedge ([] ++ s1) (1, 0) (2, 0)) as (s2 & -> & H2). cbn [bindR].
  destruct (Hedge (([] ++ s1) ++ s2) (2, 0) (3, 0)) as (s3 & -> & H3).
  cbn [bindR]. eexists. split; [reflexivity|].
  unfold slice_to. cbn [Z.ltb Z.compare]. rewrite length_firstn, !length_app.
  cbn [length]. rewrite H1, H2, H3. reflexivity.
Qed.

Lemma interpolate_along_edges_shortfall_witness :
  ~ sqrt approx_libm 1 == 0 /\
  exists pts, interpolate_along_edges approx_libm collinear4 40 = Ok pts
              /\ length pts = 39%nat.
Proof.
  assert (H : ~ sqrt approx_libm 1 == 0) by (intros E; vm_compute in E; discriminate).
  exact (conj H (@interpolate_along_edges_shortfall approx_libm H)).
Defined.

(* ================================================================== *)
(** * The augmentation stages return, and the lengths they give *)
(* ================================================================== *)

Section Wobble.

Variable L : Libm.
Variable R : RandomSource.

Lemma ensures_lift_ok {A : Type} (r : result A) (a : A) :
  r = Ok a -> ensures (R := R) (lift r) (fun x => x = a).
Proof. intros H. apply ensures_lift. exists a. now split. Qed.

Lemma mag_nonzero (x : Q) : ~ sqrt L x + epsilon == 0.
Proof.
  pose proof (sqrt_nonneg L x) as H. unfold epsilon. intros E.
  assert (0 < sqrt L x + (1 # 100000000)) by lra. lra.
Qed.

Lemma add_hand_wobble_ok (points : polyline) (intensity : Q) :
  ensures (add_hand_wobble L R points intensity)
          (fun out => length out = length points).
Proof.
  unfold add_hand_wobble. cbv zeta.
  destruct (Z.ltb_spec (len points) 2) as [Hn|Hn]; [now apply ensures_ret|].
  step_any; intros freq1 _. step_any; intros freq2 _.
  step_any; intros phase1 _. step_any; intros phase2 _.
  eapply ensures_weaken.
  - apply ensures_mapP with (Q := fun _ _ => True).
    intros [i [x y]] Hin. apply in_enumerate in Hin. destruct Hin as [Hi _].
    cbv beta iota.
    step ensures_lift_ok; [apply int_truediv_ok; lia|]. intros t _.
    eapply ensures_bind with (P := fun _ => True).
    { apply ensures_lift.
      destruct (Z.eqb_spec i 0) as [E0|E0];
        [|destruct (Z.eqb_spec i (len points - 1)) as [E1|E1]].
      - destruct (@getitem_ok_signed _ points 1) as (p1 & -> & _); [plia|].
        destruct (@getitem_ok_signed _ points 0) as (p0 & -> & _); [plia|].
        cbn [bindR]. eauto.
      - destruct (@getitem_ok_signed _ points (-1)) as (p1 & -> & _); [plia|].
        destruct (@getitem_ok_signed _ points (-2)) as (p0 & -> & _); [plia|].
        cbn [bindR]. eauto.
      - destruct (@getitem_ok_signed _ points (i + 1)) as (p1 & -> & _); [plia|].
        destruct (@getitem_ok_signed _ points (i - 1)) as (p0 & -> & _); [plia|].
        cbn [bindR]. eauto. }
    intros [dx dy] _.
    step ensures_lift_ok; [apply math_sqrt_ok, sum_squares_nonneg|]. intros d ->.
    step ensures_lift_ok; [apply float_div_ok, mag_nonzero|]. intros nx _.
    step ensures_lift_ok; [apply float_div_ok, mag_nonzero|]. intros ny _.
    step ensures_gauss. intros g _. now apply ensures_ret.
  - intros out H. rewrite (Forall2_length_eq H). apply length_enumerate.
Qed.

Lemma to_int_len_ratio (n : Z) (r : Q) :
  (0 <= n)%Z -> 0 <= r <= 1 -> (0 <= to_int (inject_Z n * r) <= n)%Z.
Proof.
  intros Hn [Hr0 Hr1].
  assert (H0 : 0 <= inject_Z n)
    by (change 0 with (inject_Z 0); now rewrite <- Zle_Qle).
  assert (H1 : 0 <= inject_Z n * r) by (apply Qmult_le_0_compat; assumption).
  assert (H2 : inject_Z n * r <= inject_Z n).
  { setoid_replace (inject_Z n) with (inject_Z n * 1) at 2 by ring.
    rewrite !(Qmult_comm (inject_Z n)). now apply Qmult_le_compat_r. }
  unfold to_int. rewrite (proj2 (Qltb_ge _ _) H1). split.
  - apply Z.le_trans with (Qfloor (inject_Z 0));
      [rewrite Qfloor_Z; lia | apply Qfloor_resp_le; exact H1].
  - apply Z.le_trans with (Qfloor (inject_Z n));
      [apply Qfloor_resp_le; exact H2 | rewrite Qfloor_Z; lia].
Qed.

Lemma firstn_prefix {A : Type} (k : nat) (l : list A) :
  exists rest, l = firstn k l ++ rest.
Proof. exists (skipn k l). symmetry. apply firstn_skipn. Qed.

End Wobble.

(** C8.  [simulate_incomplete_shape] returns its input unchanged on an open
    shape, without drawing.  On a closed shape it draws [u]: when [u > 0.4]
    (six draws in ten of a uniform [u]) the input is returned unchanged;
    otherwise a ratio [r] in [[0.80, 0.95]] is drawn and the result is the
    prefix [points[:max(3, int(len(points) * r))]], which has exactly
    [max(3, floor(len * r))] points when the input has at least three and is
    the whole input otherwise.  In every case the result is a prefix of the
    input and keeps at least [min(3, len(points))] points. *)
Theorem simulate_incomplete_shape_prefix (R : RandomSource)
    (points : polyline) (is_closed : bool) (w : world R) :
  exists out w',
    simulate_incomplete_shape R points is_closed w = Ok (out, w') /\
    (is_closed = false -> out = points /\ w' = w) /\
    (is_closed = true ->
     (0.4 < fst (random R (py_rng w)) -> out = points) /\
     (fst (random R (py_rng w)) <= 0.4 ->
      exists r, 0.80 <= r <= 0.95 /\
        out = firstn (Z.to_nat (Z.max 3 (to_int (inject_Z (len points) * r))))
                     points /\
        ((3 <= len points)%Z ->
         len out = Z.max 3 (to_int (inject_Z (len points) * r))) /\
        ((len points < 3)%Z -> out = points))) /\
    (out = points \/
     exists r, 0.80 <= r <= 0.95 /\
       out = firstn (Z.to_nat (Z.max 3 (to_int (inject_Z (len points) * r))))
                    points /\
       len out = Z.max 3 (to_int (inject_Z (len points) * r))) /\
    (exists rest, points = out ++ rest) /\
    (Z.min 3 (len points) <= len out)%Z.
Proof.
  unfold simulate_incomplete_shape.
  destruct is_closed; cbn [negb].
  2:{ exists points, w. split; [reflexivity|].
      repeat split; try discriminate; auto.
      - exists []. now rewrite app_nil_r.
      - lia. }
  unfold bindP, random_uniform, bindP, random_random, retP.
  destruct (random R (py_rng w)) as [u s1] eqn:E1. cbn [fst py_rng np_rng].
  destruct (Qltb 0.4 u) eqn:Eu.
  - exists points, (World R s1 (np_rng w)). split; [reflexivity|].
    apply Qltb_lt in Eu.
    repeat split; try discriminate; auto.
    + intros Hle. exfalso. lra.
    + exists []. now rewrite app_nil_r.
    + lia.
  - apply Qltb_ge in Eu. cbn [py_rng np_rng].
    pose proof (random_range R s1) as Hu2.
    destruct (random R s1) as [u2 s2]. cbn [fst] in Hu2.
    set (r := 0.80 + (0.95 - 0.80) * u2).
    assert (Hr : 0.80 <= r <= 0.95).
    { unfold r. destruct Hu2 as [H0 H1].
      assert (0 <= (0.95 - 0.80) * u2) by (apply Qmult_le_0_compat; lra).
      assert ((0.95 - 0.80) * u2 <= (0.95 - 0.80) * 1)
        by (rewrite !(Qmult_comm (0.95 - 0.80)); apply Qmult_le_compat_r; lra).
      split; lra. }
    pose proof (@to_int_len_ratio (len points) r (len_nonneg points)) as Hk.
    destruct Hk as [Hk0 Hk1]; [split; lra|].
    set (k := Z.max 3 (to_int (inject_Z (len points) * r))) in *.
    assert (Hslice : slice_to points k = firstn (Z.to_nat k) points).
    { unfold slice_to. destruct (Z.ltb_spec k 0); [unfold k in *; lia|reflexivity]. }
    exists (slice_to points k), (World R s2 (np_rng w)).
    split; [reflexivity|]. rewrite Hslice.
    assert (Hlen : (3 <= len points)%Z -> len (firstn (Z.to_nat k) points) = k).
    { intros H3. unfold len in *. rewrite length_firstn. unfold k in *. lia. }
    assert (Hall : (len points < 3)%Z -> firstn (Z.to_nat k) points = points).
    { intros H3. apply firstn_all2. unfold len, k in *. lia. }
    split; [intros; discriminate|]. split; [|split; [|split]].
    + intros _. split; [intros Hgt; exfalso; lra|].
      intros _. exists r. repeat split; try apply Hr; auto.
    + destruct (Z.lt_ge_cases (len points) 3) as [H3|H3]; [left; auto|].
      right. exists r. repeat split; try apply Hr; auto.
    + apply firstn_prefix.
    + unfold len in *. rewrite length_firstn. unfold k in *. lia.
Qed.

Section Stages.

Variable L : Libm.
Variable R : RandomSource.

Lemma simulate_incomplete_shape_ok (points : polyline) (is_closed : bool) :
  ensures (simulate_incomplete_shape R points is_closed)
          (fun out => (Z.min 3 (len points) <= len out)%Z).
Proof.
  unfold simulate_incomplete_shape.
  destruct is_closed; cbn [negb]; [|apply ensures_ret; lia].
  step ensures_random. intros u _.
  destruct (Qltb 0.4 u); [apply ensures_ret; lia|].
  step ensures_uniform_any. intros ratio _. apply ensures_ret.
  unfold slice_to.
  destruct (Z.ltb_spec (Z.max 3 (to_int (inject_Z (len points) * ratio))) 0);
    [lia|].
  unfold len. rewrite length_firstn. lia.
Qed.

Lemma curvatures_ok (points : polyline) :
  exists inner,
    mapR (curvature_at L points) (range2 1 (len points - 1)) = Ok inner
    /\ length inner = Z.to_nat (len points - 2).
Proof.
  destruct (@mapR_inv _ _ (fun _ _ => True) (curvature_at L points)
              (range2 1 (len points - 1))) as (inner & E & H).
  - intros i Hi. apply in_range2 in Hi. unfold curvature_at.
    destruct (@getitem_ok _ points (i - 1)) as ([ax ay] & -> & _); [lia|].
    destruct (@getitem_ok _ points i) as ([bx b_y] & -> & _); [lia|].
    destruct (@getitem_ok _ points (i + 1)) as ([cx cy] & -> & _); [lia|].
    cbn [bindR]. eauto.
  - exists inner. split; [exact E|].
    etransitivity; [exact (Forall2_length_eq H)|].
    rewrite length_range2. f_equal. lia.
Qed.

Lemma simulate_stroke_speed_ok (points : polyline) :
  ensures (simulate_stroke_speed L R points)
          (fun out => out = points \/ (3 <= len out)%Z).
Proof.
  unfold simulate_stroke_speed.
  destruct (Z.ltb_spec (len points) 5) as [Hn|Hn];
    [apply ensures_ret; now left|].
  destruct (curvatures_ok points) as (inner & E & Hinner).
  step ensures_lift_ok; [exact E|]. intros ? ->. cbv zeta.
  destruct (@getitem_ok _ points 0) as (p0 & E0 & _); [lia|].
  step ensures_lift_ok; [exact E0|]. intros ? ->.
  eapply ensures_bind with (P := fun _ => True).
  - apply ensures_foldP; [|exact I].
    intros result i Hi _. apply in_range2 in Hi.
    destruct (@getitem_ok _ ([0] ++ inner ++ [0]) i) as (c & Ec & _).
    { unfold len in *. rewrite !length_app, Hinner. cbn [length]. lia. }
    step ensures_lift_ok; [exact Ec|]. intros ? ->. cbv zeta.
    step ensures_random. intros u _.
    destruct (Qltb u _); [|now apply ensures_ret].
    destruct (@getitem_ok _ points i) as (p & Ep & _); [lia|].
    step ensures_lift_ok; [exact Ep|]. intros ? ->. now apply ensures_ret.
  - intros result _.
    destruct (Z.ltb_spec (len result) 3); apply ensures_ret; [now left|now right].
Qed.

(** ** Convolution *)

Lemma length_add_padded (a b : list Q) :
  length (add_padded a b) = Nat.max (length a) (length b).
Proof.
  revert b. induction a as [|x a IH]; intros [|y b]; cbn [add_padded length];
    try reflexivity.
  now rewrite IH.
Qed.

Lemma length_conv_full (a v : list Q) :
  a <> [] -> length (conv_full a v) = (length a + length v - 1)%nat.
Proof.
  induction a as [|x a IH]; [congruence|]. intros _.
  destruct a as [|x' a].
  - cbn [conv_full length]. rewrite length_map. lia.
  - change (conv_full (x :: x' :: a) v)
      with (add_padded (map (Qmult x) v) (0 :: conv_full (x' :: a) v)).
    rewrite length_add_padded, length_map. cbn [length] in *.
    rewrite IH by discriminate. lia.
Qed.

Lemma np_convolve_same_ok (a v : list Q) :
  a <> [] -> v <> [] ->
  exists out, np_convolve_same a v = Ok out
              /\ length out = Nat.max (length a) (length v).
Proof.
  intros Ha Hv. unfold np_convolve_same.
  destruct a as [|x a]; [congruence|]. destruct v as [|y v]; [congruence|].
  set (a0 := x :: a) in *. set (v0 := y :: v) in *.
  assert (Hdiv : forall l : list Q, l <> [] ->
            (0 <= len l - 1 - len l / 2 /\ len l - 1 - len l / 2 <= len l / 2)%Z).
  { intros l Hl. assert (1 <= len l)%Z
      by (destruct l; [congruence | unfold len; cbn [length]; lia]).
    pose proof (Z.div_mod (len l) 2 ltac:(lia)).
    pose proof (Z.mod_pos_bound (len l) 2 ltac:(lia)). lia. }
  assert (Hhalf : forall l : list Q, (0 <= len l / 2)%Z)
    by (intros l; apply Z.div_pos; [apply len_nonneg | lia]).
  destruct (Z.ltb_spec (len a0) (len v0)) as [Hlt|Hge]; cbv zeta;
    eexists; (split; [reflexivity|]);
    rewrite length_firstn, length_skipn, length_conv_full by assumption.
  - pose proof (Hdiv a0 Ha). pose proof (Hhalf a0). unfold len in *. lia.
  - pose proof (Hdiv v0 Hv). pose proof (Hhalf v0). unfold len in *. lia.
Qed.

Lemma length_np_linspace (start stop : Q) (num : Z) :
  length (np_linspace start stop num) = Z.to_nat num.
Proof.
  unfold np_linspace. destruct (Z.eqb_spec num 1) as [->|_]; [reflexivity|].
  now rewrite length_map, length_range.
Qed.

Lemma fold_left_Qplus_pos (l : list Q) :
  Forall (fun v => 0 < v) l -> forall a, 0 < a -> 0 < fold_left Qplus l a.
Proof.
  induction 1 as [|x l Hx _ IH]; intros a Ha; cbn [fold_left]; [exact Ha|].
  apply IH. lra.
Qed.

Lemma py_sum_pos (l : list Q) :
  l <> [] -> Forall (fun v => 0 < v) l -> 0 < py_sum l.
Proof.
  intros Hne Hl. destruct l as [|x l]; [congruence|].
  inversion Hl; subst. unfold py_sum. cbn [fold_left].
  apply fold_left_Qplus_pos; [assumption | lra].
Qed.

Lemma nonempty_length {A : Type} (l : list A) :
  (0 < length l)%nat -> l <> [].
Proof. destruct l; cbn [length]; [lia | discriminate]. Qed.

Lemma elastic_deform_ok (points : polyline) (alpha sigma : Q) :
  ensures (elastic_deform L R points alpha sigma)
          (fun out => length out = length points).
Proof.
  unfold elastic_deform.
  destruct (Z.ltb_spec (len points) 2) as [Hn|Hn]; [now apply ensures_ret|].
  cbv zeta.
  step ensures_randn. intros rx Hrx. step ensures_randn. intros ry Hry.
  set (kernel_size := Z.max 3 (Z.lor (to_int (sigma * 2)) 1)).
  set (kernel := map (fun v => exp L (- 0.5 * (v * v)))
                     (np_linspace (-2) 2 kernel_size)).
  assert (Hklen : length kernel = Z.to_nat kernel_size)
    by (unfold kernel; now rewrite length_map, length_np_linspace).
  assert (Hkne : kernel <> [])
    by (apply nonempty_length; rewrite Hklen; unfold kernel_size; lia).
  assert (Hkpos : Forall (fun v => 0 < v) kernel).
  { unfold kernel. apply Forall_forall. intros v Hv.
    apply in_map_iff in Hv. destruct Hv as (z & <- & _). apply exp_pos. }
  assert (Hsum : ~ py_sum kernel == 0)
    by (pose proof (py_sum_pos Hkne Hkpos); lra).
  step ensures_lift_ok;
    [unfold np_divide; rewrite (Qeq_bool_false Hsum); reflexivity|].
  intros ? ->.
  set (kernel' := map (fun v => v / py_sum kernel) kernel).
  assert (Hkne' : kernel' <> [])
    by (apply nonempty_length; unfold kernel'; rewrite length_map, Hklen;
        unfold kernel_size; lia).
  assert (Hfield : forall r : list Q, length r = Z.to_nat (len points) ->
            exists out, np_convolve_same (map (fun v => v * alpha) r) kernel' = Ok out
                        /\ (len points <= len out)%Z).
  { intros r Hr.
    destruct (@np_convolve_same_ok (map (fun v => v * alpha) r) kernel')
      as (out & E & Hout); [|exact Hkne'|].
    - apply nonempty_length. rewrite length_map, Hr. lia.
    - exists out. split; [exact E|]. unfold len in *.
      rewrite Hout, length_map, Hr. lia. }
  destruct (Hfield rx Hrx) as (fx & Ex & Hfx).
  destruct (Hfield ry Hry) as (fy & Ey & Hfy).
  step ensures_lift_ok; [exact Ex|]. intros ? ->.
  step ensures_lift_ok; [exact Ey|]. intros ? ->.
  eapply ensures_weaken.
  - apply ensures_mapP with (Q := fun _ _ => True).
    intros [i [x y]] Hin. apply in_enumerate in Hin. destruct Hin as [Hi _].
    cbv beta iota.
    destruct (@getitem_ok _ fx i) as (ddx & Edx & _); [plia|].
    destruct (@getitem_ok _ fy i) as (ddy & Edy & _); [plia|].
    step ensures_lift_ok; [exact Edx|]. intros ? ->.
    step ensures_lift_ok; [exact Edy|]. intros ? ->.
    now apply ensures_ret.
  - intros out H. rewrite (Forall2_length_eq H). apply length_enumerate.
Qed.

Lemma mean_ok (l : list Q) :
  l <> [] -> mean l = Ok (py_sum l / inject_Z (len l)).
Proof.
  intros H. unfold mean. destruct (Z.eqb_spec (len l) 0) as [E|E]; [|reflexivity].
  destruct l; [congruence|]. unfold len in E. cbn [length] in E. lia.
Qed.

Lemma rotate_ok (points : polyline) (angle : Q) :
  points <> [] ->
  exists out, rotate L points angle = Ok out /\ length out = length points.
Proof.
  intros Hne. unfold rotate.
  rewrite !mean_ok by (destruct points; [congruence|discriminate]).
  cbn [bindR]. eexists. split; [reflexivity | apply length_map].
Qed.

Lemma scale_ok (points : polyline) (factor : Q) :
  points <> [] ->
  exists out, scale points factor = Ok out /\ length out = length points.
Proof.
  intros Hne. unfold scale.
  rewrite !mean_ok by (destruct points; [congruence|discriminate]).
  cbn [bindR]. eexists. split; [reflexivity | apply length_map].
Qed.

Lemma length_translate (points : polyline) (dx dy : Q) :
  length (translate points dx dy) = length points.
Proof. apply length_map. Qed.

Lemma add_noise_ok (points : polyline) (std : Q) :
  ensures (add_noise R points std) (fun out => length out = length points).
Proof.
  unfold add_noise. eapply ensures_weaken.
  - apply ensures_mapP with (Q := fun _ _ => True).
    intros [x y] _. step ensures_gauss. intros gx _.
    step ensures_gauss. intros gy _. now apply ensures_ret.
  - intros out H. exact (Forall2_length_eq H).
Qed.

Lemma rotation_range_ok (shape_name : String.string) :
  In shape_name SHAPE_NAMES ->
  exists range, dict_get ROTATION_RANGES shape_name = Ok range.
Proof.
  unfold SHAPE_NAMES. cbn [In].
  intros H. repeat (destruct H as [<-|H]; [eexists; reflexivity|]).
  destruct H.
Qed.

Lemma three_nonempty {A : Type} (l : list A) : (3 <= length l)%nat -> l <> [].
Proof. intros H. apply nonempty_length. lia. Qed.

(** The whole pipeline returns, on a polyline of three points or more and a
    shape name of the script, a polyline of three points or more. *)
Lemma augment_ok (points : polyline) (shape_name : String.string) :
  In shape_name SHAPE_NAMES -> (3 <= length points)%nat ->
  ensures (augment L R points shape_name)
          (fun out => (3 <= length out)%nat).
Proof.
  intros Hname H3. unfold augment. cbv zeta.
  destruct (rotation_range_ok Hname) as ([rot_min rot_max] & E).
  step ensures_lift_ok; [exact E|]. intros ? ->.
  step ensures_uniform_any. intros intensity _.
  step add_hand_wobble_ok. intros p1 H1.
  step simulate_incomplete_shape_ok. intros p2 H2.
  assert (H2' : (3 <= length p2)%nat) by (unfold len in H2; lia).
  step ensures_random. intros u _.
  eapply ensures_bind with (P := fun p => (3 <= length p)%nat).
  { destruct (Qltb u 0.5); [|now apply ensures_ret].
    eapply ensures_weaken; [apply simulate_stroke_speed_ok|].
    intros p [->|H]; [exact H2' | unfold len in H; lia]. }
  intros p3 Hp3.
  step ensures_random. intros v _.
  eapply ensures_bind with (P := fun p => (3 <= length p)%nat).
  { destruct (Qltb v 0.6); [|now apply ensures_ret].
    step ensures_uniform_any. intros alpha _.
    eapply ensures_weaken; [apply elastic_deform_ok|].
    intros p Hp. cbv beta in Hp. lia. }
  intros p4 Hp4.
  step ensures_uniform_any. intros angle_deg _.
  destruct (@rotate_ok p4 (radians L angle_deg) (three_nonempty Hp4))
    as (p5 & E5 & Hp5).
  step ensures_lift_ok; [exact E5|]. intros ? ->.
  step ensures_uniform_any. intros scale_factor _.
  assert (H5 : (3 <= length p5)%nat) by lia.
  destruct (@scale_ok p5 scale_factor (three_nonempty H5)) as (p6 & E6 & Hp6).
  step ensures_lift_ok; [exact E6|]. intros ? ->.
  step ensures_uniform_any. intros tx _.
  step ensures_uniform_any. intros ty _.
  step ensures_uniform_any. intros noise_std _.
  eapply ensures_weaken; [apply add_noise_ok|].
  intros out Hout. cbv beta in Hout. rewrite Hout, length_translate. lia.
Qed.

(* ================================================================== *)
(** * The shape generators return at least three points *)
(* ================================================================== *)

Lemma length_edges_of (vertices : polyline) :
  length (edges_of vertices) = (length vertices - 1)%nat.
Proof.
  destruct vertices as [|a l]; [reflexivity|].
  replace (length (a :: l) - 1)%nat with (length l) by (cbn [length]; lia).
  revert a.
  induction l as [|b l IH]; intros a; [reflexivity|].
  change (edges_of (a :: b :: l)) with ((a, b) :: edges_of (b :: l)).
  cbn [length]. now rewrite IH.
Qed.

Lemma interpolate_along_edges_three (vertices : polyline) (n : Z) :
  (3 <= length vertices)%nat -> (3 <= n)%Z ->
  exists pts, interpolate_along_edges L vertices n = Ok pts
              /\ (3 <= length pts)%nat.
Proof.
  intros Hv Hn.
  destruct (@interpolate_along_edges_ok L vertices n) as (pts & E & Hlo & _);
    [now apply three_nonempty | lia |].
  exists pts. split; [exact E|].
  unfold len in Hlo. rewrite length_edges_of in Hlo. lia.
Qed.

Lemma length_insert_sorted (x : Q) (l : list Q) :
  length (insert_sorted x l) = S (length l).
Proof.
  induction l as [|y l IH]; cbn [insert_sorted length]; [reflexivity|].
  destruct (Qltb x y); cbn [length]; [reflexivity | now rewrite IH].
Qed.

Lemma length_py_sorted (l : list Q) : length (py_sorted l) = length l.
Proof.
  unfold py_sorted.
  assert (H : forall acc, length (fold_left (fun acc x => insert_sorted x acc) l acc)
                          = (length acc + length l)%nat).
  { induction l as [|x l IH]; intros acc; cbn [fold_left length]; [lia|].
    rewrite IH, length_insert_sorted. lia. }
  now rewrite H.
Qed.

Lemma uniform_list_ok (a b : Q) (n : Z) :
  ensures (mapP (fun _ : Z => random_uniform R a b) (range n))
          (fun l => length l = Z.to_nat n).
Proof.
  eapply ensures_weaken.
  - apply ensures_mapP with (Q := fun _ _ => True).
    intros i _. apply ensures_uniform_any.
  - intros l H. etransitivity; [exact (Forall2_length_eq H) | apply length_range].
Qed.

Lemma generate_circle_ok :
  ensures (generate_circle L R) (fun out => (3 <= length out)%nat).
Proof.
  unfold generate_circle. cbv zeta.
  step ensures_random. intros u _.
  step ensures_uniform; [lra|]. intros eccentricity Hecc.
  step ensures_randint; [lia|]. intros num_points Hnum.
  step ensures_uniform_any. intros start_angle _.
  eapply ensures_weaken.
  - apply ensures_mapP with (Q := fun _ _ => True).
    intros i _.
    step ensures_lift_ok; [apply int_truediv_ok; lia|]. intros q _.
    step ensures_uniform_any. intros j _.
    step ensures_lift_ok; [apply float_div_ok; lra|]. intros ry _.
    now apply ensures_ret.
  - intros out H. rewrite (Forall2_length_eq H), length_range. lia.
Qed.

Lemma four_items (l : list Q) :
  length l = Z.to_nat 4 ->
  exists a b c d, getitem l 0 = Ok a /\ getitem l 1 = Ok b
                  /\ getitem l 2 = Ok c /\ getitem l 3 = Ok d.
Proof.
  intros H. destruct l as [|a [|b [|c [|d [|e l]]]]]; try discriminate.
  exists a, b, c, d. repeat split; reflexivity.
Qed.

Lemma generate_square_ok :
  ensures (generate_square L R) (fun out => (3 <= length out)%nat).
Proof.
  unfold generate_square. cbv zeta.
  step ensures_random. intros u _.
  step ensures_uniform_any. intros skew _.
  step uniform_list_ok. intros side_var Hsv.
  destruct (four_items side_var Hsv) as (a & b & c & d & Ea & Eb & Ec & Ed).
  step ensures_lift_ok; [exact Ea|]. intros ? ->.
  step ensures_lift_ok; [exact Eb|]. intros ? ->.
  step ensures_lift_ok; [exact Ec|]. intros ? ->.
  step ensures_lift_ok; [exact Ed|]. intros ? ->.
  step ensures_randint; [lia|]. intros num_points Hnum.
  apply ensures_lift. apply interpolate_along_edges_three; [cbn [length]|]; lia.
Qed.

Lemma generate_rectangle_ok :
  ensures (generate_rectangle L R) (fun out => (3 <= length out)%nat).
Proof.
  unfold generate_rectangle. cbv zeta.
  step ensures_random. intros u _.
  step ensures_uniform; [lra|]. intros aspect Haspect.
  step ensures_lift_ok; [apply float_div_ok; lra|]. intros h _.
  step ensures_uniform_any. intros skew _.
  step ensures_random. intros v _.
  step ensures_randint; [lia|]. intros num_points Hnum.
  apply ensures_lift. apply interpolate_along_edges_three; [|lia].
  destruct (Qltb v 0.5); unfold flip_corners; cbn [map length]; lia.
Qed.

Lemma generate_triangle_ok :
  ensures (generate_triangle L R) (fun out => (3 <= length out)%nat).
Proof.
  unfold generate_triangle. cbv zeta.
  step ensures_random. intros u _.
  step uniform_list_ok. intros draws Hdraws.
  eapply ensures_bind with (P := fun vs : polyline => length vs = 3%nat).
  { eapply ensures_weaken.
    - apply ensures_mapP with (Q := fun _ _ => True).
      intros a _. step ensures_uniform_any. intros f _. now apply ensures_ret.
    - intros vs H. rewrite (Forall2_length_eq H), length_py_sorted, Hdraws.
      reflexivity. }
  intros vertices Hvs.
  destruct (@getitem_ok _ vertices 0) as (v0 & E0 & _); [unfold len; lia|].
  step ensures_lift_ok; [exact E0|]. intros ? ->.
  step ensures_randint; [lia|]. intros num_points Hnum.
  apply ensures_lift. apply interpolate_along_edges_three; [|lia].
  rewrite length_app. cbn [length]. plia.
Qed.

Lemma _generate_arrow_ok (direction : String.string) :
  ensures (_generate_arrow L R direction) (fun out => (3 <= length out)%nat).
Proof.
  unfold _generate_arrow. cbv zeta.
  step ensures_random. intros u _.
  step ensures_random. intros v _.
  step ensures_uniform_any. intros j _.
  step ensures_randint; [lia|]. intros shaft_points Hsp.
  step ensures_uniform_any. intros curvature _.
  destruct (String.eqb direction "right");
    [|destruct (String.eqb direction "left");
      [|destruct (String.eqb direction "up")]];
    cbv beta iota;
    (eapply ensures_bind with (P := fun _ => True);
     [ eapply ensures_weaken;
       [ apply ensures_mapP with (Q := fun _ _ => True);
         intros i _;
         (step ensures_lift_ok; [apply int_truediv_ok; lia|]);
         intros t _; now apply ensures_ret
       | intros; exact I ]
     | intros points _; apply ensures_ret; rewrite !length_app; cbn [length]; lia ]).
Qed.

Lemma generate_diamond_ok :
  ensures (generate_diamond L R) (fun out => (3 <= length out)%nat).
Proof.
  unfold generate_diamond. cbv zeta.
  step ensures_random. intros u _.
  step ensures_uniform_any. intros h_stretch _.
  step ensures_uniform_any. intros w_stretch _.
  step uniform_list_ok. intros axis_var Hav.
  destruct (four_items axis_var Hav) as (a & b & c & d & Ea & Eb & Ec & Ed).
  step ensures_lift_ok; [exact Ea|]. intros ? ->.
  step ensures_lift_ok; [exact Eb|]. intros ? ->.
  step ensures_lift_ok; [exact Ec|]. intros ? ->.
  step ensures_lift_ok; [exact Ed|]. intros ? ->.
  step ensures_randint; [lia|]. intros num_points Hnum.
  apply ensures_lift. apply interpolate_along_edges_three; [cbn [length]|]; lia.
Qed.

Lemma generate_line_ok :
  ensures (generate_line L R) (fun out => (3 <= length out)%nat).
Proof.
  unfold generate_line. cbv zeta.
  step ensures_random. intros u [Hu0 Hu1].
  step ensures_uniform_any. intros angle _.
  step ensures_randint; [lia|]. intros num_points Hnum.
  step ensures_uniform_any. intros curvature _.
  assert (Hlen : ~ 45 + u * 35 + epsilon == 0).
  { assert (0 <= u * 35) by (apply Qmult_le_0_compat; lra).
    unfold epsilon. lra. }
  eapply ensures_weaken.
  - apply ensures_mapP with (Q := fun _ _ => True).
    intros i _.
    step ensures_lift_ok; [apply int_truediv_ok; lia|]. intros t _.
    step ensures_lift_ok; [apply float_div_ok; exact Hlen|]. intros perp_x _.
    step ensures_lift_ok; [apply float_div_ok; exact Hlen|]. intros perp_y _.
    now apply ensures_ret.
  - intros out H. rewrite (Forall2_length_eq H), length_range. lia.
Qed.

(** Every name of [SHAPE_NAMES] has a generator, and it returns a polyline
    of three points or more. *)
Lemma generators_ok (shape_name : String.string) :
  In shape_name SHAPE_NAMES ->
  exists gen_fn, dict_get (GENERATORS L R) shape_name = Ok gen_fn
                 /\ ensures gen_fn (fun out => (3 <= length out)%nat).
Proof.
  unfold SHAPE_NAMES. cbn [In]. intros H.
  repeat (destruct H as [<-|H];
          [eexists; split; [reflexivity|];
           first [ apply generate_circle_ok | apply generate_square_ok
                 | apply generate_rectangle_ok | apply generate_triangle_ok
                 | apply _generate_arrow_ok | apply generate_diamond_ok
                 | apply generate_line_ok ] |]).
  destruct H.
Qed.

(* ================================================================== *)
(** * The dataset builder *)
(* ================================================================== *)

Lemma generate_sample_ok (canvas_size : Z) (gen_fn : Py R polyline)
    (shape_name : String.string) (class_idx : Z) (images : list grid)
    (labels : list Z) :
  In shape_name SHAPE_NAMES -> (0 <= canvas_size)%Z ->
  ensures gen_fn (fun out => (3 <= length out)%nat) ->
  ensures (generate_sample L R canvas_size gen_fn shape_name class_idx
             (images, labels))
          (fun acc => exists img, acc = (images ++ [img], labels ++ [class_idx])
                                  /\ binary_grid canvas_size img).
Proof.
  intros Hname Hsize Hgen. unfold generate_sample.
  step Hgen. intros p0 Hp0.
  step augment_ok; [exact Hname | exact Hp0 |]. intros p1 Hp1.
  destruct (@rasterize_ok L p1 canvas_size STROKE_WIDTH (three_nonempty Hp1) Hsize)
    as (img & E & Himg).
  step ensures_lift_ok; [exact E|]. intros ? ->.
  apply ensures_ret. eauto.
Qed.

(** The inner loop: one sample, labelled [class_idx], per pass. *)
Lemma class_loop_ok (canvas_size : Z) (gen_fn : Py R polyline)
    (shape_name : String.string) (class_idx : Z) (passes : list Z) :
  In shape_name SHAPE_NAMES -> (0 <= canvas_size)%Z ->
  ensures gen_fn (fun out => (3 <= length out)%nat) ->
  forall images labels,
  ensures (foldP (fun acc _ => generate_sample L R canvas_size gen_fn
                                 shape_name class_idx acc)
                 passes (images, labels))
          (fun acc => exists imgs,
             acc = (images ++ imgs, labels ++ repeat class_idx (length passes))
             /\ length imgs = length passes
             /\ Forall (binary_grid canvas_size) imgs).
Proof.
  intros Hname Hsize Hgen.
  induction passes as [|x passes IH]; intros images labels; cbn [foldP].
  - apply ensures_ret. exists []. cbn [repeat length]. rewrite !app_nil_r.
    repeat split. constructor.
  - step generate_sample_ok; [exact Hname | exact Hsize | exact Hgen |].
    intros acc (img & -> & Himg).
    eapply ensures_weaken; [apply IH|].
    intros acc (imgs & -> & Hlen & Hall). exists (img :: imgs).
    rewrite <- !app_assoc. cbn [app repeat length]. repeat split.
    + now rewrite Hlen.
    + now constructor.
Qed.

(** The outer loop over the classes. *)
Lemma dataset_loop_ok (samples_per_class canvas_size : Z)
    (classes : list (Z * String.string)) :
  (0 <= canvas_size)%Z ->
  Forall (fun c => In (snd c) SHAPE_NAMES) classes ->
  forall images labels,
  ensures (foldP (fun acc '(class_idx, shape_name) =>
                    (gen_fn <- lift (dict_get (GENERATORS L R) shape_name) ;;
                     foldP (fun acc _ =>
                              generate_sample L R canvas_size gen_fn
                                shape_name class_idx acc)
                           (range samples_per_class) acc)%py)
                 classes (images, labels))
          (fun acc => exists imgs,
             acc = (images ++ imgs,
                    labels ++ flat_map (fun c => replicate samples_per_class (fst c))
                                       classes)
             /\ length imgs = (length classes * Z.to_nat samples_per_class)%nat
             /\ Forall (binary_grid canvas_size) imgs).
Proof.
  intros Hsize.
  induction 1 as [|[class_idx shape_name] classes Hname _ IH];
    intros images labels; cbn [foldP].
  - apply ensures_ret. exists []. cbn [flat_map length]. rewrite !app_nil_r.
    repeat split. constructor.
  - cbn [snd] in Hname.
    destruct (generators_ok Hname) as (gen_fn & E & Hgen).
    eapply ensures_bind.
    { step ensures_lift_ok; [exact E|]. intros ? ->.
      apply class_loop_ok; [exact Hname | exact Hsize | exact Hgen]. }
    cbv beta. intros acc (imgs1 & -> & Hlen1 & Hall1).
    eapply ensures_weaken; [apply IH|].
    intros acc (imgs2 & -> & Hlen2 & Hall2). exists (imgs1 ++ imgs2).
    rewrite <- !app_assoc. cbn [flat_map fst]. unfold replicate at 2.
    rewrite length_range in *. repeat split.
    + rewrite length_app, Hlen1, Hlen2. cbn [length]. lia.
    + apply Forall_app. now split.
Qed.

End Stages.

(* ================================================================== *)
(** * Class-major label sequences *)
(* ================================================================== *)

Lemma range_seq (k : Z) : range k = map Z.of_nat (seq 0 (Z.to_nat k)).
Proof.
  unfold range, range2. rewrite Z.sub_0_r. apply map_ext. intros i. lia.
Qed.

Lemma class_major_blocks (k n : Z) :
  class_major_labels k n
  = flat_map (fun i => repeat (Z.of_nat i) (Z.to_nat n)) (seq 0 (Z.to_nat k)).
Proof.
  unfold class_major_labels. rewrite range_seq, !flat_map_concat_map, map_map.
  reflexivity.
Qed.

Lemma length_blocks (n : nat) (K a : nat) :
  length (flat_map (fun i => repeat (Z.of_nat i) n) (seq a K)) = (K * n)%nat.
Proof.
  revert a. induction K as [|K IH]; intros a; [reflexivity|].
  cbn [seq flat_map]. rewrite length_app, repeat_length, IH. lia.
Qed.

Lemma nth_error_blocks (n : nat) (K : nat) : forall a i,
  (i < K * n)%nat ->
  nth_error (flat_map (fun i => repeat (Z.of_nat i) n) (seq a K)) i
  = Some (Z.of_nat (a + i / n)).
Proof.
  induction K as [|K IH]; intros a i Hi; [lia|].
  assert (Hn : (0 < n)%nat) by (destruct n; lia).
  cbn [seq flat_map]. destruct (Nat.lt_ge_cases i n) as [Hlt|Hge].
  - rewrite nth_error_app1 by (rewrite repeat_length; exact Hlt).
    rewrite nth_error_repeat by exact Hlt.
    rewrite Nat.div_small by exact Hlt. do 2 f_equal. lia.
  - rewrite nth_error_app2 by (rewrite repeat_length; exact Hge).
    rewrite repeat_length, IH by lia. do 2 f_equal.
    replace i with (i - n + 1 * n)%nat at 2 by lia.
    rewrite Nat.div_add by lia. lia.
Qed.

Lemma count_occ_blocks (n : nat) (c : nat) (K : nat) : forall a,
  count_occ Z.eq_dec (flat_map (fun i => repeat (Z.of_nat i) n) (seq a K))
            (Z.of_nat c)
  = if (a <=? c)%nat && (c <? a + K)%nat then n else 0%nat.
Proof.
  induction K as [|K IH]; intros a.
  - cbn [seq flat_map count_occ].
    destruct (Nat.leb_spec a c), (Nat.ltb_spec c (a + 0)); cbn [andb]; lia.
  - cbn [seq flat_map]. rewrite count_occ_app, IH.
    destruct (Nat.eq_dec a c) as [->|Hneq].
    + rewrite count_occ_repeat_eq by reflexivity.
      destruct (Nat.leb_spec c c), (Nat.ltb_spec c (c + S K)),
        (Nat.leb_spec (S c) c); cbn [andb]; lia.
    + rewrite count_occ_repeat_neq by lia.
      destruct (Nat.leb_spec a c), (Nat.ltb_spec c (a + S K)),
        (Nat.leb_spec (S a) c), (Nat.ltb_spec c (S a + K)); cbn [andb]; lia.
Qed.

(** The three readings of class balance and class-major order. *)
Lemma class_major_labels_spec (k n : Z) :
  (0 <= k)%Z -> (0 <= n)%Z ->
  len (class_major_labels k n) = (k * n)%Z
  /\ (forall c, (0 <= c < k)%Z ->
        Z.of_nat (count_occ Z.eq_dec (class_major_labels k n) c) = n)
  /\ (forall i, (0 <= i < k * n)%Z ->
        getitem (class_major_labels k n) i = Ok (i / n)%Z).
Proof.
  intros Hk Hn. rewrite class_major_blocks. split; [|split].
  - unfold len. rewrite length_blocks. lia.
  - intros c Hc. rewrite <- (Z2Nat.id c) at 1 by lia.
    rewrite count_occ_blocks.
    destruct (Nat.leb_spec 0 (Z.to_nat c)),
      (Nat.ltb_spec (Z.to_nat c) (0 + Z.to_nat k)); cbn [andb]; lia.
  - intros i Hi. unfold getitem. cbv zeta.
    assert (E0 : (i <? 0)%Z = false) by (apply Z.ltb_ge; lia).
    rewrite !E0. rewrite nth_error_blocks by nia.
    cbn [Nat.add]. rewrite Nat2Z.inj_div, !Z2Nat.id by lia. reflexivity.
Qed.

(* ================================================================== *)
(** * Properties of the dataset builder *)
(* ================================================================== *)

Lemma shape_names_enumerated :
  map fst (enumerate SHAPE_NAMES) = range NUM_CLASSES
  /\ Forall (fun c => In (snd c) SHAPE_NAMES) (enumerate SHAPE_NAMES).
Proof.
  split; [reflexivity|].
  apply Forall_forall. intros [i name] H. apply in_enumerate in H. apply H.
Qed.

(** What [generate_dataset] returns for a configuration. *)
Lemma generate_dataset_with_ok (L : Libm) (R : RandomSource)
    (samples_per_class canvas_size : Z) (w : world R) :
  (0 <= canvas_size)%Z ->
  exists images w',
    generate_dataset_with L R samples_per_class canvas_size w
    = Ok ((images, class_major_labels NUM_CLASSES samples_per_class), w')
    /\ length images = (10 * Z.to_nat samples_per_class)%nat
    /\ Forall (binary_grid canvas_size) images.
Proof.
  intros Hsize. destruct shape_names_enumerated as [Hidx Hnames].
  destruct (@dataset_loop_ok L R samples_per_class canvas_size
              (enumerate SHAPE_NAMES) Hsize Hnames [] [] w)
    as (acc & w' & E & imgs & -> & Hlen & Hall).
  exists imgs, w'. split; [|split; [exact Hlen | exact Hall]].
  unfold generate_dataset_with. rewrite E. reflexivity.
Qed.

(** C1.  For every configuration (a number of samples per class and a
    canvas size, neither negative), [generate_dataset] returns images and
    labels of equal length, [NUM_CLASSES * SAMPLES_PER_CLASS] of them; each of
    the [NUM_CLASSES] class indices labels exactly [SAMPLES_PER_CLASS] samples;
    and the order is class-major: sample [i] has label
    [i // SAMPLES_PER_CLASS], the labels being class 0 repeated, then class 1
    repeated, and so on. *)
Theorem generate_dataset_class_major (L : Libm) (R : RandomSource)
    (samples_per_class canvas_size : Z) (w : world R) :
  (0 <= samples_per_class)%Z -> (0 <= canvas_size)%Z ->
  exists images labels w',
    generate_dataset_with L R samples_per_class canvas_size w
    = Ok ((images, labels), w')
    /\ len images = len labels
    /\ len labels = (NUM_CLASSES * samples_per_class)%Z
    /\ (forall c, (0 <= c < NUM_CLASSES)%Z ->
          Z.of_nat (count_occ Z.eq_dec labels c) = samples_per_class)
    /\ (forall i, (0 <= i < len labels)%Z ->
          getitem labels i = Ok (i / samples_per_class)%Z)
    /\ labels = class_major_labels NUM_CLASSES samples_per_class
    /\ Forall (binary_grid canvas_size) images.
Proof.
  intros Hspc Hsize.
  destruct (@generate_dataset_with_ok L R samples_per_class canvas_size w Hsize)
    as (images & w' & E & Hlen & Hall).
  destruct (@class_major_labels_spec NUM_CLASSES samples_per_class)
    as (Hl & Hcount & Hnth); [unfold NUM_CLASSES; lia | exact Hspc |].
  exists images, (class_major_labels NUM_CLASSES samples_per_class), w'.
  split; [exact E|]. rewrite Hl. repeat split; auto.
  unfold len. rewrite Hlen. unfold NUM_CLASSES. lia.
Qed.

Lemma generate_dataset_class_major_witness :
  (0 <= SAMPLES_PER_CLASS)%Z /\ (0 <= CANVAS_SIZE)%Z /\
  exists images labels w',
    generate_dataset approx_libm lcg_source (seeded 42 42)
    = Ok ((images, labels), w')
    /\ len images = len labels
    /\ len labels = (NUM_CLASSES * SAMPLES_PER_CLASS)%Z
    /\ (forall c, (0 <= c < NUM_CLASSES)%Z ->
          Z.of_nat (count_occ Z.eq_dec labels c) = SAMPLES_PER_CLASS)
    /\ (forall i, (0 <= i < len labels)%Z ->
          getitem labels i = Ok (i / SAMPLES_PER_CLASS)%Z)
    /\ labels = class_major_labels NUM_CLASSES SAMPLES_PER_CLASS
    /\ Forall (binary_grid CANVAS_SIZE) images.
Proof.
  assert (H1 : (0 <= SAMPLES_PER_CLASS)%Z) by (unfold SAMPLES_PER_CLASS; lia).
  assert (H2 : (0 <= CANVAS_SIZE)%Z) by (unfold CANVAS_SIZE; lia).
  exact (conj H1 (conj H2
           (@generate_dataset_class_major approx_libm lcg_source
              SAMPLES_PER_CLASS CANVAS_SIZE (seeded 42 42) H1 H2))).
Defined.

(** ** Which generator a computation reads *)

Section Frames.

Context {R : RandomSource}.















End Frames.



Section StageFrames.

Variable L : Libm.
Variable R : RandomSource.













End StageFrames.

(** ** Two runs that agree on Python's generator *)

Section Sync.

Context {R : RandomSource}.









End Sync.

Section PipelineSync.

Variable L : Libm.
Variable R : RandomSource.



End PipelineSync.

Section DatasetSync.

Variable L : Libm.
Variable R : RandomSource.





End DatasetSync.



(** X27.  Every shape generator returns a polyline of at least three points,
    and each of the eight augmentation stages (and the pipeline as a whole),
    run on a polyline of at least three points, returns a polyline of at
    least three points: none raises, in particular no division is by zero
    (the [1e-8] added to the length of the tangent, the sum of the smoothing
    kernel, the eccentricity of the circle are never zero). *)
Theorem polylines_keep_three_points (L : Libm) (R : RandomSource) :
  (forall shape_name, In shape_name SHAPE_NAMES ->
     exists gen_fn, dict_get (GENERATORS L R) shape_name = Ok gen_fn
                    /\ ensures gen_fn (fun out => (3 <= length out)%nat))
  /\ (forall points : polyline, (3 <= length points)%nat ->
      (forall intensity,
         ensures (add_hand_wobble L R points intensity)
                 (fun out => (3 <= length out)%nat))
      /\ (forall is_closed,
            ensures (simulate_incomplete_shape R points is_closed)
                    (fun out => (3 <= length out)%nat))
      /\ ensures (simulate_stroke_speed L R points)
                 (fun out => (3 <= length out)%nat)
      /\ (forall alpha sigma,
            ensures (elastic_deform L R points alpha sigma)
                    (fun out => (3 <= length out)%nat))
      /\ (forall angle, exists out,
            rotate L points angle = Ok out /\ (3 <= length out)%nat)
      /\ (forall factor, exists out,
            scale points factor = Ok out /\ (3 <= length out)%nat)
      /\ (forall dx dy, (3 <= length (translate points dx dy))%nat)
      /\ (forall std,
            ensures (add_noise R points std)
                    (fun out => (3 <= length out)%nat))
      /\ (forall shape_name, In shape_name SHAPE_NAMES ->
            ensures (augment L R points shape_name)
                    (fun out => (3 <= length out)%nat))).
Proof.
  split; [intros name Hname; now apply generators_ok|].
  intros points H3. repeat split.
  - intros intensity. eapply ensures_weaken; [apply add_hand_wobble_ok|].
    intros out Hout. cbv beta in Hout. lia.
  - intros is_closed.
    eapply ensures_weaken; [apply simulate_incomplete_shape_ok|].
    intros out Hout. unfold len in Hout. lia.
  - eapply ensures_weaken; [apply simulate_stroke_speed_ok|].
    intros out [->|Hout]; [exact H3 | unfold len in Hout; lia].
  - intros alpha sigma. eapply ensures_weaken; [apply elastic_deform_ok|].
    intros out Hout. cbv beta in Hout. lia.
  - intros angle.
    destruct (@rotate_ok L points angle (three_nonempty H3)) as (out & E & Hout).
    exists out. split; [exact E | lia].
  - intros factor.
    destruct (@scale_ok points factor (three_nonempty H3)) as (out & E & Hout).
    exists out. split; [exact E | lia].
  - intros dx dy. rewrite length_translate. exact H3.
  - intros std. eapply ensures_weaken; [apply add_noise_ok|].
    intros out Hout. cbv beta in Hout. lia.
  - intros name Hname. now apply augment_ok.
Qed.

(* ================================================================== *)
(** * The rectangle's orientation flip *)
(* ================================================================== *)

(** C9 fails as stated: the flip turns the upright rectangle into another
    corner list (the first corner [(20, 35)] becomes [(35, 20)]). *)
Lemma flip_corners_changes_rectangle :
  flip_corners upright_rectangle <> upright_rectangle
  /\ ~ Forall2 same_point (flip_corners upright_rectangle) upright_rectangle.
Proof.
  split; [discriminate|].
  intros H. inversion H as [|p q l l' [Hx _] _]; subst.
  vm_compute in Hx. discriminate.
Qed.

(** C9, as the code has it.  The flip maps every corner [(x, y)] to
    [(y - 50 + 50, x - 50 + 50)], which is [(y, x)]: it transposes the corner
    list.  Flipping twice gives the original corners back, and a single flip
    leaves the list unchanged exactly when every corner has [x = y]. *)
Theorem flip_corners_transposes (corners : polyline) :
  Forall2 same_point (flip_corners corners)
          (map (fun p => (snd p, fst p)) corners)
  /\ Forall2 same_point (flip_corners (flip_corners corners)) corners
  /\ (Forall2 same_point (flip_corners corners) corners
      <-> Forall (fun p => fst p == snd p) corners).
Proof.
  unfold flip_corners. induction corners as [|[x y] l (IH1 & IH2 & IH3)];
    cbn [map].
  - repeat split; constructor.
  - split; [|split].
    + constructor; [|exact IH1]. unfold same_point; cbn [fst snd]. split; ring.
    + constructor; [|exact IH2]. unfold same_point; cbn [fst snd]. split; ring.
    + split; intros H.
      * inversion H as [|p q l1 l2 Hp Hl]; subst.
        constructor; [|now apply IH3].
        destruct Hp as [Hp _]. cbn [fst snd] in *. lra.
      * inversion H as [|p l1 Hp Hl]; subst.
        constructor; [|now apply IH3].
        unfold same_point; cbn [fst snd] in *. split; lra.
Qed.

(* ================================================================== *)
(** * Further properties of the helpers and stages *)
(* ================================================================== *)

Lemma interpolate_along_edges_degenerate (L : Libm) (v0 : point)
    (rest : polyline) (n : Z) (t : Q) :
  path_length L (v0 :: rest) = Ok t -> t == 0 ->
  interpolate_along_edges L (v0 :: rest) n = Ok (replicate n v0).
Proof.
  unfold path_length, interpolate_along_edges. cbv zeta.
  destruct (mapR (edge_length L) (edges_of (v0 :: rest))) as [ls|e];
    cbn [bindR]; [|discriminate].
  intros E Ht. inversion E; subst.
  apply Qeq_bool_iff in Ht. rewrite Ht. reflexivity.
Qed.

(** X1.  On a non-empty vertex list and a count [n] that is not negative,
    [interpolate_along_edges] returns at most [n] points and at least
    [min(n, 2 * edges)]; when the total edge length is zero it returns [n]
    copies of the first vertex. *)
Theorem interpolate_along_edges_count (L : Libm) (vertices : polyline) (n : Z) :
  vertices <> [] -> (0 <= n)%Z ->
  exists pts, interpolate_along_edges L vertices n = Ok pts
    /\ (Z.min n (2 * len (edges_of vertices)) <= len pts <= n)%Z
    /\ (forall t v0, path_length L vertices = Ok t -> t == 0 ->
          hd_error vertices = Some v0 -> pts = replicate n v0).
Proof.
  intros Hne Hn.
  destruct (@interpolate_along_edges_ok L vertices n Hne Hn) as (pts & E & H).
  exists pts. split; [exact E|]. split; [exact H|].
  intros t v0 Ht Hz Hhd. destruct vertices as [|v rest]; [discriminate|].
  inversion Hhd; subst.
  rewrite (@interpolate_along_edges_degenerate L v0 rest n t Ht Hz) in E.
  now inversion E.
Qed.

Lemma interpolate_along_edges_count_witness :
  collinear4 <> [] /\ (0 <= 40)%Z /\
  exists pts, interpolate_along_edges approx_libm collinear4 40 = Ok pts
    /\ (Z.min 40 (2 * len (edges_of collinear4)) <= len pts <= 40)%Z
    /\ (forall t v0, path_length approx_libm collinear4 = Ok t -> t == 0 ->
          hd_error collinear4 = Some v0 -> pts = replicate 40 v0).
Proof.
  assert (H1 : collinear4 <> []) by discriminate.
  assert (H2 : (0 <= 40)%Z) by lia.
  exact (conj H1 (conj H2
           (@interpolate_along_edges_count approx_libm collinear4 40 H1 H2))).
Defined.

(** X2.  [lerp_points(p1, p2, n)] returns exactly [n] points, and for
    [n = 1] the single point is [p1]. *)
Theorem lerp_points_count (p1 p2 : point) (n : Z) :
  (exists pts, lerp_points p1 p2 n = Ok pts /\ length pts = Z.to_nat n)
  /\ (exists q, lerp_points p1 p2 1 = Ok [q] /\ same_point q p1).
Proof.
  split; [apply lerp_points_ok|].
  exists (fst p1 + inject_Z 0 / inject_Z 1 * (fst p2 - fst p1),
          snd p1 + inject_Z 0 / inject_Z 1 * (snd p2 - snd p1)).
  split; [reflexivity|].
  unfold same_point; cbn [fst snd].
  change (inject_Z 0 / inject_Z 1) with (0 / 1). split; field.
Qed.

(** X4.  Hand wobble, elastic deformation, rotation, scaling, translation
    and point-wise noise return a polyline with as many points as their
    input (rotation and scaling on a non-empty input: the centroid of an
    empty one is a division by zero). *)
Theorem stages_preserve_length (L : Libm) (R : RandomSource)
    (points : polyline) :
  (forall intensity,
     ensures (add_hand_wobble L R points intensity)
             (fun out => length out = length points))
  /\ (forall alpha sigma,
        ensures (elastic_deform L R points alpha sigma)
                (fun out => length out = length points))
  /\ (forall std,
        ensures (add_noise R points std)
                (fun out => length out = length points))
  /\ (forall dx dy, length (translate points dx dy) = length points)
  /\ (points <> [] ->
      (forall angle, exists out,
         rotate L points angle = Ok out /\ length out = length points)
      /\ (forall factor, exists out,
            scale points factor = Ok out /\ length out = length points))
  /\ (points = [] ->
      (forall angle, rotate L points angle = Raise ZeroDivisionError)
      /\ (forall factor, scale points factor = Raise ZeroDivisionError)).
Proof.
  split; [intros; apply add_hand_wobble_ok|].
  split; [intros; apply elastic_deform_ok|].
  split; [intros; apply add_noise_ok|].
  split; [intros; apply length_translate|].
  split.
  - intros Hne. split; intros; [now apply rotate_ok | now apply scale_ok].
  - intros ->. split; reflexivity.
Qed.

(** X5.  Stroke-speed resampling returns either its input or a polyline of
    at least three points, and returns an input of fewer than five points
    unchanged, without drawing. *)
Theorem simulate_stroke_speed_fallback (L : Libm) (R : RandomSource)
    (points : polyline) :
  ensures (simulate_stroke_speed L R points)
          (fun out => out = points \/ (3 <= len out)%Z)
  /\ ((len points < 5)%Z ->
      forall w, simulate_stroke_speed L R points w = Ok (points, w)).
Proof.
  split; [apply simulate_stroke_speed_ok|].
  intros H w. unfold simulate_stroke_speed.
  destruct (Z.ltb_spec (len points) 5); [reflexivity | lia].
Qed.

(* ================================================================== *)
(** * Sums, and lists read up to equality of rationals *)
(* ================================================================== *)

Lemma fold_left_Qplus_acc (l : list Q) : forall a,
  fold_left Qplus l a == a + py_sum l.
Proof.
  unfold py_sum. induction l as [|x l IH]; intros a; cbn [fold_left].
  - ring.
  - rewrite (IH (a + x)), (IH (0 + x)). ring.
Qed.

Lemma py_sum_cons (x : Q) (l : list Q) : py_sum (x :: l) == x + py_sum l.
Proof.
  unfold py_sum at 1. cbn [fold_left]. rewrite fold_left_Qplus_acc. ring.
Qed.

Lemma py_sum_app (l1 l2 : list Q) :
  py_sum (l1 ++ l2) == py_sum l1 + py_sum l2.
Proof.
  induction l1 as [|x l1 IH]; cbn [app].
  - unfold py_sum at 2. cbn [fold_left]. ring.
  - rewrite !py_sum_cons, IH. ring.
Qed.

Lemma py_sum_nonneg (l : list Q) :
  Forall (fun v => 0 <= v) l -> 0 <= py_sum l.
Proof.
  induction 1 as [|x l Hx _ IH].
  - unfold py_sum. cbn [fold_left]. apply Qle_refl.
  - rewrite py_sum_cons. lra.
Qed.

Lemma mapR_app {A B : Type} (f : A -> result B) (l1 l2 : list A)
    (r1 r2 : list B) :
  mapR f l1 = Ok r1 -> mapR f l2 = Ok r2 -> mapR f (l1 ++ l2) = Ok (r1 ++ r2).
Proof.
  revert r1. induction l1 as [|x l1 IH]; intros r1 H1 H2; cbn [mapR app] in *.
  - inversion H1; subst. exact H2.
  - destruct (f x) as [y|e]; cbn [bindR] in *; [|discriminate].
    destruct (mapR f l1) as [ys|e]; cbn [bindR] in *; [|discriminate].
    inversion H1; subst. rewrite (IH ys eq_refl H2). reflexivity.
Qed.

Lemma edges_of_app (p q : polyline) (v : point) :
  edges_of (p ++ v :: q) = edges_of (p ++ [v]) ++ edges_of (v :: q).
Proof.
  induction p as [|a p IH]; [reflexivity|].
  destruct p as [|b p].
  - cbn [app]. destruct q; reflexivity.
  - change ((a :: b :: p) ++ v :: q) with (a :: b :: (p ++ v :: q)).
    change ((a :: b :: p) ++ [v]) with (a :: b :: (p ++ [v])).
    change (edges_of (a :: b :: (p ++ v :: q)))
      with ((a, b) :: edges_of (b :: (p ++ v :: q))).
    change (edges_of (a :: b :: (p ++ [v])))
      with ((a, b) :: edges_of (b :: (p ++ [v]))).
    cbn [app] in IH. rewrite IH. reflexivity.
Qed.

Lemma edge_lengths_nonneg (L : Libm) (edges : list (point * point)) :
  exists ls, mapR (edge_length L) edges = Ok ls
             /\ Forall (fun v => 0 <= v) ls.
Proof.
  destruct (@mapR_inv _ _ (fun _ v => 0 <= v) (edge_length L) edges)
    as (ls & E & H).
  - intros [a b] _. unfold edge_length.
    rewrite math_sqrt_ok by apply sum_squares_nonneg.
    eexists. split; [reflexivity | apply sqrt_nonneg].
  - exists ls. split; [exact E|].
    clear E. induction H; constructor; assumption.
Qed.

(** X3.  [path_length] returns on every polyline, with a length that is
    not negative; it is 0 for an empty or one-point polyline, and the length
    of a path through a vertex [v] is the length up to [v] plus the length
    from [v] on. *)
Theorem path_length_additive (L : Libm) :
  (forall points, exists t, path_length L points = Ok t /\ 0 <= t)
  /\ (forall points, (length points <= 1)%nat -> path_length L points = Ok 0)
  /\ (forall p v q, exists t t1 t2,
        path_length L (p ++ v :: q) = Ok t
        /\ path_length L (p ++ [v]) = Ok t1
        /\ path_length L (v :: q) = Ok t2
        /\ t == t1 + t2).
Proof.
  split; [|split].
  - intros points. unfold path_length.
    destruct (edge_lengths_nonneg L (edges_of points)) as (ls & -> & H).
    cbn [bindR]. eexists. split; [reflexivity | now apply py_sum_nonneg].
  - intros [|a [|b l]] H; try reflexivity. cbn [length] in H. lia.
  - intros p v q. unfold path_length.
    destruct (edge_lengths_nonneg L (edges_of (p ++ [v]))) as (l1 & E1 & _).
    destruct (edge_lengths_nonneg L (edges_of (v :: q))) as (l2 & E2 & _).
    rewrite edges_of_app, (mapR_app _ _ _ E1 E2), E1, E2. cbn [bindR].
    exists (py_sum (l1 ++ l2)), (py_sum l1), (py_sum l2).
    repeat split. apply py_sum_app.
Qed.

(** ** The points of [lerp_points] *)

Lemma nth_error_range2 (a b i : Z) :
  (a <= i < b)%Z -> nth_error (range2 a b) (Z.to_nat (i - a)) = Some i.
Proof.
  intros H. unfold range2.
  rewrite nth_error_map, nth_error_seq.
  destruct (Nat.ltb_spec (Z.to_nat (i - a)) (Z.to_nat (b - a))); [|lia].
  cbn [option_map]. f_equal. lia.
Qed.

Lemma Forall2_nth_error {A B : Type} (P : A -> B -> Prop) (l : list A)
    (l' : list B) (i : nat) (x : A) :
  Forall2 P l l' -> nth_error l i = Some x ->
  exists y, nth_error l' i = Some y /\ P x y.
Proof.
  intros H. revert i. induction H as [|a b l l' Hab _ IH]; intros [|i] E;
    cbn [nth_error] in *; try discriminate.
  - inversion E; subst. eauto.
  - now apply IH.
Qed.

Lemma getitem_nth_error {A : Type} (l : list A) (i : Z) (x : A) :
  (0 <= i)%Z -> nth_error l (Z.to_nat i) = Some x -> getitem l i = Ok x.
Proof.
  intros Hi E. unfold getitem. cbv zeta.
  assert (E0 : (i <? 0)%Z = false) by (apply Z.ltb_ge; lia).
  rewrite !E0, E. reflexivity.
Qed.

Lemma getitem_from_end {A : Type} (l : list A) (i : Z) :
  (- len l <= i < 0)%Z -> getitem l i = getitem l (len l + i).
Proof.
  intros H. unfold getitem. cbv zeta.
  assert (E0 : (i <? 0)%Z = true) by (apply Z.ltb_lt; lia).
  assert (E1 : (len l + i <? 0)%Z = false) by (apply Z.ltb_ge; lia).
  rewrite E0, !E1. reflexivity.
Qed.

Lemma lerp_points_items (p1 p2 : point) (n : Z) :
  exists pts, lerp_points p1 p2 n = Ok pts
    /\ length pts = Z.to_nat n
    /\ forall i, (0 <= i < n)%Z ->
         getitem pts i
         = Ok (along p1 p2 (inject_Z i / inject_Z (Z.max (n - 1) 1))).
Proof.
  unfold lerp_points.
  destruct (@mapR_inv _ _
              (fun i q => q = along p1 p2 (inject_Z i / inject_Z (Z.max (n - 1) 1)))
              (fun i => (t <- int_truediv i (Z.max (n - 1) 1) ;;
                         Ok (fst p1 + t * (fst p2 - fst p1),
                             snd p1 + t * (snd p2 - snd p1)))%res)
              (range n)) as (pts & E & H).
  - intros i _. rewrite int_truediv_ok by lia. cbn [bindR]. eauto.
  - exists pts. split; [exact E|]. split.
    + etransitivity; [exact (Forall2_length_eq H) | apply length_range].
    + intros i Hi.
      pose proof (@nth_error_range2 0 n i ltac:(lia)) as Hnth.
      rewrite Z.sub_0_r in Hnth. fold (range n) in Hnth.
      destruct (Forall2_nth_error _ H Hnth) as (q & Hq & ->).
      apply getitem_nth_error; [lia | exact Hq].
Qed.

(** X6.  For [n >= 2], [lerp_points(p1, p2, n)] returns the [n] points
    [p1 + i / (n - 1) * (p2 - p1)], [i = 0 .. n - 1]: evenly spaced on the
    segment, the first one being [p1] and the last one [p2]. *)
Theorem lerp_points_endpoints (p1 p2 : point) (n : Z) :
  (2 <= n)%Z ->
  exists pts, lerp_points p1 p2 n = Ok pts
    /\ len pts = n
    /\ (forall i, (0 <= i < n)%Z ->
          getitem pts i = Ok (along p1 p2 (inject_Z i / inject_Z (n - 1))))
    /\ (exists first, getitem pts 0 = Ok first /\ same_point first p1)
    /\ (exists last, getitem pts (-1) = Ok last /\ same_point last p2).
Proof.
  intros Hn. destruct (lerp_points_items p1 p2 n) as (pts & E & Hlen & Hitems).
  assert (Hmax : Z.max (n - 1) 1 = (n - 1)%Z) by lia.
  rewrite Hmax in Hitems.
  exists pts. split; [exact E|]. split; [unfold len; lia|].
  split; [exact Hitems|]. split.
  - eexists. split; [apply Hitems; lia|].
    unfold same_point, along; cbn [fst snd].
    change (inject_Z 0) with 0. unfold Qdiv. split; ring.
  - exists (along p1 p2 (inject_Z (n - 1) / inject_Z (n - 1))). split.
    + rewrite getitem_from_end by (unfold len; lia).
      replace (len pts + -1)%Z with (n - 1)%Z by (unfold len; lia).
      apply Hitems. lia.
    + assert (Hd : ~ inject_Z (n - 1) == 0).
      { change 0 with (inject_Z 0). rewrite inject_Z_injective. lia. }
      unfold same_point, along; cbn [fst snd]. split; field; exact Hd.
Qed.

Lemma lerp_points_endpoints_witness :
  (2 <= 3)%Z /\
  exists pts, lerp_points (0, 0) (2, 4) 3 = Ok pts
    /\ len pts = 3%Z
    /\ (forall i, (0 <= i < 3)%Z ->
          getitem pts i
          = Ok (along (0, 0) (2, 4) (inject_Z i / inject_Z (3 - 1))))
    /\ (exists first, getitem pts 0 = Ok first /\ same_point first (0, 0))
    /\ (exists last, getitem pts (-1) = Ok last /\ same_point last (2, 4)).
Proof.
  assert (H : (2 <= 3)%Z) by lia.
  exact (conj H (@lerp_points_endpoints (0, 0) (2, 4) 3 H)).
Defined.

(** ** The first point and the errors of [interpolate_along_edges] *)

Lemma extend_edges_extends (n : Z) (total_len : Q)
    (l : list (point * point * Q)) : forall acc pts,
  foldR (extend_edge n total_len) l acc = Ok pts ->
  exists more, pts = acc ++ more.
Proof.
  induction l as [|[[a b] elen] l IH]; intros acc pts H; cbn [foldR] in H.
  - inversion H; subst. exists []. now rewrite app_nil_r.
  - unfold extend_edge at 1 in H.
    destruct (float_div (inject_Z n * elen) total_len) as [q|e];
      cbn [bindR] in H; [|discriminate].
    destruct (lerp_points a b (Z.max 2 (py_round q))) as [seg|e];
      cbn [bindR] in H; [|discriminate].
    destruct (IH _ _ H) as (more & ->). exists (seg ++ more).
    now rewrite app_assoc.
Qed.

Lemma edges_of_head (v0 : point) (vs : polyline) (e : point * point)
    (es : list (point * point)) :
  edges_of (v0 :: vs) = e :: es -> fst e = v0.
Proof. destruct vs as [|b vs]; [discriminate|]. intros H. now inversion H. Qed.

(** X7.  [interpolate_along_edges] raises [IndexError] on an empty vertex
    list and returns [total_points] copies of a lone vertex; on a non-empty
    vertex list and [total_points >= 1] the first point it returns is the
    first vertex. *)
Theorem interpolate_along_edges_first_point (L : Libm) (n : Z) :
  interpolate_along_edges L [] n = Raise IndexError
  /\ (forall v, interpolate_along_edges L [v] n = Ok (replicate n v))
  /\ (forall v0 vs, (1 <= n)%Z ->
        exists pts first,
          interpolate_along_edges L (v0 :: vs) n = Ok pts
          /\ getitem pts 0 = Ok first /\ same_point first v0).
Proof.
  split; [reflexivity|]. split; [reflexivity|].
  intros v0 vs Hn. unfold interpolate_along_edges. cbv zeta.
  destruct (edge_lengths_ok L (edges_of (v0 :: vs))) as (ls & E & Hls).
  rewrite E. cbn [bindR]. destruct (Qeq_bool (py_sum ls) 0) eqn:Ez.
  - exists (replicate n v0), v0. split; [reflexivity|].
    split; [|split; reflexivity].
    unfold replicate. destruct (Z.to_nat n) eqn:En; [lia|]. reflexivity.
  - assert (Hnz : ~ py_sum ls == 0)
      by (intros H; apply Qeq_bool_iff in H; congruence).
    destruct (edges_of (v0 :: vs)) as [|[a b] es] eqn:Ee.
    { destruct ls; [|discriminate]. exfalso. apply Hnz. reflexivity. }
    pose proof (@edges_of_head _ _ _ _ Ee) as Ha. cbn [fst] in Ha. subst a.
    destruct ls as [|elen ls]; [discriminate|]. cbn [combine foldR].
    unfold extend_edge at 1. rewrite float_div_ok by exact Hnz. cbn [bindR].
    set (n1 := Z.max 2 (py_round (inject_Z n * elen / py_sum (elen :: ls)))).
    destruct (lerp_points_items v0 b n1) as (seg & Eseg & Hseglen & Hitems).
    rewrite Eseg. cbn [bindR].
    destruct (extend_edges_ok n (combine es ls) Hnz ([] ++ seg))
      as (pts & Epts & _).
    rewrite Epts. cbn [bindR].
    destruct (@extend_edges_extends _ _ _ _ _ Epts) as (more & ->).
    pose proof (Hitems 0%Z ltac:(unfold n1; lia)) as H0.
    destruct seg as [|q seg]; [cbn [length] in Hseglen; unfold n1 in *; lia|].
    unfold getitem in H0. cbn in H0.
    assert (Hq : same_point q v0).
    { inversion H0. unfold same_point, along; cbn [fst snd].
      change (inject_Z 0) with 0. unfold Qdiv. split; ring. }
    clear H0 Hitems.
    exists (slice_to (([] ++ q :: seg) ++ more) n), q.
    split; [reflexivity|]. split; [|exact Hq].
    unfold slice_to. destruct (Z.ltb_spec n 0); [lia|].
    destruct (Z.to_nat n) eqn:En; [lia|]. reflexivity.
Qed.

(* ================================================================== *)
(** * Further properties of the rasterizer *)
(* ================================================================== *)

(** X8.  [rasterize] returns exactly when the polyline is not empty and the
    canvas size is not negative; otherwise it raises [ValueError] (from
    [np.zeros] on a negative size, from [min] on an empty polyline). *)
Theorem rasterize_returns_iff (L : Libm) (points : polyline) (size : Z)
    (stroke_width : Q) :
  ((exists img, rasterize L points size stroke_width = Ok img)
   <-> points <> [] /\ (0 <= size)%Z)
  /\ (points = [] \/ (size < 0)%Z ->
      rasterize L points size stroke_width = Raise ValueError).
Proof.
  assert (Hbad : points = [] \/ (size < 0)%Z ->
                 rasterize L points size stroke_width = Raise ValueError).
  { intros H. unfold rasterize, np_zeros.
    destruct (Z.ltb_spec size 0) as [Hs|Hs]; [reflexivity|].
    destruct H as [->|H]; [reflexivity | lia]. }
  split; [|exact Hbad]. split.
  - intros (img & E). split.
    + intros ->. rewrite Hbad in E by now left. discriminate.
    + destruct (Z.lt_ge_cases size 0) as [Hs|Hs]; [|lia].
      rewrite Hbad in E by now right. discriminate.
  - intros [Hne Hs].
    destruct (@rasterize_ok L points size stroke_width Hne Hs) as (img & E & _).
    eauto.
Qed.

Lemma norm_map_padded (points : polyline) (size : Z) (p : point) :
  points <> [] -> (0 <= size)%Z -> In p points ->
  inject_Z size * (1 # 10) <= fst (norm_map points size p)
                           <= inject_Z size * (9 # 10)
  /\ inject_Z size * (1 # 10) <= snd (norm_map points size p)
                              <= inject_Z size * (9 # 10).
Proof.
  intros Hne Hsize Hp. destruct p as [x y].
  assert (Hx : map fst points <> []) by (destruct points; [congruence|discriminate]).
  assert (Hy : map snd points <> []) by (destruct points; [congruence|discriminate]).
  destruct (bbox_nonneg Hne) as [Hw Hh].
  pose proof (norm_divisor_pos (bbox_w points) (bbox_h points)) as Hm.
  destruct (py_max_from_spec [bbox_h points; epsilon] (bbox_w points))
    as (_ & Hwm & Hall).
  assert (Hhm : bbox_h points <= py_max_from (bbox_w points) [bbox_h points; epsilon])
    by (inversion Hall; assumption).
  assert (Hmpos : 0 < py_max_from (bbox_w points) [bbox_h points; epsilon])
    by (eapply Qlt_le_trans; [|exact Hm]; reflexivity).
  assert (HS : 0 <= inject_Z size)
    by (change 0 with (inject_Z 0); rewrite <- Zle_Qle; exact Hsize).
  pose proof (norm_scale_mult points size) as Hsm.
  destruct (min_of_spec Hx) as [_ Hminx]. destruct (max_of_spec Hx) as [_ Hmaxx].
  destruct (min_of_spec Hy) as [_ Hminy]. destruct (max_of_spec Hy) as [_ Hmaxy].
  rewrite Forall_forall in Hminx, Hmaxx, Hminy, Hmaxy.
  assert (Hix : In x (map fst points)) by (apply (in_map fst) in Hp; exact Hp).
  assert (Hiy : In y (map snd points)) by (apply (in_map snd) in Hp; exact Hp).
  pose proof (Hminx _ Hix). pose proof (Hmaxx _ Hix).
  pose proof (Hminy _ Hiy). pose proof (Hmaxy _ Hiy).
  unfold norm_map; cbn [fst snd]. split.
  - eapply (@scaled_coord_bounds (inject_Z size) (norm_scale points size)
              (py_max_from (bbox_w points) [bbox_h points; epsilon])
              (bbox_w points) (x - min_of (map fst points)));
      try assumption; try (split; assumption).
    unfold bbox_w. split; lra.
  - eapply (@scaled_coord_bounds (inject_Z size) (norm_scale points size)
              (py_max_from (bbox_w points) [bbox_h points; epsilon])
              (bbox_h points) (y - min_of (map snd points)));
      try assumption; try (split; assumption).
    unfold bbox_h. split; lra.
Qed.

(** X9.  The padding of [normalize_points]: unless the bounding box is a
    single point, every normalized point lies in the square
    [[0.1 * size, 0.9 * size]] on both axes, a margin of 10% of the canvas on
    every side. *)
Theorem normalize_points_padding (points : polyline) (size : Z) :
  points <> [] -> (0 <= size)%Z ->
  ~ (bbox_w points == 0 /\ bbox_h points == 0) ->
  exists out, normalize_points points size = Ok out
    /\ Forall (fun q => inject_Z size * (1 # 10) <= fst q <= inject_Z size * (9 # 10)
                        /\ inject_Z size * (1 # 10) <= snd q
                                                    <= inject_Z size * (9 # 10))
              out.
Proof.
  intros Hne Hsize Hnd.
  destruct (normalize_points_length_eq size Hne) as (out & E & Hout & _).
  exists out. split; [exact E|]. rewrite (Hout Hnd).
  apply Forall_forall. intros q Hq. apply in_map_iff in Hq.
  destruct Hq as (p & <- & Hp). now apply norm_map_padded.
Qed.

Lemma normalize_points_padding_witness :
  straight_line <> [] /\ (0 <= 48)%Z /\
  ~ (bbox_w straight_line == 0 /\ bbox_h straight_line == 0) /\
  exists out, normalize_points straight_line 48 = Ok out
    /\ Forall (fun q => inject_Z 48 * (1 # 10) <= fst q <= inject_Z 48 * (9 # 10)
                        /\ inject_Z 48 * (1 # 10) <= snd q
                                                  <= inject_Z 48 * (9 # 10))
              out.
Proof.
  assert (H1 : straight_line <> []) by discriminate.
  assert (H2 : (0 <= 48)%Z) by lia.
  assert (H3 : ~ (bbox_w straight_line == 0 /\ bbox_h straight_line == 0))
    by (intros [H _]; vm_compute in H; discriminate).
  exact (conj H1 (conj H2 (conj H3
           (@normalize_points_padding straight_line 48 H1 H2 H3)))).
Defined.

(** ** Normalization undoes translation and uniform scaling *)

Lemma py_max_from_comp (l l' : list Q) :
  Forall2 Qeq l l' -> forall x x', x == x' ->
  py_max_from x l == py_max_from x' l'.
Proof.
  unfold py_max_from. induction 1 as [|y y' l l' Hy _ IH]; intros x x' Hx;
    cbn [fold_left]; [exact Hx|].
  apply IH. rewrite (Qltb_comp Hx Hy). destruct (Qltb x' y'); assumption.
Qed.

Lemma py_min_from_comp (l l' : list Q) :
  Forall2 Qeq l l' -> forall x x', x == x' ->
  py_min_from x l == py_min_from x' l'.
Proof.
  unfold py_min_from. induction 1 as [|y y' l l' Hy _ IH]; intros x x' Hx;
    cbn [fold_left]; [exact Hx|].
  apply IH. rewrite (Qltb_comp Hy Hx). destruct (Qltb y' x'); assumption.
Qed.

Lemma max_of_comp (l l' : list Q) :
  Forall2 Qeq l l' -> max_of l == max_of l'.
Proof.
  intros H. destruct H; [reflexivity|]. now apply py_max_from_comp.
Qed.

Lemma min_of_comp (l l' : list Q) :
  Forall2 Qeq l l' -> min_of l == min_of l'.
Proof.
  intros H. destruct H; [reflexivity|]. now apply py_min_from_comp.
Qed.

Lemma Forall2_map_both {A B C D : Type} (P : A -> B -> Prop)
    (S : C -> D -> Prop) (f : A -> C) (g : B -> D) (l : list A) (l' : list B) :
  Forall2 P l l' -> (forall u v, P u v -> S (f u) (g v)) ->
  Forall2 S (map f l) (map g l').
Proof. intros H HPS. induction H; cbn [map]; constructor; auto. Qed.

Lemma similar_extent (a sx sy : Q) (p q : polyline) :
  0 <= a -> p <> [] -> similar a sx sy p q ->
  min_of (map fst q) == a * min_of (map fst p) + sx
  /\ min_of (map snd q) == a * min_of (map snd p) + sy
  /\ bbox_w q == a * bbox_w p
  /\ bbox_h q == a * bbox_h p.
Proof.
  intros Ha Hne Hsim.
  assert (Hx : map fst p <> []) by (destruct p; [congruence|discriminate]).
  assert (Hy : map snd p <> []) by (destruct p; [congruence|discriminate]).
  assert (Ex : Forall2 Qeq (map fst q) (map (fun x => a * x + sx) (map fst p))).
  { rewrite map_map. apply Forall2_flip.
    eapply Forall2_map_both; [exact Hsim|]. intros u v [H _]. exact H. }
  assert (Ey : Forall2 Qeq (map snd q) (map (fun y => a * y + sy) (map snd p))).
  { rewrite map_map. apply Forall2_flip.
    eapply Forall2_map_both; [exact Hsim|]. intros u v [_ H]. exact H. }
  assert (Hgx : forall x y, x <= y -> a * x + sx <= a * y + sx) by (intros; nra).
  assert (Hgy : forall x y, x <= y -> a * x + sy <= a * y + sy) by (intros; nra).
  pose proof (min_of_comp Ex) as Mx. pose proof (max_of_comp Ex) as Nx.
  pose proof (min_of_comp Ey) as My. pose proof (max_of_comp Ey) as Ny.
  rewrite (min_of_map_mono _ Hgx Hx) in Mx. rewrite (max_of_map_mono _ Hgx Hx) in Nx.
  rewrite (min_of_map_mono _ Hgy Hy) in My. rewrite (max_of_map_mono _ Hgy Hy) in Ny.
  split; [exact Mx|]. split; [exact My|].
  unfold bbox_w, bbox_h. rewrite Mx, Nx, My, Ny. split; ring.
Qed.

(** Normalizing a polyline and a scaled, shifted copy of it gives the same
    points, as long as the epsilon of the divisor scales with them. *)
Lemma normalize_points_similar (a sx sy : Q) (p q : polyline) (size : Z) :
  0 < a -> p <> [] -> similar a sx sy p q ->
  py_max_from (bbox_w q) [bbox_h q; epsilon]
  == a * py_max_from (bbox_w p) [bbox_h p; epsilon] ->
  exists o1 o2, normalize_points q size = Ok o1
                /\ normalize_points p size = Ok o2
                /\ Forall2 same_point o1 o2.
Proof.
  intros Ha Hne Hsim Hm.
  assert (Hneq : q <> []) by (destruct Hsim; [congruence | discriminate]).
  destruct (similar_extent (Qlt_le_weak _ _ Ha) Hne Hsim) as (Mx & My & Ew & Eh).
  rewrite (normalize_points_eq size Hne), (normalize_points_eq size Hneq).
  assert (Hb : Qeq_bool (bbox_w q) 0 && Qeq_bool (bbox_h q) 0
               = Qeq_bool (bbox_w p) 0 && Qeq_bool (bbox_h p) 0).
  { assert (Hz : forall u v, v == a * u -> Qeq_bool v 0 = Qeq_bool u 0).
    { intros u v Hv. destruct (Qeq_bool u 0) eqn:E.
      - apply Qeq_bool_iff in E. apply Qeq_bool_iff. rewrite Hv, E. ring.
      - apply Qeq_bool_false. intros Hv0. rewrite Hv in Hv0.
        assert (Hu : u == 0) by nra. apply Qeq_bool_iff in Hu. congruence. }
    now rewrite (Hz _ _ Ew), (Hz _ _ Eh). }
  rewrite Hb. clear Hb.
  destruct (Qeq_bool (bbox_w p) 0 && Qeq_bool (bbox_h p) 0).
  - eexists _, _. repeat split. constructor; [split; reflexivity | constructor].
  - eexists _, _. split; [reflexivity|]. split; [reflexivity|].
    apply Forall2_flip. eapply Forall2_map_both; [exact Hsim|].
    intros u v [Hu Hv].
    pose proof (norm_divisor_pos (bbox_w p) (bbox_h p)) as Hpos.
    assert (Hmp : ~ py_max_from (bbox_w p) [bbox_h p; epsilon] == 0)
      by (intros E; rewrite E in Hpos; revert Hpos; apply Qlt_not_le; reflexivity).
    unfold same_point, norm_map, norm_scale; cbn [fst snd].
    rewrite Hm, Mx, My, Ew, Eh, Hu, Hv. split; field; split; lra.
Qed.

Lemma similar_translate (points : polyline) (dx dy : Q) :
  similar 1 dx dy points (translate points dx dy).
Proof.
  unfold similar, translate. induction points as [|[x y] l IH]; cbn [map];
    constructor; [|exact IH].
  cbn [fst snd]. split; ring.
Qed.

(** X10.  [normalize_points] undoes a translation: the translated polyline
    and the original one normalize to the same points. *)
Theorem normalize_points_translation_invariant (points : polyline) (size : Z)
    (dx dy : Q) :
  points <> [] ->
  exists o1 o2,
    normalize_points (translate points dx dy) size = Ok o1
    /\ normalize_points points size = Ok o2
    /\ Forall2 same_point o1 o2.
Proof.
  intros Hne.
  pose proof (similar_translate points dx dy) as Hsim.
  apply (@normalize_points_similar 1 dx dy); [reflexivity | exact Hne | exact Hsim |].
  destruct (@similar_extent 1 dx dy points (translate points dx dy))
    as (_ & _ & Ew & Eh); [discriminate | exact Hne | exact Hsim |].
  rewrite Qmult_1_l.
  apply py_max_from_comp.
  - constructor; [rewrite Eh; ring | constructor; [reflexivity | constructor]].
  - rewrite Ew. ring.
Qed.

Lemma normalize_points_translation_invariant_witness :
  straight_line <> [] /\
  exists o1 o2,
    normalize_points (translate straight_line 3 (-7)) 48 = Ok o1
    /\ normalize_points straight_line 48 = Ok o2
    /\ Forall2 same_point o1 o2.
Proof.
  assert (H : straight_line <> []) by discriminate.
  exact (conj H (@normalize_points_translation_invariant straight_line 48 3 (-7) H)).
Defined.

Lemma py_max3 (w h e : Q) : py_max_from w [h; e] == Qmax (Qmax w h) e.
Proof.
  unfold py_max_from. cbn [fold_left].
  destruct (Qltb w h) eqn:E1.
  - apply Qltb_lt in E1. rewrite (Q.max_r w h) by lra.
    destruct (Qltb h e) eqn:E2.
    + apply Qltb_lt in E2. rewrite Q.max_r by lra. reflexivity.
    + apply Qltb_ge in E2. rewrite Q.max_l by lra. reflexivity.
  - apply Qltb_ge in E1. rewrite (Q.max_l w h) by lra.
    destruct (Qltb w e) eqn:E2.
    + apply Qltb_lt in E2. rewrite Q.max_r by lra. reflexivity.
    + apply Qltb_ge in E2. rewrite Q.max_l by lra. reflexivity.
Qed.

(** The divisor of the scale factor follows a scaling by [a] when the
    larger side stays above the epsilon before and after. *)
Lemma divisor_scales (a : Q) (p q : polyline) :
  0 <= a -> bbox_w q == a * bbox_w p -> bbox_h q == a * bbox_h p ->
  epsilon <= Qmax (bbox_w p) (bbox_h p) ->
  epsilon <= a * Qmax (bbox_w p) (bbox_h p) ->
  py_max_from (bbox_w q) [bbox_h q; epsilon]
  == a * py_max_from (bbox_w p) [bbox_h p; epsilon].
Proof.
  intros Ha Ew Eh H1 H2. rewrite !py_max3, Ew, Eh.
  rewrite !(Qmult_comm a), Qmax_scale by exact Ha.
  rewrite (Q.max_l _ epsilon) by (rewrite Qmult_comm; exact H2).
  rewrite (Q.max_l _ epsilon) by exact H1. reflexivity.
Qed.

Lemma similar_scale (points : polyline) (factor : Q) :
  points <> [] ->
  exists cx cy scaled,
    scale points factor = Ok scaled
    /\ similar factor (cx - cx * factor) (cy - cy * factor) points scaled.
Proof.
  intros Hne. unfold scale.
  rewrite !mean_ok by (destruct points; [congruence|discriminate]).
  cbn [bindR].
  exists (py_sum (map fst points) / inject_Z (len (map fst points))),
         (py_sum (map snd points) / inject_Z (len (map snd points))).
  eexists. split; [reflexivity|].
  unfold similar. clear Hne.
  generalize (py_sum (map fst points) / inject_Z (len (map fst points))).
  generalize (py_sum (map snd points) / inject_Z (len (map snd points))).
  intros cy cx. induction points as [|[x y] l IH]; cbn [map];
    constructor; [|exact IH].
  cbn [fst snd]. split; ring.
Qed.

(** X11.  [normalize_points] undoes a uniform scaling about the centroid:
    for a positive factor, and a bounding box whose larger side is at least
    [1e-8] before and after the scaling, [scale(points, factor)] and [points]
    normalize to the same points. *)
Theorem normalize_points_scale_invariant (points : polyline) (size : Z)
    (factor : Q) :
  points <> [] -> 0 < factor ->
  epsilon <= Qmax (bbox_w points) (bbox_h points) ->
  epsilon <= factor * Qmax (bbox_w points) (bbox_h points) ->
  exists scaled o1 o2,
    scale points factor = Ok scaled
    /\ normalize_points scaled size = Ok o1
    /\ normalize_points points size = Ok o2
    /\ Forall2 same_point o1 o2.
Proof.
  intros Hne Hf H1 H2.
  destruct (similar_scale factor Hne) as (cx & cy & scaled & E & Hsim).
  destruct (similar_extent (Qlt_le_weak _ _ Hf) Hne Hsim) as (_ & _ & Ew & Eh).
  destruct (@normalize_points_similar factor _ _ points scaled size Hf Hne Hsim)
    as (o1 & o2 & E1 & E2 & Ho).
  - apply divisor_scales; try assumption. now apply Qlt_le_weak.
  - exists scaled, o1, o2. repeat split; assumption.
Qed.

Lemma normalize_points_scale_invariant_witness :
  straight_line <> [] /\ 0 < 1.8 /\
  epsilon <= Qmax (bbox_w straight_line) (bbox_h straight_line) /\
  epsilon <= 1.8 * Qmax (bbox_w straight_line) (bbox_h straight_line) /\
  exists scaled o1 o2,
    scale straight_line 1.8 = Ok scaled
    /\ normalize_points scaled 48 = Ok o1
    /\ normalize_points straight_line 48 = Ok o2
    /\ Forall2 same_point o1 o2.
Proof.
  assert (H1 : straight_line <> []) by discriminate.
  assert (H2 : 0 < 1.8) by reflexivity.
  assert (H3 : epsilon <= Qmax (bbox_w straight_line) (bbox_h straight_line))
    by (vm_compute; discriminate).
  assert (H4 : epsilon <= 1.8 * Qmax (bbox_w straight_line) (bbox_h straight_line))
    by (vm_compute; discriminate).
  exact (conj H1 (conj H2 (conj H3 (conj H4
           (@normalize_points_scale_invariant straight_line 48 1.8 H1 H2 H3 H4))))).
Defined.

Lemma Forall2_map_graph (A B : Type) (f : A -> B) (P : A -> B -> Prop)
    (l : list A) :
  (forall u, P u (f u)) -> Forall2 P l (map f l).
Proof.
  intros H. induction l as [|u l IH]; cbn [map]; constructor; [apply H | exact IH].
Qed.

Lemma similar_norm_map (points : polyline) (size : Z) :
  similar (norm_scale points size)
    ((inject_Z size - bbox_w points * norm_scale points size) / 2
     - min_of (map fst points) * norm_scale points size)
    ((inject_Z size - bbox_h points * norm_scale points size) / 2
     - min_of (map snd points) * norm_scale points size)
    points (map (norm_map points size) points).
Proof.
  unfold similar. apply Forall2_map_graph.
  intros u. unfold norm_map; cbn [fst snd]. split; ring.
Qed.

(** X12.  [normalize_points] is idempotent on a canvas of at least one
    pixel: normalizing an already normalized polyline changes nothing, when
    the input's bounding box is a single point or has a larger side of at
    least [1e-8]. *)
Theorem normalize_points_idempotent (points : polyline) (size : Z) :
  points <> [] -> (1 <= size)%Z ->
  (bbox_w points == 0 /\ bbox_h points == 0)
  \/ epsilon <= Qmax (bbox_w points) (bbox_h points) ->
  exists out again,
    normalize_points points size = Ok out
    /\ normalize_points out size = Ok again
    /\ Forall2 same_point again out.
Proof.
  intros Hne Hsize Hcase.
  destruct (normalize_points_length_eq size Hne) as (out & E & Hnd & Hd).
  destruct (Qeq_bool (bbox_w points) 0 && Qeq_bool (bbox_h points) 0) eqn:Eb.
  - apply andb_true_iff in Eb. destruct Eb as [E1 E2].
    apply Qeq_bool_iff in E1, E2. rewrite (Hd (conj E1 E2)) in *.
    set (c := inject_Z size / 2) in *.
    destruct (@normalize_points_length_eq [(c, c)] size) as (again & E' & _ & Hd');
      [discriminate|].
    rewrite Hd' in E'.
    + eexists _, _. split; [exact E|]. split; [exact E'|].
      constructor; [split; reflexivity | constructor].
    + unfold bbox_w, bbox_h, max_of, min_of, py_max_from, py_min_from.
      cbn [map fst snd fold_left]. split; ring.
  - assert (Hnz : ~ (bbox_w points == 0 /\ bbox_h points == 0)).
    { intros [E1 E2]. apply Qeq_bool_iff in E1, E2. rewrite E1, E2 in Eb.
      discriminate. }
    destruct Hcase as [Hdeg|Heps]; [contradiction|].
    rewrite (Hnd Hnz) in *. clear Hnd Hd.
    pose proof (similar_norm_map points size) as Hsim.
    pose proof (norm_scale_mult points size) as Hsm.
    pose proof (norm_divisor_pos (bbox_w points) (bbox_h points)) as Hpos.
    assert (HS : 1 <= inject_Z size)
      by (change 1 with (inject_Z 1); rewrite <- Zle_Qle; exact Hsize).
    assert (Hmpos : 0 < py_max_from (bbox_w points) [bbox_h points; epsilon])
      by (eapply Qlt_le_trans; [|exact Hpos]; reflexivity).
    assert (Hm : py_max_from (bbox_w points) [bbox_h points; epsilon]
                 == Qmax (bbox_w points) (bbox_h points))
      by (rewrite py_max3; now apply Q.max_l).
    assert (Hs : 0 < norm_scale points size).
    { destruct (Qlt_le_dec 0 (norm_scale points size)) as [H|H]; [exact H|].
      exfalso.
      assert (norm_scale points size
              * py_max_from (bbox_w points) [bbox_h points; epsilon] <= 0) by nra.
      lra. }
    destruct (similar_extent (Qlt_le_weak _ _ Hs) Hne Hsim) as (_ & _ & Ew & Eh).
    destruct (@normalize_points_similar _ _ _ points
                (map (norm_map points size) points) size Hs Hne Hsim)
      as (o1 & o2 & E1 & E2 & Ho).
    + apply divisor_scales; try assumption; [now apply Qlt_le_weak|].
      rewrite <- Hm, Hsm. unfold epsilon. lra.
    + rewrite E in E2. inversion E2; subst o2.
      exists (map (norm_map points size) points), o1. repeat split; assumption.
Qed.

Lemma normalize_points_idempotent_witness :
  straight_line <> [] /\ (1 <= 48)%Z /\
  ((bbox_w straight_line == 0 /\ bbox_h straight_line == 0)
   \/ epsilon <= Qmax (bbox_w straight_line) (bbox_h straight_line)) /\
  exists out again,
    normalize_points straight_line 48 = Ok out
    /\ normalize_points out 48 = Ok again
    /\ Forall2 same_point again out.
Proof.
  assert (H1 : straight_line <> []) by discriminate.
  assert (H2 : (1 <= 48)%Z) by lia.
  assert (H3 : (bbox_w straight_line == 0 /\ bbox_h straight_line == 0)
               \/ epsilon <= Qmax (bbox_w straight_line) (bbox_h straight_line))
    by (right; vm_compute; discriminate).
  exact (conj H1 (conj H2 (conj H3
           (@normalize_points_idempotent straight_line 48 H1 H2 H3)))).
Defined.

(* ================================================================== *)
(** * What the rasterizer draws *)
(* ================================================================== *)

Lemma nth_error_set_nth_eq {A : Type} (l : list A) (i : nat) (v : A) :
  (i < length l)%nat -> nth_error (set_nth l i v) i = Some v.
Proof.
  revert i. induction l as [|x l IH]; intros [|i] H; cbn in *; try lia.
  - reflexivity.
  - apply IH. lia.
Qed.

Lemma nth_error_set_nth_neq {A : Type} (l : list A) (i j : nat) (v : A) :
  i <> j -> nth_error (set_nth l i v) j = nth_error l j.
Proof.
  revert i j. induction l as [|x l IH]; intros [|i] [|j] H; cbn; try reflexivity.
  - congruence.
  - apply IH. congruence.
Qed.

(** A write [img[py, px] = 1.0] inside the image lights its pixel and
    leaves every lit pixel lit. *)
Lemma np_setitem_lit (size : Z) (img : grid) (py px : Z) :
  binary_grid size img -> (0 <= px < size)%Z -> (0 <= py < size)%Z ->
  exists img', np_setitem img py px 1 = Ok img' /\ binary_grid size img'
    /\ pixel img' py px = Some 1
    /\ forall r c, pixel img r c = Some 1 -> pixel img' r c = Some 1.
Proof.
  intros Himg Hpx Hpy.
  destruct (np_setitem_binary Himg Hpx Hpy) as (img' & E & Hb).
  exists img'. split; [exact E|]. split; [exact Hb|].
  destruct Himg as [Hlen Hrows]. unfold np_setitem in E.
  rewrite np_index_ok in E by lia. cbn [bindR] in E.
  destruct (nth_error img (Z.to_nat py)) as [row|] eqn:Er; [|discriminate].
  pose proof (nth_error_In _ _ Er) as Hin.
  rewrite Forall_forall in Hrows. destruct (Hrows row Hin) as [Hr _].
  rewrite np_index_ok in E by lia. cbn [bindR] in E. inversion E; subst img'.
  assert (Hpy' : (Z.to_nat py < length img)%nat)
    by (apply nth_error_Some; congruence).
  assert (Hpx' : (Z.to_nat px < length row)%nat) by (unfold len in Hr; lia).
  assert (E0 : ((py <? 0) || (px <? 0))%Z%bool = false).
  { apply orb_false_iff. split; apply Z.ltb_ge; lia. }
  split.
  - unfold pixel. rewrite E0, nth_error_set_nth_eq by exact Hpy'.
    now apply nth_error_set_nth_eq.
  - intros r c. unfold pixel.
    destruct ((r <? 0) || (c <? 0))%Z%bool; [discriminate|].
    destruct (Nat.eq_dec (Z.to_nat py) (Z.to_nat r)) as [Hr'|Hr'].
    + rewrite <- Hr', Er, nth_error_set_nth_eq by exact Hpy'.
      destruct (Nat.eq_dec (Z.to_nat px) (Z.to_nat c)) as [Hc|Hc].
      * intros _. rewrite <- Hc. now apply nth_error_set_nth_eq.
      * now rewrite nth_error_set_nth_neq by exact Hc.
    + now rewrite nth_error_set_nth_neq by exact Hr'.
Qed.





Section RasterizerDraws.

Variable L : Libm.
Variable size : Z.
Variable sw : Q.
Hypothesis sw_covers_centre : sqrt L 0 <= sw.








End RasterizerDraws.




(* ================================================================== *)
(** * The image is the stamp pixels that fall on the canvas *)
(* ================================================================== *)

(** A write [img[py, px] = 1.0] inside the image lights that pixel and
    changes no other. *)
Lemma np_setitem_exact (size : Z) (img : grid) (py px : Z) :
  binary_grid size img -> (0 <= px < size)%Z -> (0 <= py < size)%Z ->
  exists img', np_setitem img py px 1 = Ok img' /\ binary_grid size img'
    /\ forall r c, pixel img' r c = Some 1
                   <-> pixel img r c = Some 1 \/ (r = py /\ c = px).
Proof.
  intros Himg Hpx Hpy.
  destruct (np_setitem_lit Himg Hpx Hpy) as (img' & E & Hb & Hlit & Hkeep).
  exists img'. split; [exact E|]. split; [exact Hb|].
  intros r c. split.
  2:{ intros [H|[-> ->]]; [now apply Hkeep | exact Hlit]. }
  destruct Himg as [Hlen Hrows]. unfold np_setitem in E.
  rewrite np_index_ok in E by lia. cbn [bindR] in E.
  destruct (nth_error img (Z.to_nat py)) as [row|] eqn:Er; [|discriminate].
  pose proof (nth_error_In _ _ Er) as Hin.
  rewrite Forall_forall in Hrows. destruct (Hrows row Hin) as [Hr _].
  rewrite np_index_ok in E by lia. cbn [bindR] in E. inversion E; subst img'.
  assert (Hpy' : (Z.to_nat py < length img)%nat)
    by (apply nth_error_Some; congruence).
  unfold pixel.
  destruct (Z.ltb_spec r 0) as [Hr0|Hr0]; cbn [orb]; [discriminate|].
  destruct (Z.ltb_spec c 0) as [Hc0|Hc0]; [discriminate|].
  destruct (Nat.eq_dec (Z.to_nat py) (Z.to_nat r)) as [Hr'|Hr'].
  - rewrite <- Hr', Er, nth_error_set_nth_eq by exact Hpy'.
    destruct (Nat.eq_dec (Z.to_nat px) (Z.to_nat c)) as [Hc|Hc].
    + intros _. right. split; lia.
    + rewrite nth_error_set_nth_neq by exact Hc. now left.
  - rewrite nth_error_set_nth_neq by exact Hr'. now left.
Qed.

(** A loop whose passes each light the pixels [hit x] on the canvas [C], and
    change no other, lights the pixels of all its passes. *)
Lemma foldR_union {B : Type} (P : grid -> Prop) (C : Z -> Z -> Prop)
    (hit : B -> Z -> Z -> Prop) (f : grid -> B -> result grid) (l : list B) :
  (forall a x, In x l -> P a ->
     exists a', f a x = Ok a' /\ P a'
       /\ forall r c, pixel a' r c = Some 1
                      <-> pixel a r c = Some 1 \/ (C r c /\ hit x r c)) ->
  forall a, P a ->
    exists a', foldR f l a = Ok a' /\ P a'
      /\ forall r c, pixel a' r c = Some 1
                     <-> pixel a r c = Some 1
                         \/ (C r c /\ exists x, In x l /\ hit x r c).
Proof.
  induction l as [|x l IH]; intros Hf a Ha; cbn [foldR].
  - exists a. split; [reflexivity|]. split; [exact Ha|].
    intros r c. split; [now left|]. intros [H|(_ & x & [] & _)]. exact H.
  - destruct (Hf a x (or_introl eq_refl) Ha) as (a1 & -> & Ha1 & H1).
    cbn [bindR].
    destruct (IH (fun a x Hx => Hf a x (or_intror Hx)) a1 Ha1)
      as (a' & E & Ha' & H').
    exists a'. split; [exact E|]. split; [exact Ha'|].
    intros r c. rewrite H', H1. split.
    + intros [[H|[Hc Hx]]|(Hc & y & Hy & Hh)].
      * now left.
      * right. split; [exact Hc|]. exists x. split; [now left | exact Hx].
      * right. split; [exact Hc|]. exists y. split; [now right | exact Hh].
    + intros [H|(Hc & y & [<-|Hy] & Hh)].
      * left. now left.
      * left. right. now split.
      * right. split; [exact Hc|]. exists y. now split.
Qed.

Lemma pixel_zeros (n : nat) (r c : Z) :
  pixel (repeat (repeat 0 n) n) r c <> Some 1.
Proof.
  unfold pixel. destruct (_ || _)%bool; [discriminate|].
  destruct (nth_error (repeat (repeat 0 n) n) (Z.to_nat r)) as [row|] eqn:Er;
    [|discriminate].
  apply nth_error_In, repeat_spec in Er. subst row.
  destruct (nth_error (repeat 0 n) (Z.to_nat c)) as [v|] eqn:Ec; [|discriminate].
  apply nth_error_In, repeat_spec in Ec. subst v. discriminate.
Qed.

Section RasterizerExact.

Variable L : Libm.
Variable size : Z.
Variable sw : Q.

(** Row [r], column [c] is on the canvas. *)
Let canvas (r c : Z) : Prop := (0 <= r < size)%Z /\ (0 <= c < size)%Z.

Lemma stamp_pixel_exact (cx cy : Q) (wx wy : Z) (img : grid) :
  binary_grid size img ->
  exists img', stamp_pixel L size sw cx cy wx img wy = Ok img'
    /\ binary_grid size img'
    /\ forall r c, pixel img' r c = Some 1
         <-> pixel img r c = Some 1
             \/ (canvas r c
                 /\ (sqrt L (inject_Z (wx * wx + wy * wy)) <= sw
                     /\ py_round (cx + inject_Z wx) = c
                     /\ py_round (cy + inject_Z wy) = r)).
Proof.
  intros Himg. unfold stamp_pixel, canvas.
  rewrite math_sqrt_ok.
  2:{ unfold Qle; simpl. nia. }
  cbn [bindR].
  destruct (Qle_bool (sqrt L (inject_Z (wx * wx + wy * wy))) sw) eqn:Ed.
  2:{ exists img. split; [reflexivity|]. split; [exact Himg|].
      intros r c. split; [now left|]. intros [H|(_ & Hd & _)]; [exact H|].
      apply Qle_bool_iff in Hd. congruence. }
  apply Qle_bool_iff in Ed.
  destruct (Z.leb_spec 0 (py_round (cx + inject_Z wx))) as [H1|H1]; cbn [andb].
  2:{ exists img. split; [reflexivity|]. split; [exact Himg|].
      intros r c. split; [now left|]. intros [H|(Hc & _ & Hx & _)]; [exact H|].
      lia. }
  destruct (Z.ltb_spec (py_round (cx + inject_Z wx)) size) as [H2|H2]; cbn [andb].
  2:{ exists img. split; [reflexivity|]. split; [exact Himg|].
      intros r c. split; [now left|]. intros [H|(Hc & _ & Hx & _)]; [exact H|].
      lia. }
  destruct (Z.leb_spec 0 (py_round (cy + inject_Z wy))) as [H3|H3]; cbn [andb].
  2:{ exists img. split; [reflexivity|]. split; [exact Himg|].
      intros r c. split; [now left|]. intros [H|(Hc & _ & _ & Hy)]; [exact H|].
      lia. }
  destruct (Z.ltb_spec (py_round (cy + inject_Z wy)) size) as [H4|H4]; cbn [andb].
  2:{ exists img. split; [reflexivity|]. split; [exact Himg|].
      intros r c. split; [now left|]. intros [H|(Hc & _ & _ & Hy)]; [exact H|].
      lia. }
  destruct (@np_setitem_exact size img (py_round (cy + inject_Z wy))
              (py_round (cx + inject_Z wx)) Himg) as (img' & E & Hb & Hpix);
    [lia | lia |].
  exists img'. split; [exact E|]. split; [exact Hb|].
  intros r c. rewrite Hpix. split.
  - intros [H|[-> ->]]; [now left|]. right. repeat split; try lia; assumption.
  - intros [H|(_ & _ & Hx & Hy)]; [now left|]. right. now split.
Qed.

Lemma stamp_exact (cx cy : Q) (img : grid) :
  binary_grid size img ->
  exists img', stamp L size sw cx cy img = Ok img'
    /\ binary_grid size img'
    /\ forall r c, pixel img' r c = Some 1
         <-> pixel img r c = Some 1 \/ (canvas r c /\ stamp_hits L sw cx cy r c).
Proof.
  intros Himg. unfold stamp.
  set (lo := to_int (- sw - 1)). set (hi := to_int (sw + 2)).
  destruct (@foldR_union Z (binary_grid size) canvas
              (fun wx r c => exists wy, In wy (range2 lo hi)
                 /\ (sqrt L (inject_Z (wx * wx + wy * wy)) <= sw
                     /\ py_round (cx + inject_Z wx) = c
                     /\ py_round (cy + inject_Z wy) = r))
              (fun img wx =>
                 foldR (stamp_pixel L size sw cx cy wx) (range2 lo hi) img)
              (range2 lo hi)) with (a := img) as (img' & E & Hb & Hpix);
    [|exact Himg|].
  - intros img1 wx _ H1.
    apply (@foldR_union Z (binary_grid size) canvas
             (fun wy r c => sqrt L (inject_Z (wx * wx + wy * wy)) <= sw
                            /\ py_round (cx + inject_Z wx) = c
                            /\ py_round (cy + inject_Z wy) = r));
      [|exact H1].
    intros img2 wy _ H2. now apply stamp_pixel_exact.
  - exists img'. split; [exact E|]. split; [exact Hb|].
    intros r c. rewrite Hpix. unfold stamp_hits. fold lo hi. split.
    + intros [H|(Hc & wx & Hwx & wy & Hwy & Hh)]; [now left|].
      right. split; [exact Hc|]. exists wx, wy.
      apply in_range2 in Hwx, Hwy. tauto.
    + intros [H|(Hc & wx & wy & Hwx & Hwy & Hh)]; [now left|].
      right. split; [exact Hc|]. exists wx. split; [now apply in_range2|].
      exists wy. split; [now apply in_range2 | exact Hh].
Qed.

Lemma draw_segment_exact (norm : polyline) (img : grid) (i : Z)
    (p1 p2 : point) :
  (1 <= i < len norm)%Z -> binary_grid size img ->
  nth_error norm (Z.to_nat (i - 1)) = Some p1 ->
  nth_error norm (Z.to_nat i) = Some p2 ->
  exists img', draw_segment L size sw norm img i = Ok img'
    /\ binary_grid size img'
    /\ forall r c, pixel img' r c = Some 1
         <-> pixel img r c = Some 1
             \/ (canvas r c /\ segment_hits L sw p1 p2 r c).
Proof.
  intros Hi Himg E1 E2. unfold draw_segment.
  rewrite (@getitem_nth_error _ norm (i - 1) p1) by (lia || exact E1).
  rewrite (@getitem_nth_error _ norm i p2) by (lia || exact E2).
  destruct p1 as [x1 y1], p2 as [x2 y2].
  cbn [bindR]. rewrite math_sqrt_ok by apply sum_squares_nonneg. cbn [bindR].
  unfold segment_hits. cbn [fst snd]. cbv zeta.
  set (steps := Z.max (to_int (sqrt L ((x2 - x1) * (x2 - x1)
                                       + (y2 - y1) * (y2 - y1)) * 2)) 1).
  destruct (@foldR_union Z (binary_grid size) canvas
              (fun s r c =>
                 stamp_hits L sw (x1 + inject_Z s / inject_Z steps * (x2 - x1))
                   (y1 + inject_Z s / inject_Z steps * (y2 - y1)) r c)
              (fun img s =>
                 (t <- int_truediv s steps ;;
                  stamp L size sw (x1 + t * (x2 - x1)) (y1 + t * (y2 - y1)) img)%res)
              (range (steps + 1))) with (a := img) as (img' & E & Hb & Hpix);
    [|exact Himg|].
  - intros img1 s _ H1. rewrite int_truediv_ok by (unfold steps; lia).
    cbn [bindR]. now apply stamp_exact.
  - exists img'. split; [exact E|]. split; [exact Hb|].
    intros r c. rewrite Hpix. split.
    + intros [H|(Hc & s & Hs & Hh)]; [now left|].
      right. split; [exact Hc|]. exists s. apply in_range in Hs.
      split; [lia | exact Hh].
    + intros [H|(Hc & s & Hs & Hh)]; [now left|].
      right. split; [exact Hc|]. exists s. split; [apply in_range; lia | exact Hh].
Qed.

(** The loop over the segments, from any image. *)
Lemma segments_exact (norm : polyline) (img : grid) :
  binary_grid size img ->
  exists img',
    foldR (draw_segment L size sw norm) (range2 1 (len norm)) img = Ok img'
    /\ binary_grid size img'
    /\ forall r c, pixel img' r c = Some 1
         <-> pixel img r c = Some 1 \/ (canvas r c /\ stamped L sw norm r c).
Proof.
  intros Himg.
  destruct (@foldR_union Z (binary_grid size) canvas
              (fun i r c => exists p1 p2,
                 nth_error norm (Z.to_nat (i - 1)) = Some p1
                 /\ nth_error norm (Z.to_nat i) = Some p2
                 /\ segment_hits L sw p1 p2 r c)
              (draw_segment L size sw norm)
              (range2 1 (len norm))) with (a := img) as (img' & E & Hb & Hpix);
    [|exact Himg|].
  - intros img1 i Hi H1. apply in_range2 in Hi.
    destruct (nth_error norm (Z.to_nat (i - 1))) as [p1|] eqn:E1.
    2:{ apply nth_error_None in E1. unfold len in Hi. lia. }
    destruct (nth_error norm (Z.to_nat i)) as [p2|] eqn:E2.
    2:{ apply nth_error_None in E2. unfold len in Hi. lia. }
    destruct (@draw_segment_exact norm img1 i p1 p2 Hi H1 E1 E2)
      as (img' & E & Hb & Hpix).
    exists img'. split; [exact E|]. split; [exact Hb|].
    intros r c. rewrite Hpix. split.
    + intros [H|[Hc Hh]]; [now left|]. right. split; [exact Hc|].
      exists p1, p2. auto.
    + intros [H|(Hc & q1 & q2 & Eq1 & Eq2 & Hh)]; [now left|].
      inversion Eq1; inversion Eq2; subst. right. now split.
  - exists img'. split; [exact E|]. split; [exact Hb|].
    intros r c. rewrite Hpix. unfold stamped. split.
    + intros [H|(Hc & i & Hi & p1 & p2 & Hh)]; [now left|].
      right. split; [exact Hc|]. exists i, p1, p2. apply in_range2 in Hi. tauto.
    + intros [H|(Hc & i & p1 & p2 & Hi & Hh)]; [now left|].
      right. split; [exact Hc|]. exists i. split; [now apply in_range2|].
      exists p1, p2. exact Hh.
Qed.

End RasterizerExact.

(** C4.  For every non-empty polyline, every canvas size of at least 1 and
    every positive stroke width, [rasterize] returns (it raises nothing, in
    particular no [IndexError]) a [size] by [size] grid whose entries are all
    0.0 or 1.0, and the stamp pixels outside the canvas are discarded: a
    pixel of the image is 1.0 exactly when it is on the canvas, row and
    column in [0, size), and a stamp pixel of a segment of the normalized
    polyline falls on it.  No off-canvas stamp pixel is written anywhere. *)
Theorem rasterize_binary_grid (L : Libm) (points : polyline) (size : Z)
    (stroke_width : Q) :
  points <> [] -> (1 <= size)%Z -> 0 < stroke_width ->
  exists img norm,
    rasterize L points size stroke_width = Ok img
    /\ binary_grid size img
    /\ normalize_points points size = Ok norm
    /\ forall r c,
         pixel img r c = Some 1
         <-> (0 <= r < size)%Z /\ (0 <= c < size)%Z
             /\ stamped L stroke_width norm r c.
Proof.
  intros Hne Hsize _. unfold rasterize.
  destruct (np_zeros_binary (size := size)) as [Ez Hz]; [lia|].
  destruct (normalize_points_length_eq size Hne) as (norm & En & _).
  destruct (@segments_exact L size stroke_width norm _ Hz)
    as (img & E & Hb & Hpix).
  exists img, norm. rewrite Ez, En. cbn [bindR].
  split; [exact E|]. split; [exact Hb|]. split; [reflexivity|].
  intros r c. rewrite Hpix. split.
  - intros [H|[[Hr Hc] Hs]]; [now apply pixel_zeros in H | auto].
  - intros (Hr & Hc & Hs). right. split; [split|]; assumption.
Qed.

Lemma rasterize_binary_grid_witness :
  straight_line <> [] /\ (1 <= 4)%Z /\ 0 < 3 # 2 /\
  exists img norm,
    rasterize approx_libm straight_line 4 (3 # 2) = Ok img
    /\ binary_grid 4 img
    /\ normalize_points straight_line 4 = Ok norm
    /\ forall r c,
         pixel img r c = Some 1
         <-> (0 <= r < 4)%Z /\ (0 <= c < 4)%Z
             /\ stamped approx_libm (3 # 2) norm r c.
Proof.
  assert (H1 : straight_line <> []) by discriminate.
  assert (H2 : (1 <= 4)%Z) by lia.
  assert (H3 : 0 < 3 # 2) by reflexivity.
  exact (conj H1 (conj H2 (conj H3
           (@rasterize_binary_grid approx_libm straight_line 4 (3 # 2) H1 H2 H3)))).
Defined.

(* ================================================================== *)
(** * The augmentation only drops points *)
(* ================================================================== *)

Lemma subseq_refl {A : Type} (l : list A) : subseq l l.
Proof. induction l; constructor; assumption. Qed.

Lemma subseq_snoc_keep {A : Type} (l l' : list A) (x : A) :
  subseq l l' -> subseq (l ++ [x]) (l' ++ [x]).
Proof.
  induction 1; cbn [app]; repeat constructor; assumption.
Qed.

Lemma subseq_snoc_skip {A : Type} (l l' : list A) (x : A) :
  subseq l l' -> subseq l (l' ++ [x]).
Proof.
  induction 1; cbn [app]; repeat constructor; assumption.
Qed.

Lemma subseq_length {A : Type} (l l' : list A) :
  subseq l l' -> (length l <= length l')%nat.
Proof. induction 1; cbn [length]; lia. Qed.

Lemma subseq_firstn {A : Type} (k : nat) (l : list A) : subseq (firstn k l) l.
Proof.
  revert k. induction l as [|x l IH]; intros [|k]; cbn [firstn];
    try constructor; auto using subseq_refl.
  clear IH. induction l; constructor; assumption.
Qed.

Lemma firstn_snoc {A : Type} (l : list A) (k : nat) (x : A) :
  nth_error l k = Some x -> firstn (S k) l = firstn k l ++ [x].
Proof.
  revert k. induction l as [|y l IH]; intros [|k] E; cbn in *; try discriminate.
  - now inversion E.
  - f_equal. now apply IH.
Qed.

Lemma range2_cons (a b : Z) :
  (a < b)%Z -> range2 a b = a :: range2 (a + 1) b.
Proof.
  intros H. unfold range2.
  replace (Z.to_nat (b - a)) with (S (Z.to_nat (b - (a + 1)))) by lia.
  cbn [seq map]. f_equal; [lia|].
  rewrite <- seq_shift, map_map. apply map_ext. intros i. lia.
Qed.

Lemma range2_empty (a b : Z) : (b <= a)%Z -> range2 a b = [].
Proof.
  intros H. unfold range2. replace (Z.to_nat (b - a)) with 0%nat by lia.
  reflexivity.
Qed.

(** A loop over [range(a, b)] with an invariant that follows the index. *)
Lemma ensures_foldP_range {R : RandomSource} {A : Type} (P : Z -> A -> Prop)
    (f : A -> Z -> Py R A) (b : Z) (n : nat) :
  forall a, (a + Z.of_nat n = b)%Z ->
  (forall i x, (a <= i < b)%Z -> P i x -> ensures (f x i) (P (i + 1)%Z)) ->
  forall x, P a x -> ensures (foldP f (range2 a b) x) (P b).
Proof.
  induction n as [|n IH]; intros a Hab Hf x Hx.
  - rewrite range2_empty by lia. cbn [foldP]. apply ensures_ret.
    now replace b with a by lia.
  - rewrite range2_cons by lia. cbn [foldP].
    eapply ensures_bind; [apply Hf; [lia | exact Hx]|].
    intros x1 Hx1. apply IH; [lia | | exact Hx1].
    intros i y Hi. apply Hf. lia.
Qed.

Lemma raises_bind {R : RandomSource} {A B : Type} (m : Py R A)
    (k : A -> Py R B) (P : A -> Prop) (e : exn) :
  ensures m P -> (forall a, P a -> raises (k a) e) -> raises (bindP m k) e.
Proof.
  intros Hm Hk w. destruct (Hm w) as (a & w1 & E & Ha).
  unfold bindP. rewrite E. now apply Hk.
Qed.

Lemma raises_now {R : RandomSource} {A B : Type} (m : Py R A)
    (k : A -> Py R B) (e : exn) :
  raises m e -> raises (bindP m k) e.
Proof. intros Hm w. unfold bindP. now rewrite Hm. Qed.

Lemma raises_lift {R : RandomSource} {A : Type} (r : result A) (e : exn) :
  r = Raise e -> raises (R := R) (lift r) e.
Proof. intros -> w. reflexivity. Qed.

(** One statement of a block that ends in an exception. *)
Tactic Notation "rstep" uconstr(lem) :=
  eapply raises_bind; [eapply lem | cbv beta].

Lemma dict_get_missing {A : Type} (d : list (String.string * A))
    (key : String.string) :
  ~ In key (map fst d) -> dict_get d key = Raise KeyError.
Proof.
  induction d as [|[k v] d IH]; intros H; cbn [dict_get]; [reflexivity|].
  destruct (String.eqb_spec k key) as [E|E].
  - exfalso. apply H. now left.
  - apply IH. intros Hin. apply H. now right.
Qed.

Lemma ensures_conj {R : RandomSource} {A : Type} (m : Py R A)
    (P Q : A -> Prop) :
  ensures m P -> ensures m Q -> ensures m (fun a => P a /\ Q a).
Proof.
  intros HP HQ w. destruct (HP w) as (a & w1 & E & Ha).
  destruct (HQ w) as (a' & w2 & E' & Ha').
  rewrite E in E'. inversion E'; subst. exists a', w2. auto.
Qed.

Section Dropping.

Variable L : Libm.
Variable R : RandomSource.

(** The resampling loop of [simulate_stroke_speed], from [result = [p0]]. *)
Lemma stroke_speed_loop (points : polyline) (p0 : point) (rest : polyline)
    (curvatures : list Q) :
  points = p0 :: rest -> len curvatures = len points ->
  ensures (foldP (fun result i =>
                    (c <- lift (getitem curvatures i) ;;
                     let keep_prob := 0.3 + 0.7 * py_min_from (c / 0.5) [1] in
                     u <- random_random R ;;
                     if Qltb u keep_prob then
                       p <- lift (getitem points i) ;;
                       retP (result ++ [p])
                     else retP result)%py)
                 (range2 1 (len points)) [p0])
          (fun r => subseq r points /\ hd_error r = Some p0).
Proof.
  intros Ep Hc. eapply ensures_weaken.
  - apply ensures_foldP_range
      with (P := fun i r => subseq r (firstn (Z.to_nat i) points)
                            /\ hd_error r = Some p0)
           (n := Z.to_nat (len points - 1)).
    + rewrite Ep. unfold len. cbn [length]. lia.
    + intros i result Hi [Hsub Hhd].
      destruct (@getitem_ok _ curvatures i) as (c & Ec & _); [lia|].
      step ensures_lift_ok; [exact Ec|]. intros ? ->. cbv zeta.
      step ensures_random. intros u _.
      destruct (nth_error points (Z.to_nat i)) as [p|] eqn:Ei.
      2:{ apply nth_error_None in Ei. unfold len in Hi. plia. }
      replace (Z.to_nat (i + 1)) with (S (Z.to_nat i)) by lia.
      rewrite (firstn_snoc _ _ Ei).
      destruct (Qltb u _).
      * step ensures_lift_ok; [apply getitem_nth_error; [lia | exact Ei]|].
        intros ? ->. apply ensures_ret. split.
        -- now apply subseq_snoc_keep.
        -- destruct result; [discriminate | exact Hhd].
      * apply ensures_ret. split; [now apply subseq_snoc_skip | exact Hhd].
    + rewrite Ep. cbn. split; [repeat constructor | reflexivity].
  - intros r [Hsub Hhd]. split; [|exact Hhd].
    unfold len in Hsub. rewrite Nat2Z.id, firstn_all in Hsub. exact Hsub.
Qed.

Lemma length_curvatures (points : polyline) (inner : list Q) :
  (5 <= len points)%Z -> length inner = Z.to_nat (len points - 2) ->
  len ([0] ++ inner ++ [0]) = len points.
Proof.
  intros Hn H. unfold len in *. rewrite !length_app, H. cbn [length]. lia.
Qed.

Lemma simulate_stroke_speed_shorter (points : polyline) :
  ensures (simulate_stroke_speed L R points)
          (fun out => (length out <= length points)%nat).
Proof.
  unfold simulate_stroke_speed.
  destruct (Z.ltb_spec (len points) 5) as [Hn|Hn]; [now apply ensures_ret|].
  destruct (curvatures_ok L points) as (inner & E & Hinner).
  step ensures_lift_ok; [exact E|]. intros ? ->. cbv zeta.
  destruct points as [|p0 rest] eqn:Ep; [unfold len in Hn; cbn in Hn; lia|].
  rewrite <- Ep in *.
  assert (E0 : getitem points 0 = Ok p0) by (rewrite Ep; reflexivity).
  step ensures_lift_ok; [exact E0|]. intros ? ->.
  eapply ensures_bind;
    [exact (@stroke_speed_loop points p0 rest _ Ep (@length_curvatures points inner Hn Hinner))|].
  intros result [Hsub _]. apply subseq_length in Hsub.
  destruct (len result <? 3)%Z; apply ensures_ret; [lia | exact Hsub].
Qed.

Lemma simulate_incomplete_shape_shorter (points : polyline) (is_closed : bool) :
  ensures (simulate_incomplete_shape R points is_closed)
          (fun out => (length out <= length points)%nat).
Proof.
  unfold simulate_incomplete_shape.
  destruct is_closed; cbn [negb]; [|now apply ensures_ret].
  step ensures_random. intros u _.
  destruct (Qltb 0.4 u); [now apply ensures_ret|].
  step ensures_uniform_any. intros ratio _. apply ensures_ret.
  unfold slice_to. destruct (_ <? 0)%Z; apply subseq_length, subseq_firstn.
Qed.

End Dropping.

(** X16.  Stroke-speed resampling only drops points: its result is the input
    with some points left out, in the input's order, and it begins with the
    input's first point. *)
Theorem simulate_stroke_speed_subsequence (L : Libm) (R : RandomSource)
    (points : polyline) :
  ensures (simulate_stroke_speed L R points)
          (fun out => subseq out points /\ hd_error out = hd_error points).
Proof.
  unfold simulate_stroke_speed.
  destruct (Z.ltb_spec (len points) 5) as [Hn|Hn];
    [apply ensures_ret; split; [apply subseq_refl | reflexivity]|].
  destruct (curvatures_ok L points) as (inner & E & Hinner).
  step ensures_lift_ok; [exact E|]. intros ? ->. cbv zeta.
  destruct points as [|p0 rest] eqn:Ep; [unfold len in Hn; cbn in Hn; lia|].
  rewrite <- Ep in *.
  assert (E0 : getitem points 0 = Ok p0) by (rewrite Ep; reflexivity).
  step ensures_lift_ok; [exact E0|]. intros ? ->.
  eapply ensures_bind;
    [exact (@stroke_speed_loop R points p0 rest _ Ep (@length_curvatures points inner Hn Hinner))|].
  intros result [Hsub Hhd].
  destruct (Z.ltb_spec (len result) 3); apply ensures_ret.
  - split; [apply subseq_refl | reflexivity].
  - split; [exact Hsub|]. rewrite Hhd, Ep. reflexivity.
Qed.

(** X17.  The augmentation never adds a point: on a shape name of the script
    and a polyline of three points or more, [augment] returns a polyline of
    at least three and at most as many points as its input. *)
Theorem augment_point_count (L : Libm) (R : RandomSource) (points : polyline)
    (shape_name : String.string) :
  In shape_name SHAPE_NAMES -> (3 <= length points)%nat ->
  ensures (augment L R points shape_name)
          (fun out => (3 <= length out <= length points)%nat).
Proof.
  intros Hname H3. unfold augment. cbv zeta.
  destruct (rotation_range_ok Hname) as ([rot_min rot_max] & E).
  step ensures_lift_ok; [exact E|]. intros ? ->.
  step ensures_uniform_any. intros intensity _.
  step add_hand_wobble_ok. intros p1 H1.
  eapply ensures_bind;
    [apply ensures_conj;
       [apply simulate_incomplete_shape_ok
       | apply simulate_incomplete_shape_shorter]|].
  intros p2 [H2 H2']. cbv beta in H2, H2'.
  assert (Hp2 : (3 <= length p2 <= length points)%nat) by (unfold len in H2; lia).
  clear H2 H2'.
  step ensures_random. intros u _.
  eapply ensures_bind
    with (P := fun p => (3 <= length p <= length points)%nat).
  { destruct (Qltb u 0.5); [|now apply ensures_ret].
    eapply ensures_weaken;
      [apply ensures_conj;
         [apply simulate_stroke_speed_ok | apply simulate_stroke_speed_shorter]|].
    intros p [[->|H] H']; cbv beta in *; [exact Hp2 | unfold len in H; lia]. }
  intros p3 Hp3.
  step ensures_random. intros v _.
  eapply ensures_bind
    with (P := fun p => (3 <= length p <= length points)%nat).
  { destruct (Qltb v 0.6); [|now apply ensures_ret].
    step ensures_uniform_any. intros alpha _.
    eapply ensures_weaken; [apply elastic_deform_ok|].
    intros p Hp. cbv beta in Hp. lia. }
  intros p4 Hp4.
  step ensures_uniform_any. intros angle_deg _.
  destruct (@rotate_ok L p4 (radians L angle_deg)) as (p5 & E5 & Hp5);
    [apply three_nonempty; lia|].
  step ensures_lift_ok; [exact E5|]. intros ? ->.
  step ensures_uniform_any. intros scale_factor _.
  destruct (@scale_ok p5 scale_factor) as (p6 & E6 & Hp6);
    [apply three_nonempty; lia|].
  step ensures_lift_ok; [exact E6|]. intros ? ->.
  step ensures_uniform_any. intros tx _.
  step ensures_uniform_any. intros ty _.
  step ensures_uniform_any. intros noise_std _.
  eapply ensures_weaken; [apply add_noise_ok|].
  intros out Hout. cbv beta in Hout. rewrite Hout, length_translate. lia.
Qed.

Lemma augment_point_count_witness :
  In "line"%string SHAPE_NAMES /\ (3 <= length collinear4)%nat /\
  ensures (augment approx_libm lcg_source collinear4 "line"%string)
          (fun out => (3 <= length out <= length collinear4)%nat).
Proof.
  assert (H1 : In "line"%string SHAPE_NAMES)
    by (unfold SHAPE_NAMES; cbn [In]; tauto).
  assert (H2 : (3 <= length collinear4)%nat) by (cbn; lia).
  exact (conj H1 (conj H2
           (@augment_point_count approx_libm lcg_source collinear4
              "line"%string H1 H2))).
Defined.

(** X18.  What [augment] raises.  A shape name outside [SHAPE_NAMES] is a
    [KeyError], whatever the polyline; an empty polyline with a name of the
    script passes the first four stages and is a [ZeroDivisionError] in
    [rotate], whose centroid divides by the number of points. *)
Theorem augment_errors (L : Libm) (R : RandomSource)
    (shape_name : String.string) :
  (~ In shape_name SHAPE_NAMES ->
   forall points, raises (augment L R points shape_name) KeyError)
  /\ (In shape_name SHAPE_NAMES ->
      raises (augment L R [] shape_name) ZeroDivisionError).
Proof.
  split.
  - intros Hname points. unfold augment. cbv zeta.
    apply raises_now, raises_lift, dict_get_missing. exact Hname.
  - intros Hname. unfold augment. cbv zeta.
    destruct (rotation_range_ok Hname) as ([rot_min rot_max] & E).
    rstep ensures_lift_ok; [exact E|]. intros ? ->.
    rstep ensures_uniform_any. intros intensity _.
    rstep add_hand_wobble_ok. intros p1 H1.
    rstep simulate_incomplete_shape_shorter. intros p2 H2.
    rstep ensures_random. intros u _.
    eapply raises_bind with (P := fun p => p = []).
    { destruct (Qltb u 0.5).
      - eapply ensures_weaken; [apply simulate_stroke_speed_shorter|].
        intros p Hp. cbv beta in Hp. cbn [length] in *.
        destruct p; [reflexivity | cbn [length] in Hp; lia].
      - apply ensures_ret. cbn [length] in *.
        destruct p2; [reflexivity | cbn [length] in H2; lia]. }
    intros ? ->.
    rstep ensures_random. intros v _.
    eapply raises_bind with (P := fun p => p = []).
    { destruct (Qltb v 0.6); [|now apply ensures_ret].
      step ensures_uniform_any. intros alpha _.
      eapply ensures_weaken; [apply elastic_deform_ok|].
      intros p Hp. cbv beta in Hp. destruct p; [reflexivity | discriminate]. }
    intros ? ->.
    rstep ensures_uniform_any. intros angle_deg _.
    apply raises_now, raises_lift. reflexivity.
Qed.

(* ================================================================== *)
(** * Rotation and scaling are about the centroid *)
(* ================================================================== *)

Lemma py_sum_map_affine (g : point -> Q) (a b c : Q) (l : polyline) :
  (forall p, g p == a * fst p + b * snd p + c) ->
  py_sum (map g l)
  == a * py_sum (map fst l) + b * py_sum (map snd l) + c * inject_Z (len l).
Proof.
  intros Hg. induction l as [|p l IH].
  - unfold py_sum, len. cbn. ring.
  - cbn [map]. rewrite !py_sum_cons, IH, Hg. unfold len. cbn [length].
    rewrite Nat2Z.inj_succ, <- Z.add_1_r, inject_Z_plus.
    change (inject_Z 1) with 1. ring.
Qed.

Lemma centroid_affine (f : point -> point) (a b c a' b' c' : Q)
    (points : polyline) :
  points <> [] ->
  (forall p, fst (f p) == a * fst p + b * snd p + c) ->
  (forall p, snd (f p) == a' * fst p + b' * snd p + c') ->
  fst (centroid (map f points))
  == a * fst (centroid points) + b * snd (centroid points) + c
  /\ snd (centroid (map f points))
     == a' * fst (centroid points) + b' * snd (centroid points) + c'.
Proof.
  intros Hne Hx Hy.
  assert (Hn : ~ inject_Z (len points) == 0).
  { intros E. unfold Qeq in E. cbn [Qnum Qden inject_Z] in E.
    destruct points; [congruence|]. unfold len in E. cbn [length] in E. lia. }
  unfold centroid. cbn [fst snd].
  assert (El : len (map f points) = len points)
    by (unfold len; now rewrite length_map).
  rewrite El, !map_map.
  rewrite (@py_sum_map_affine (fun p => fst (f p)) a b c points Hx).
  rewrite (@py_sum_map_affine (fun p => snd (f p)) a' b' c' points Hy).
  split; field; exact Hn.
Qed.

(** X19.  [rotate] and [scale] turn and stretch a polyline about its
    centroid, which they leave where it is; [translate] moves it by
    [(dx, dy)]. *)
Theorem transforms_centroid (L : Libm) (points : polyline) :
  points <> [] ->
  (forall angle, exists out,
     rotate L points angle = Ok out
     /\ same_point (centroid out) (centroid points))
  /\ (forall factor, exists out,
        scale points factor = Ok out
        /\ same_point (centroid out) (centroid points))
  /\ (forall dx dy,
        same_point (centroid (translate points dx dy))
                   (fst (centroid points) + dx, snd (centroid points) + dy)).
Proof.
  intros Hne.
  assert (Hx : map fst points <> []) by (destruct points; [congruence|discriminate]).
  assert (Hy : map snd points <> []) by (destruct points; [congruence|discriminate]).
  assert (Elx : len (map fst points) = len points)
    by (unfold len; now rewrite length_map).
  assert (Ely : len (map snd points) = len points)
    by (unfold len; now rewrite length_map).
  split; [|split].
  - intros angle. unfold rotate. rewrite (mean_ok Hx), (mean_ok Hy), Elx, Ely.
    cbn [bindR]. eexists. split; [reflexivity|].
    change (py_sum (map fst points) / inject_Z (len points))
      with (fst (centroid points)).
    change (py_sum (map snd points) / inject_Z (len points))
      with (snd (centroid points)).
    set (cx := fst (centroid points)). set (cy := snd (centroid points)).
    destruct (@centroid_affine
                (fun '(x, y) =>
                   (cx + (x - cx) * cos L angle - (y - cy) * sin L angle,
                    cy + (x - cx) * sin L angle + (y - cy) * cos L angle))
                (cos L angle) (- sin L angle)
                (cx - cx * cos L angle + cy * sin L angle)
                (sin L angle) (cos L angle)
                (cy - cx * sin L angle - cy * cos L angle)
                points Hne) as [E1 E2].
    + intros [x y]. cbn [fst snd]. ring.
    + intros [x y]. cbn [fst snd]. ring.
    + split; [rewrite E1 | rewrite E2]; fold cx cy; ring.
  - intros factor. unfold scale. rewrite (mean_ok Hx), (mean_ok Hy), Elx, Ely.
    cbn [bindR]. eexists. split; [reflexivity|].
    change (py_sum (map fst points) / inject_Z (len points))
      with (fst (centroid points)).
    change (py_sum (map snd points) / inject_Z (len points))
      with (snd (centroid points)).
    set (cx := fst (centroid points)). set (cy := snd (centroid points)).
    destruct (@centroid_affine
                (fun '(x, y) => (cx + (x - cx) * factor, cy + (y - cy) * factor))
                factor 0 (cx - cx * factor) 0 factor (cy - cy * factor)
                points Hne) as [E1 E2].
    + intros [x y]. cbn [fst snd]. ring.
    + intros [x y]. cbn [fst snd]. ring.
    + split; [rewrite E1 | rewrite E2]; fold cx cy; ring.
  - intros dx dy. unfold translate.
    destruct (@centroid_affine (fun '(x, y) => (x + dx, y + dy))
                1 0 dx 0 1 dy points Hne) as [E1 E2].
    + intros [x y]. cbn [fst snd]. ring.
    + intros [x y]. cbn [fst snd]. ring.
    + split; cbn [fst snd]; [rewrite E1 | rewrite E2]; ring.
Qed.

Lemma transforms_centroid_witness :
  straight_line <> [] /\
  (forall angle, exists out,
     rotate approx_libm straight_line angle = Ok out
     /\ same_point (centroid out) (centroid straight_line))
  /\ (forall factor, exists out,
        scale straight_line factor = Ok out
        /\ same_point (centroid out) (centroid straight_line))
  /\ (forall dx dy,
        same_point (centroid (translate straight_line dx dy))
                   (fst (centroid straight_line) + dx,
                    snd (centroid straight_line) + dy)).
Proof.
  assert (H : straight_line <> []) by discriminate.
  exact (conj H (@transforms_centroid approx_libm straight_line H)).
Defined.

(* ================================================================== *)
(** * How many points [interpolate_along_edges] can fall short by *)
(* ================================================================== *)

Lemma py_round_lower (x : Q) : x - (1 # 2) <= inject_Z (py_round x).
Proof.
  pose proof (Qfloor_le x) as Hlo. pose proof (Qlt_floor x) as Hhi.
  rewrite inject_Z_plus in Hhi. change (inject_Z 1) with 1 in Hhi.
  unfold py_round. cbv zeta.
  destruct (Qltb (x - inject_Z (Qfloor x)) (1 # 2)) eqn:E1.
  - apply Qltb_lt in E1. lra.
  - apply Qltb_ge in E1.
    destruct (Qltb (1 # 2) (x - inject_Z (Qfloor x))) eqn:E2.
    + rewrite inject_Z_plus. change (inject_Z 1) with 1. lra.
    + apply Qltb_ge in E2.
      destruct (Z.even (Qfloor x)); [lra|].
      rewrite inject_Z_plus. change (inject_Z 1) with 1. lra.
Qed.

Lemma map_snd_combine {A B : Type} (l : list A) (l' : list B) :
  length l = length l' -> map snd (combine l l') = l'.
Proof.
  revert l'. induction l as [|a l IH]; intros [|b l'] H; cbn in *;
    try discriminate; [reflexivity|].
  f_equal. apply IH. lia.
Qed.

(** The points the loop over the edges collects: each edge gets its share
    of [n], less at most half a point. *)
Lemma extend_edges_total (n : Z) (total_len : Q)
    (l : list (point * point * Q)) :
  ~ total_len == 0 ->
  forall acc pts,
    foldR (extend_edge n total_len) l acc = Ok pts ->
    inject_Z n * py_sum (map snd l) / total_len - inject_Z (len l) / 2
      + inject_Z (len acc)
    <= inject_Z (len pts).
Proof.
  intros HT. induction l as [|[[a b] elen] l IH]; intros acc pts H;
    cbn [foldR] in H.
  - inversion H; subst. unfold py_sum. cbn [map fold_left].
    change (inject_Z (len (@nil (point * point * Q)))) with 0.
    apply Qle_lteq. right. field. exact HT.
  - unfold extend_edge at 1 in H. rewrite float_div_ok in H by exact HT.
    cbn [bindR] in H.
    destruct (lerp_points_ok a b
                (Z.max 2 (py_round (inject_Z n * elen / total_len))))
      as (seg & Eseg & Hseg).
    rewrite Eseg in H. cbn [bindR] in H. specialize (IH _ _ H).
    pose proof (py_round_lower (inject_Z n * elen / total_len)) as Hr.
    assert (Hsl : inject_Z (py_round (inject_Z n * elen / total_len))
                  <= inject_Z (len seg)).
    { rewrite <- Zle_Qle. unfold len. rewrite Hseg. lia. }
    assert (Hacc : inject_Z (len (acc ++ seg))
                   == inject_Z (len acc) + inject_Z (len seg)).
    { unfold len. rewrite length_app, Nat2Z.inj_add, inject_Z_plus. reflexivity. }
    assert (Hk : inject_Z (len ((a, b, elen) :: l)) == inject_Z (len l) + 1).
    { unfold len. cbn [length].
      rewrite Nat2Z.inj_succ, <- Z.add_1_r, inject_Z_plus. reflexivity. }
    assert (Hs : inject_Z n * py_sum (map snd ((a, b, elen) :: l)) / total_len
                 == inject_Z n * elen / total_len
                    + inject_Z n * py_sum (map snd l) / total_len).
    { cbn [map snd]. rewrite py_sum_cons. field. exact HT. }
    rewrite Hs, Hk. rewrite Hacc in IH.
    set (q := inject_Z n * elen / total_len) in *.
    set (s := inject_Z n * py_sum (map snd l) / total_len) in *.
    halve. lra.
Qed.

Lemma shortfall_Z (n k m : Z) :
  inject_Z n - inject_Z k / 2 <= inject_Z m -> (2 * (n - m) <= k)%Z.
Proof.
  intros H. rewrite Zle_Qle. unfold Z.sub.
  rewrite inject_Z_mult, inject_Z_plus, inject_Z_opp.
  change (inject_Z 2) with 2. revert H. halve. intros H. lra.
Qed.

(** The count of [interpolate_along_edges]: no more than [n] points, and no
    fewer than [n] less half a point per edge. *)
Lemma interpolate_along_edges_near (L : Libm) (vertices : polyline) (n : Z) :
  vertices <> [] -> (0 <= n)%Z ->
  exists pts, interpolate_along_edges L vertices n = Ok pts
    /\ (len pts <= n)%Z
    /\ (len pts = n
        \/ inject_Z n - inject_Z (len (edges_of vertices)) / 2
           <= inject_Z (len pts)).
Proof.
  intros Hne Hn. unfold interpolate_along_edges. cbv zeta.
  destruct (edge_lengths_ok L (edges_of vertices)) as (ls & -> & Hls).
  cbn [bindR]. destruct (Qeq_bool (py_sum ls) 0) eqn:E.
  - destruct vertices as [|v0 vs]; [congruence|].
    exists (replicate n v0). split; [reflexivity|].
    unfold replicate, len. rewrite repeat_length. split; [lia | left; lia].
  - assert (Hnz : ~ py_sum ls == 0)
      by (intros H; apply Qeq_bool_iff in H; congruence).
    destruct (extend_edges_ok n (combine (edges_of vertices) ls) Hnz [])
      as (pts & Epts & _).
    rewrite Epts. cbn [bindR]. eexists. split; [reflexivity|].
    pose proof (@extend_edges_total n _ _ Hnz _ _ Epts) as Htot.
    rewrite map_snd_combine in Htot by (symmetry; exact Hls).
    assert (Ek : len (combine (edges_of vertices) ls) = len (edges_of vertices))
      by (unfold len; rewrite length_combine, Hls, Nat.min_id; reflexivity).
    rewrite Ek in Htot.
    assert (Hone : inject_Z n * py_sum ls / py_sum ls == inject_Z n)
      by (field; exact Hnz).
    rewrite Hone in Htot. change (inject_Z (len [])) with 0 in Htot.
    unfold slice_to. destruct (Z.ltb_spec n 0); [lia|].
    unfold len at 1 2 4. rewrite length_firstn.
    split; [lia|].
    destruct (Nat.le_ge_cases (Z.to_nat n) (length pts)) as [Hc|Hc].
    + left. lia.
    + right. replace (Init.Nat.min (Z.to_nat n) (length pts)) with (length pts) by lia.
      fold (len pts). lra.
Qed.

(** X20.  The shortfall of [interpolate_along_edges] is at most half a point
    per edge: for a non-empty vertex list and [n >= 0] it returns [pts] with
    [2 * (n - len(pts)) <= number of edges]. *)
Theorem interpolate_along_edges_shortfall_bound (L : Libm)
    (vertices : polyline) (n : Z) :
  vertices <> [] -> (0 <= n)%Z ->
  exists pts, interpolate_along_edges L vertices n = Ok pts
    /\ (2 * (n - len pts) <= len (edges_of vertices))%Z.
Proof.
  intros Hne Hn.
  destruct (interpolate_along_edges_near L Hne Hn) as (pts & E & _ & [Heq|Hq]).
  - exists pts. split; [exact E|].
    pose proof (len_nonneg (edges_of vertices)). lia.
  - exists pts. split; [exact E|]. now apply shortfall_Z.
Qed.

Lemma interpolate_along_edges_shortfall_bound_witness :
  collinear4 <> [] /\ (0 <= 40)%Z /\
  exists pts, interpolate_along_edges approx_libm collinear4 40 = Ok pts
    /\ (2 * (40 - len pts) <= len (edges_of collinear4))%Z.
Proof.
  assert (H1 : collinear4 <> []) by discriminate.
  assert (H2 : (0 <= 40)%Z) by lia.
  exact (conj H1 (conj H2
           (@interpolate_along_edges_shortfall_bound approx_libm collinear4 40
              H1 H2))).
Defined.

(* ================================================================== *)
(** * How many points the generators return *)
(* ================================================================== *)

(** [interpolate_along_edges] on a closed outline of [k] edges, asked for
    [lo <= n <= hi] points. *)
Lemma outline_count (L : Libm) (R : RandomSource) (corners : polyline)
    (k lo hi n : Z) :
  corners <> [] -> len (edges_of corners) = k -> (0 <= lo <= n)%Z -> (n <= hi)%Z ->
  ensures (R := R) (lift (interpolate_along_edges L corners n))
          (fun out => (2 * lo - k <= 2 * len out)%Z /\ (len out <= hi)%Z).
Proof.
  intros Hne Hk Hlo Hhi. apply ensures_lift.
  destruct (@interpolate_along_edges_near L corners n Hne) as (pts & E & Hle & Hnear);
    [lia|].
  exists pts. split; [exact E|]. split; [|lia].
  pose proof (len_nonneg (edges_of corners)).
  destruct Hnear as [Heq|Hq]; [lia|].
  apply shortfall_Z in Hq. lia.
Qed.

(** X21.  The number of points of a generated polyline: a circle has 51 to
    81, a square or rectangle 38 to 70, a triangle 34 to 60, a diamond 33 to
    60, an arrow 23 to 43 (the shaft and three points of the head), a line
    20 to 40. *)
Theorem generators_point_counts (L : Libm) (R : RandomSource) :
  ensures (generate_circle L R) (fun out => (51 <= len out <= 81)%Z)
  /\ ensures (generate_square L R) (fun out => (38 <= len out <= 70)%Z)
  /\ ensures (generate_rectangle L R) (fun out => (38 <= len out <= 70)%Z)
  /\ ensures (generate_triangle L R) (fun out => (34 <= len out <= 60)%Z)
  /\ (forall direction,
        ensures (_generate_arrow L R direction)
                (fun out => (23 <= len out <= 43)%Z))
  /\ ensures (generate_diamond L R) (fun out => (33 <= len out <= 60)%Z)
  /\ ensures (generate_line L R) (fun out => (20 <= len out <= 40)%Z).
Proof.
  repeat split.
  - unfold generate_circle. cbv zeta.
    step ensures_random. intros u _.
    step ensures_uniform; [lra|]. intros eccentricity Hecc.
    step ensures_randint; [lia|]. intros num_points Hnum.
    step ensures_uniform_any. intros start_angle _.
    eapply ensures_weaken.
    + apply ensures_mapP with (Q := fun _ _ => True).
      intros i _.
      step ensures_lift_ok; [apply int_truediv_ok; lia|]. intros q _.
      step ensures_uniform_any. intros j _.
      step ensures_lift_ok; [apply float_div_ok; lra|]. intros ry _.
      now apply ensures_ret.
    + intros out H. cbv beta. unfold len.
      rewrite (Forall2_length_eq H), length_range. lia.
  - unfold generate_square. cbv zeta.
    step ensures_random. intros u _.
    step ensures_uniform_any. intros skew _.
    step uniform_list_ok. intros side_var Hsv.
    destruct (four_items side_var Hsv) as (a & b & c & d & Ea & Eb & Ec & Ed).
    step ensures_lift_ok; [exact Ea|]. intros ? ->.
    step ensures_lift_ok; [exact Eb|]. intros ? ->.
    step ensures_lift_ok; [exact Ec|]. intros ? ->.
    step ensures_lift_ok; [exact Ed|]. intros ? ->.
    step ensures_randint; [lia|]. intros num_points Hnum.
    eapply ensures_weaken;
      [apply outline_count with (k := 4%Z) (lo := 40%Z) (hi := 70%Z);
         [discriminate | reflexivity | lia | lia]|].
    intros out Hout. cbv beta in Hout. lia.
  - unfold generate_rectangle. cbv zeta.
    step ensures_random. intros u _.
    step ensures_uniform; [lra|]. intros aspect Haspect.
    step ensures_lift_ok; [apply float_div_ok; lra|]. intros h _.
    step ensures_uniform_any. intros skew _.
    step ensures_random. intros v _.
    step ensures_randint; [lia|]. intros num_points Hnum.
    eapply ensures_weaken;
      [apply outline_count with (k := 4%Z) (lo := 40%Z) (hi := 70%Z);
         [destruct (Qltb v 0.5); discriminate
         | destruct (Qltb v 0.5); reflexivity | lia | lia]|].
    intros out Hout. cbv beta in Hout. lia.
  - unfold generate_triangle. cbv zeta.
    step ensures_random. intros u _.
    step uniform_list_ok. intros draws Hdraws.
    eapply ensures_bind with (P := fun vs : polyline => length vs = 3%nat).
    { eapply ensures_weaken.
      - apply ensures_mapP with (Q := fun _ _ => True).
        intros a _. step ensures_uniform_any. intros f _. now apply ensures_ret.
      - intros vs H. rewrite (Forall2_length_eq H), length_py_sorted, Hdraws.
        reflexivity. }
    intros vertices Hvs.
    destruct vertices as [|a [|b [|c [|d vs]]]]; try discriminate.
    step ensures_lift_ok; [reflexivity|]. intros ? ->.
    step ensures_randint; [lia|]. intros num_points Hnum.
    eapply ensures_weaken;
      [apply outline_count with (k := 3%Z) (lo := 35%Z) (hi := 60%Z);
         [discriminate | reflexivity | lia | lia]|].
    intros out Hout. cbv beta in Hout. lia.
  - intros direction. unfold _generate_arrow. cbv zeta.
    step ensures_random. intros u _.
    step ensures_random. intros v _.
    step ensures_uniform_any. intros j _.
    step ensures_randint; [lia|]. intros shaft_points Hsp.
    step ensures_uniform_any. intros curvature _.
    destruct (String.eqb direction "right");
      [|destruct (String.eqb direction "left");
        [|destruct (String.eqb direction "up")]];
      cbv beta iota;
      (eapply ensures_bind
         with (P := fun pts : polyline => length pts = Z.to_nat shaft_points);
       [ eapply ensures_weaken;
         [ apply ensures_mapP with (Q := fun _ _ => True);
           intros i _;
           (step ensures_lift_ok; [apply int_truediv_ok; lia|]);
           intros t _; now apply ensures_ret
         | intros pts H; rewrite (Forall2_length_eq H); apply length_range ]
       | intros points Hpts; apply ensures_ret; unfold len;
         rewrite !length_app; cbn [length]; plia ]).
  - unfold generate_diamond. cbv zeta.
    step ensures_random. intros u _.
    step ensures_uniform_any. intros h_stretch _.
    step ensures_uniform_any. intros w_stretch _.
    step uniform_list_ok. intros axis_var Hav.
    destruct (four_items axis_var Hav) as (a & b & c & d & Ea & Eb & Ec & Ed).
    step ensures_lift_ok; [exact Ea|]. intros ? ->.
    step ensures_lift_ok; [exact Eb|]. intros ? ->.
    step ensures_lift_ok; [exact Ec|]. intros ? ->.
    step ensures_lift_ok; [exact Ed|]. intros ? ->.
    step ensures_randint; [lia|]. intros num_points Hnum.
    eapply ensures_weaken;
      [apply outline_count with (k := 4%Z) (lo := 35%Z) (hi := 60%Z);
         [discriminate | reflexivity | lia | lia]|].
    intros out Hout. cbv beta in Hout. lia.
  - unfold generate_line. cbv zeta.
    step ensures_random. intros u [Hu0 Hu1].
    step ensures_uniform_any. intros angle _.
    step ensures_randint; [lia|]. intros num_points Hnum.
    step ensures_uniform_any. intros curvature _.
    assert (Hlen : ~ 45 + u * 35 + epsilon == 0).
    { assert (0 <= u * 35) by (apply Qmult_le_0_compat; lra).
      unfold epsilon. lra. }
    eapply ensures_weaken.
    + apply ensures_mapP with (Q := fun _ _ => True).
      intros i _.
      step ensures_lift_ok; [apply int_truediv_ok; lia|]. intros t _.
      step ensures_lift_ok; [apply float_div_ok; exact Hlen|]. intros perp_x _.
      step ensures_lift_ok; [apply float_div_ok; exact Hlen|]. intros perp_y _.
      now apply ensures_ret.
    + intros out H. cbv beta. unfold len.
      rewrite (Forall2_length_eq H), length_range. lia.
Qed.

(* ================================================================== *)
(** * The normalized stroke is centred and keeps its proportions *)
(* ================================================================== *)

(** X22.  [normalize_points] centres the stroke and keeps its aspect ratio:
    on a canvas size that is not negative, the bounding box of the output has
    its middle at [(size / 2, size / 2)], and its width and height are in the
    proportion of the input's. *)
Theorem normalize_points_centred (points : polyline) (size : Z) :
  points <> [] -> (0 <= size)%Z ->
  exists out, normalize_points points size = Ok out
    /\ (min_of (map fst out) + max_of (map fst out)) / 2 == inject_Z size / 2
    /\ (min_of (map snd out) + max_of (map snd out)) / 2 == inject_Z size / 2
    /\ bbox_w out * bbox_h points == bbox_h out * bbox_w points.
Proof.
  intros Hne Hsize.
  destruct (normalize_points_length_eq size Hne) as (out & E & Hnd & Hd).
  exists out. split; [exact E|].
  destruct (Qeq_bool (bbox_w points) 0 && Qeq_bool (bbox_h points) 0) eqn:Eb.
  - apply andb_true_iff in Eb. destruct Eb as [E1 E2].
    apply Qeq_bool_iff in E1, E2. rewrite (Hd (conj E1 E2)).
    unfold bbox_w, bbox_h, max_of, min_of, py_max_from, py_min_from.
    cbn [map fst snd fold_left]. repeat split; field.
  - assert (Hnz : ~ (bbox_w points == 0 /\ bbox_h points == 0)).
    { intros [E1 E2]. apply Qeq_bool_iff in E1, E2. rewrite E1, E2 in Eb.
      discriminate. }
    rewrite (Hnd Hnz). clear Hnd Hd E.
    destruct (bbox_norm_map Hne Hsize) as (_ & _ & Hs).
    destruct (similar_extent Hs Hne (similar_norm_map points size))
      as (Mx & My & Ew & Eh).
    set (o := map (norm_map points size) points) in *.
    assert (Nx : max_of (map fst o) == bbox_w o + min_of (map fst o))
      by (unfold bbox_w; ring).
    assert (Ny : max_of (map snd o) == bbox_h o + min_of (map snd o))
      by (unfold bbox_h; ring).
    rewrite Nx, Ny, Mx, My, Ew, Eh. repeat split; field.
Qed.

Lemma normalize_points_centred_witness :
  upright_rectangle <> [] /\ (0 <= 48)%Z /\
  exists out, normalize_points upright_rectangle 48 = Ok out
    /\ (min_of (map fst out) + max_of (map fst out)) / 2 == inject_Z 48 / 2
    /\ (min_of (map snd out) + max_of (map snd out)) / 2 == inject_Z 48 / 2
    /\ bbox_w out * bbox_h upright_rectangle
       == bbox_h out * bbox_w upright_rectangle.
Proof.
  assert (H1 : upright_rectangle <> []) by discriminate.
  assert (H2 : (0 <= 48)%Z) by lia.
  exact (conj H1 (conj H2 (@normalize_points_centred upright_rectangle 48 H1 H2))).
Defined.

(* ================================================================== *)
(** * Properties of the exported topology *)
(* ================================================================== *)

Lemma export_layer_input (st : list json * bool) (l : Layer) :
  is_input l = true -> export_layer st l = st.
Proof.
  unfold is_input, export_layer. destruct st as [acc first].
  destruct (layer_kind l); try discriminate. reflexivity.
Qed.

Lemma export_layer_real (acc : list json) (first : bool) (l : Layer) :
  is_input l = false ->
  export_layer (acc, first) l
  = (acc ++ [fst (export_real_layer first l)], snd (export_real_layer first l)).
Proof.
  unfold is_input, export_layer.
  destruct (layer_kind l); try discriminate; intros _;
    destruct (export_real_layer first l); reflexivity.
Qed.

Lemma export_fold (layers : list Layer) : forall acc first,
  fst (fold_left export_layer layers (acc, first)) = acc ++ exported first layers.
Proof.
  induction layers as [|l ls IH]; intros acc first; cbn [fold_left exported].
  - now rewrite app_nil_r.
  - destruct (is_input l) eqn:E.
    + rewrite (@export_layer_input (acc, first) l E). apply IH.
    + rewrite (@export_layer_real acc first l E), IH, <- app_assoc. reflexivity.
Qed.

Lemma layers_config_exported (layers : list Layer) :
  layers_config layers = exported true layers.
Proof. unfold layers_config. now rewrite export_fold. Qed.

(** What one entry holds, whatever the class of the layer. *)
Lemma export_real_layer_entry (first : bool) (l : Layer) :
  snd (export_real_layer first l) = false
  /\ entry_get (fst (export_real_layer first l)) "class_name"%string
     = Ok (JStr (class_name (layer_kind l)))
  /\ dict_get (config_of (fst (export_real_layer first l))) "name"%string
     = Ok (JStr (layer_name l))
  /\ dict_get (config_of (fst (export_real_layer first l)))
       "batch_input_shape"%string
     = if first then Ok input_shape else Raise KeyError.
Proof.
  unfold export_real_layer. destruct (layer_kind l), first; repeat split.
Qed.

(** X23.  The exported topology lists the layers of the model in order, each
    with its class name and its name, and leaves out every [InputLayer]. *)
Theorem layers_config_entries (layers : list Layer) :
  map (fun cfg => (entry_get cfg "class_name"%string,
                   dict_get (config_of cfg) "name"%string))
      (layers_config layers)
  = map (fun l => (Ok (JStr (class_name (layer_kind l))),
                   Ok (JStr (layer_name l))))
        (filter (fun l => negb (is_input l)) layers).
Proof.
  rewrite layers_config_exported.
  enough (H : forall first,
            map (fun cfg => (entry_get cfg "class_name"%string,
                             dict_get (config_of cfg) "name"%string))
                (exported first layers)
            = map (fun l => (Ok (JStr (class_name (layer_kind l))),
                             Ok (JStr (layer_name l))))
                  (filter (fun l => negb (is_input l)) layers))
    by apply H.
  induction layers as [|l ls IH]; intros first; cbn [exported filter map];
    [reflexivity|].
  destruct (is_input l) eqn:E; cbn [negb]; [apply IH|].
  cbn [map]. destruct (export_real_layer_entry first l) as (_ & -> & -> & _).
  f_equal. apply IH.
Qed.

(** X24.  ["batch_input_shape"] is written once: the first exported layer has
    it, with the value [[None, 48, 48, 1]], and no later one does; nothing is
    exported exactly when every layer is an [InputLayer]. *)
Theorem batch_input_shape_first_only (layers : list Layer) :
  match layers_config layers with
  | [] => forallb is_input layers = true
  | cfg :: rest =>
      dict_get (config_of cfg) "batch_input_shape"%string
      = Ok (JList [JNull; JInt 48; JInt 48; JInt 1])
      /\ Forall (fun cfg' => dict_get (config_of cfg') "batch_input_shape"%string
                             = Raise KeyError) rest
      /\ forallb is_input layers = false
  end.
Proof.
  rewrite layers_config_exported.
  assert (Hrest : forall ls,
            Forall (fun cfg' => dict_get (config_of cfg') "batch_input_shape"%string
                                = Raise KeyError) (exported false ls)).
  { induction ls as [|l ls IH]; cbn [exported]; [constructor|].
    destruct (is_input l); [exact IH|].
    destruct (export_real_layer_entry false l) as (-> & _ & _ & Hb).
    constructor; [exact Hb | exact IH]. }
  induction layers as [|l ls IH]; cbn [exported forallb]; [reflexivity|].
  destruct (is_input l) eqn:E; cbn [andb]; [exact IH|].
  destruct (export_real_layer_entry true l) as (-> & _ & _ & Hb).
  split; [exact Hb|]. split; [apply Hrest | reflexivity].
Qed.

(** X25.  The attributes of a first layer that is not a [Conv2D] are not
    exported: the class-specific keys are written in the [elif] branches after
    [if is_first_real_layer], so such a layer gets the keys [name],
    [trainable], [dtype] and [batch_input_shape] only (a [Dense] layer, for
    one, loses [units]). *)
Theorem first_layer_keeps_only_base_keys (inputs : list Layer) (l : Layer)
    (rest : list Layer) :
  forallb is_input inputs = true -> is_input l = false -> is_conv l = false ->
  exists cfg, hd_error (layers_config (inputs ++ l :: rest)) = Some cfg
    /\ keys (config_of cfg)
       = ["name"; "trainable"; "dtype"; "batch_input_shape"]%string.
Proof.
  intros Hin Hl Hc. rewrite layers_config_exported.
  induction inputs as [|i inputs IH]; cbn [app exported].
  - rewrite Hl. eexists. split; [reflexivity|].
    unfold is_input, is_conv in Hl, Hc. unfold export_real_layer.
    destruct (layer_kind l); try discriminate; reflexivity.
  - cbn [forallb] in Hin. apply andb_true_iff in Hin. destruct Hin as [Hi Hin].
    rewrite Hi. now apply IH.
Qed.

Lemma first_layer_keeps_only_base_keys_witness :
  forallb is_input [] = true /\
  is_input {| layer_name := "hidden"%string;
              layer_kind := Dense 64 "relu"%string true |} = false /\
  is_conv {| layer_name := "hidden"%string;
             layer_kind := Dense 64 "relu"%string true |} = false /\
  exists cfg, hd_error (layers_config dense_first) = Some cfg
    /\ keys (config_of cfg)
       = ["name"; "trainable"; "dtype"; "batch_input_shape"]%string.
Proof.
  exact (conj eq_refl (conj eq_refl (conj eq_refl
           (@first_layer_keeps_only_base_keys []
              {| layer_name := "hidden"%string;
                 layer_kind := Dense 64 "relu"%string true |}
              [ {| layer_name := "output"%string;
                   layer_kind := Dense 10 "softmax"%string true |} ]
              eq_refl eq_refl eq_refl)))).
Defined.

(* ================================================================== *)
(** * Which way an arrow points *)
(* ================================================================== *)

Lemma getitem_second_last {A : Type} (l : list A) (a b c : A) :
  getitem (l ++ [a] ++ [b] ++ [c]) (-2) = Ok b.
Proof.
  unfold getitem, len. cbv zeta. change (-2 <? 0)%Z with true. cbv iota.
  set (n := length (l ++ [a] ++ [b] ++ [c])).
  assert (Hn : n = (length l + 3)%nat)
    by (unfold n; rewrite !length_app; reflexivity).
  assert (E : (Z.of_nat n + -2 <? 0)%Z = false) by (apply Z.ltb_ge; lia).
  assert (Ei : Z.to_nat (Z.of_nat n + -2) = (length l + 1)%nat) by lia.
  rewrite E, Ei, nth_error_app2 by lia.
  replace (length l + 1 - length l)%nat with 1%nat by lia. reflexivity.
Qed.

(** The arrow generator up to the choice of the direction, then the shaft
    and the head: the point before the last is [tip]. *)
Ltac arrow_tip :=
  unfold generate_arrow_right, generate_arrow_left, generate_arrow_up,
    generate_arrow_down, _generate_arrow; cbv zeta;
  (step ensures_random); intros u [Hu0 Hu1];
  (step ensures_random); intros v _;
  (step ensures_uniform_any); intros j _;
  (step ensures_randint; [lia|]); intros shaft_points Hsp;
  (step ensures_uniform_any); intros curvature _;
  cbn [String.eqb Ascii.eqb Bool.eqb andb]; cbv beta iota;
  eapply ensures_bind with (P := fun _ => True);
  [ eapply ensures_weaken;
    [ apply ensures_mapP with (Q := fun _ _ => True);
      intros i _;
      (step ensures_lift_ok; [apply int_truediv_ok; lia|]);
      intros t _; now apply ensures_ret
    | intros; exact I ]
  | intros points _; apply ensures_ret;
    eexists; split; [apply getitem_second_last|];
    cbn [fst snd];
    assert (0 <= u * 25 < 25) by (split; nra);
    halve; repeat split; try lra; reflexivity ].

(** X26.  Each arrow points where its name says: the point before the last
    is the tip, on the axis through the centre [(50, 50)] and 22.5 to 35
    units from it, to the right for [arrow-right], to the left for
    [arrow-left], and, the y axis pointing down, above for [arrow-up] and
    below for [arrow-down]. *)
Theorem arrow_tip_direction (L : Libm) (R : RandomSource) :
  ensures (generate_arrow_right L R)
          (fun out => exists tip, getitem out (-2) = Ok tip
                      /\ 72.5 <= fst tip /\ fst tip < 85 /\ snd tip == 50)
  /\ ensures (generate_arrow_left L R)
          (fun out => exists tip, getitem out (-2) = Ok tip
                      /\ 15 < fst tip /\ fst tip <= 27.5 /\ snd tip == 50)
  /\ ensures (generate_arrow_up L R)
          (fun out => exists tip, getitem out (-2) = Ok tip
                      /\ fst tip == 50 /\ 15 < snd tip /\ snd tip <= 27.5)
  /\ ensures (generate_arrow_down L R)
          (fun out => exists tip, getitem out (-2) = Ok tip
                      /\ fst tip == 50 /\ 72.5 <= snd tip /\ snd tip < 85).
Proof.
  split; [arrow_tip | split; [arrow_tip | split; arrow_tip]].
Qed.
